(** * InReDD-Dataset helper utilities: a shallow embedding of [dataset_tools.py]

    The development follows the layout of the source file:

    - the Python values and run-time operations the code relies on
      (JSON values, truthiness, [str], integer true division, [round],
      [statistics.mean], [statistics.median], [min], [max], [sorted]);
    - [DatasetStats], the single-pass accumulator, over an explicit object
      store in which the three [Counter]s and the history list live;
    - [describe], which attaches the accumulator's counters to the summary;
    - [InReDDDataset], the index over [images/] and [annotations/], over a
      read-only directory tree, with an event log of the file accesses;
    - [_fmt_counter], the formatter of the text report, over the items of a
      counter in their order of insertion.  The command line of [main] and
      its printing are not modelled.

    Python exceptions are modelled by the [Raise] outcome; a call that raises
    keeps the mutations it performed before raising.  The services of the
    run time that the module calls and that are not modelled ([repr] of
    floats and containers, [fnmatch], the JSON decoder, the image decoder)
    are variables of the section [Model]; the worked examples at the end fix
    them. *)

From Stdlib Require Import ZArith Ascii String OrdersEx Floats.SpecFloat.
From stdpp Require Import base option list gmap strings sorting pretty.

#[local] Set Warnings "-register-all".
#[local] Open Scope Z_scope.

(** ** Exceptions and outcomes *)

Inductive exn :=
  | AttributeError
  | TypeError
  | IndexError
  | ValueError
  | OverflowError
  | ZeroDivisionError
  | StatisticsError
  | FileNotFoundError
  | JSONDecodeError
  | IsADirectoryError
  | ImageError.

Inductive outcome (A : Type) :=
  | Ret (a : A)
  | Raise (e : exn).
Arguments Ret {A} a.
Arguments Raise {A} e.

Definition is_ret {A} (o : outcome A) : bool :=
  match o with Ret _ => true | Raise _ => false end.

(** ** Python numbers: [int] is unbounded, [float] is IEEE binary64 *)

Module PyNum.

(** Nearest integer to [p / q] for [q > 0], ties to the even neighbour. *)
Definition round_half_even (p q : Z) : Z :=
  let d := p / q in
  match 2 * (p mod q) ?= q with
  | Lt => d
  | Gt => d + 1
  | Eq => if Z.even d then d else d + 1
  end.

(** [p / q / 2^e] as a fraction of integers. *)
Definition scaled (p q e : Z) : Z * Z :=
  if 0 <=? e then (p, q * 2 ^ e) else (p * 2 ^ (- e), q).

(** The binary64 value nearest to [p / q] for positive [p] and [q]
    (round to nearest, ties to even); [None] when it exceeds the largest
    finite double.  The exponent is chosen so that the significand has 53
    bits, and is not taken below that of the subnormals. *)
Definition b64_of_ratio (p q : Z) : option spec_float :=
  let e1 := Z.log2 p - Z.log2 q - 52 in
  let '(n1, d1) := scaled p q e1 in
  let e2 := if 2 ^ 52 * d1 <=? n1 then e1 else e1 - 1 in
  let e := Z.max e2 (-1074) in
  let '(n, d) := scaled p q e in
  let m := round_half_even n d in
  let '(m', e') := if m =? 2 ^ 53 then (2 ^ 52, e + 1) else (m, e) in
  match m' with
  | Zpos mp => if e' <=? 971 then Some (S754_finite false mp e') else None
  | _ => Some (S754_zero false)
  end.

Definition with_sign (s : bool) (f : spec_float) : spec_float :=
  match f with
  | S754_zero _ => S754_zero s
  | S754_infinity _ => S754_infinity s
  | S754_nan => S754_nan
  | S754_finite _ m e => S754_finite s m e
  end.

(** [a / b] on two [int]s: correctly rounded, [ZeroDivisionError] on a zero
    divisor and [OverflowError] when the quotient is too large. *)
Definition int_truediv (a b : Z) : outcome spec_float :=
  if b =? 0 then Raise ZeroDivisionError
  else
    let s := xorb (a <? 0) (b <? 0) in
    if a =? 0 then Ret (S754_zero s)
    else match b64_of_ratio (Z.abs a) (Z.abs b) with
         | Some f => Ret (with_sign s f)
         | None => Raise OverflowError
         end.

(** [round(x, ndigits)] on a [float], for [0 <= ndigits]: the value is
    rounded to [ndigits] decimals (ties to even, on the exact binary value)
    and the decimal is converted back to the nearest double. *)
Definition float_round (x : spec_float) (ndigits : Z) : outcome spec_float :=
  match x with
  | S754_finite s m e =>
      let k := if 0 <=? e then Zpos m * 10 ^ ndigits * 2 ^ e
               else round_half_even (Zpos m * 10 ^ ndigits) (2 ^ (- e)) in
      if k =? 0 then Ret (S754_zero s)
      else match b64_of_ratio k (10 ^ ndigits) with
           | Some f => Ret (with_sign s f)
           | None => Raise OverflowError
           end
  | _ => Ret x
  end.

(** The result of an arithmetic function: an [int] or a [float]. *)
Inductive pynum :=
  | NInt (z : Z)
  | NFloat (f : spec_float).

(** [round(v, ndigits)] for [0 <= ndigits]: an [int] is returned as is. *)
Definition py_round (v : pynum) (ndigits : Z) : outcome pynum :=
  match v with
  | NInt z => Ret (NInt z)
  | NFloat f =>
      match float_round f ndigits with
      | Ret r => Ret (NFloat r)
      | Raise e => Raise e
      end
  end.

(** A decimal literal [n / 10^d] of the source text, e.g. [1.33]. *)
Definition float_literal (n : Z) (d : Z) : spec_float :=
  match int_truediv n (10 ^ d) with
  | Ret f => f
  | Raise _ => S754_nan
  end.

End PyNum.
Export PyNum.

(** ** The [statistics] module and the built-ins over a list of [int]s *)

Module Statistics.

Definition sum (data : list Z) : Z := foldr Z.add 0 data.

(** [sorted(data)] on [int]s. *)
Definition sorted (data : list Z) : list Z := merge_sort Z.le data.

(** [statistics.mean]: the exact fraction [total / n], returned as an
    [int] when it is integral and as the nearest [float] otherwise. *)
Definition mean (data : list Z) : outcome pynum :=
  let n := Z.of_nat (length data) in
  if n <? 1 then Raise StatisticsError
  else
    let total := sum data in
    let g := Z.gcd total n in
    let num := total / g in
    let den := n / g in
    if den =? 1 then Ret (NInt num)
    else match int_truediv num den with
         | Ret f => Ret (NFloat f)
         | Raise e => Raise e
         end.

(** [statistics.median]: the middle element of the sorted data, or the
    true quotient by two of the sum of the two middle elements. *)
Definition median (data : list Z) : outcome pynum :=
  let data := sorted data in
  let n := length data in
  if (n =? 0)%nat then Raise StatisticsError
  else if (n mod 2 =? 1)%nat then
    match data !! (n / 2)%nat with
    | Some x => Ret (NInt x)
    | None => Raise IndexError
    end
  else
    let i := (n / 2)%nat in
    match data !! (i - 1)%nat, data !! i with
    | Some a, Some b =>
        match int_truediv (a + b) 2 with
        | Ret f => Ret (NFloat f)
        | Raise e => Raise e
        end
    | _, _ => Raise IndexError
    end.

(** [min] and [max] of a list; [ValueError] on an empty one. *)
Definition py_min (data : list Z) : outcome Z :=
  match data with
  | [] => Raise ValueError
  | x :: l => Ret (foldl Z.min x l)
  end.

Definition py_max (data : list Z) : outcome Z :=
  match data with
  | [] => Raise ValueError
  | x :: l => Ret (foldl Z.max x l)
  end.

End Statistics.

(** ** Values produced by [json.load] *)

(** A [dict] is the finite map from its keys, which are strings, to its
    values; the order of insertion, on which no counter depends, is not
    kept.  A [str] is the sequence of its characters. *)
Inductive pyval :=
  | PNone
  | PBool (b : bool)
  | PInt (z : Z)
  | PFloat (f : spec_float)
  | PStr (s : string)
  | PList (l : list pyval)
  | PDict (d : gmap string pyval).

(** Keys of a [dict] or [Counter]: hashable values up to Python equality, under
    which [True == 1 == 1.0].  Floats are the decoder's, in canonical form; it
    hands out one [NaN] object, so [KFloat S754_nan] is a single key as
    well. *)
Inductive hkey :=
  | KNone
  | KStr (s : string)
  | KInt (z : Z)
  | KFloat (f : spec_float).

#[global] Instance spec_float_eq_dec : EqDecision spec_float.
Proof. solve_decision. Defined.

Definition spec_float_to_sum (f : spec_float) : bool + bool + (unit + bool * positive * Z) :=
  match f with
  | S754_zero s => inl (inl s)
  | S754_infinity s => inl (inr s)
  | S754_nan => inr (inl ())
  | S754_finite s m e => inr (inr (s, m, e))
  end.

Definition spec_float_of_sum (x : bool + bool + (unit + bool * positive * Z)) : spec_float :=
  match x with
  | inl (inl s) => S754_zero s
  | inl (inr s) => S754_infinity s
  | inr (inl _) => S754_nan
  | inr (inr (s, m, e)) => S754_finite s m e
  end.

Lemma spec_float_of_to_sum f : spec_float_of_sum (spec_float_to_sum f) = f.
Proof. by destruct f. Qed.

#[global] Instance spec_float_countable : Countable spec_float :=
  inj_countable' spec_float_to_sum spec_float_of_sum spec_float_of_to_sum.

#[global] Instance hkey_eq_dec : EqDecision hkey.
Proof. solve_decision. Defined.

Definition hkey_to_sum (k : hkey) : unit + string + (Z + spec_float) :=
  match k with
  | KNone => inl (inl ())
  | KStr s => inl (inr s)
  | KInt z => inr (inl z)
  | KFloat f => inr (inr f)
  end.

Definition hkey_of_sum (x : unit + string + (Z + spec_float)) : hkey :=
  match x with
  | inl (inl _) => KNone
  | inl (inr s) => KStr s
  | inr (inl z) => KInt z
  | inr (inr f) => KFloat f
  end.

Lemma hkey_of_to_sum k : hkey_of_sum (hkey_to_sum k) = k.
Proof. by destruct k. Qed.

#[global] Instance hkey_countable : Countable hkey :=
  inj_countable' hkey_to_sum hkey_of_sum hkey_of_to_sum.

Module PyVal.

(** Truth value of an object, as tested by [if]. *)
Definition truthy (v : pyval) : bool :=
  match v with
  | PNone => false
  | PBool b => b
  | PInt z => negb (z =? 0)
  | PFloat (S754_zero _) => false
  | PFloat _ => true
  | PStr s => negb (String.eqb s "")
  | PList l => match l with [] => false | _ => true end
  | PDict d => negb (Nat.eqb (size d) 0)
  end.

Definition is_none (v : pyval) : bool :=
  match v with PNone => true | _ => false end.

(** [isinstance(v, Sequence)]: among the decoder's values, exactly the
    lists and the strings. *)
Definition isinstance_Sequence (v : pyval) : bool :=
  match v with
  | PList _ | PStr _ => true
  | _ => false
  end.

Fixpoint chars (s : string) : list pyval :=
  match s with
  | EmptyString => []
  | String c s' => PStr (String c EmptyString) :: chars s'
  end.

(** The elements of a sequence, in order: iterating a string gives its
    one-character substrings. *)
Definition seq_items (v : pyval) : list pyval :=
  match v with
  | PList l => l
  | PStr s => chars s
  | _ => []
  end.

(** [obj.get(key, dflt)]; an object that is not a [dict] has no [get]. *)
Definition py_get (obj : pyval) (key : string) (dflt : pyval) : outcome pyval :=
  match obj with
  | PDict d => Ret (default dflt (d !! key))
  | _ => Raise AttributeError
  end.

(** [obj.items()], as the list of its pairs. *)
Definition py_items (obj : pyval) : outcome (list (string * pyval)) :=
  match obj with
  | PDict d => Ret (map_to_list d)
  | _ => Raise AttributeError
  end.

(** The integer a finite float equals, if any. *)
Definition float_integral (s : bool) (m : positive) (e : Z) : option Z :=
  let sgn := if s then -1 else 1 in
  if 0 <=? e then Some (sgn * (Zpos m * 2 ^ e))
  else if Zpos m mod 2 ^ (- e) =? 0 then Some (sgn * (Zpos m / 2 ^ (- e)))
  else None.

(** The key under which a value is stored in a [dict]; lists and dicts are
    unhashable. *)
Definition hash_key (v : pyval) : option hkey :=
  match v with
  | PNone => Some KNone
  | PBool b => Some (KInt (if b then 1 else 0))
  | PInt z => Some (KInt z)
  | PFloat (S754_zero _) => Some (KInt 0)
  | PFloat (S754_finite s m e) =>
      Some (match float_integral s m e with
            | Some z => KInt z
            | None => KFloat (S754_finite s m e)
            end)
  | PFloat f => Some (KFloat f)
  | PStr s => Some (KStr s)
  | PList _ | PDict _ => None
  end.

Section Str.
(** [repr] of floats, lists and dicts is left to the run time. *)
Variable repr_ext : pyval → string.

(** [str(v)]. *)
Definition py_str (v : pyval) : string :=
  match v with
  | PNone => "None"
  | PBool true => "True"
  | PBool false => "False"
  | PInt z => pretty z
  | PStr s => s
  | _ => repr_ext v
  end.
End Str.

End PyVal.
Export PyVal.

(** ** The directory tree and the object store *)

(** A file with its bytes, or a directory with its entries in the order the
    operating system enumerates them. *)
Inductive node :=
  | File (content : string)
  | Dir (entries : list (string * node)).

Definition path := list string.

(** File-system accesses made by the code. *)
Inductive event :=
  | EvScan (dir : path) (pattern : string) (recursive : bool)
  | EvExists (p : path)
  | EvRead (p : path)
  | EvImageOpen (p : path).

Definition loc := positive.

(** The attributes of a [DatasetStats] instance: references to its three
    [Counter]s and to its history list, and the running total. *)
Record DatasetStats := mkDatasetStats {
  image_status : loc;
  conditions : loc;
  tooth_ids : loc;
  n_boxes_total : Z;
  boxes_per_image : loc;
}.

Inductive obj :=
  | OCounter (c : gmap hkey Z)
  | OList (l : list Z)
  | OStats (s : DatasetStats).

Record world := mkWorld {
  heap : gmap loc obj;
  fs : node;
  trace : list event;
}.

Definition set_heap (h : gmap loc obj) (w : world) : world :=
  {| heap := h; fs := fs w; trace := trace w |}.

Definition log (ev : event) (w : world) : world :=
  {| heap := heap w; fs := fs w; trace := trace w ++ [ev] |}.

(** ** Computations: state passing with exceptions *)

Definition M (A : Type) : Type := world → outcome A * world.

Definition ret {A} (a : A) : M A := λ w, (Ret a, w).
Definition raise {A} (e : exn) : M A := λ w, (Raise e, w).
Definition bind {A B} (m : M A) (k : A → M B) : M B :=
  λ w, match m w with
       | (Ret a, w') => k a w'
       | (Raise e, w') => (Raise e, w')
       end.
Definition lift {A} (o : outcome A) : M A := λ w, (o, w).
Definition emit (ev : event) : M unit := λ w, (Ret tt, log ev w).

Notation "'let*' x := m 'in' k" := (bind m (λ x, k))
  (at level 10, x name, m at level 100, k at level 200).

(** [for x in xs: body(x)] *)
Fixpoint for_each {A} (xs : list A) (body : A → M unit) : M unit :=
  match xs with
  | [] => ret tt
  | x :: xs' => let* _ := body x in for_each xs' body
  end.

Module Store.

Definition alloc (o : obj) : M loc :=
  λ w, let l := fresh (dom (heap w)) in (Ret l, set_heap (<[l := o]> (heap w)) w).

Definition load (l : loc) : M obj :=
  λ w, match heap w !! l with
       | Some o => (Ret o, w)
       | None => (Raise AttributeError, w)
       end.

Definition store (l : loc) (o : obj) : M unit :=
  λ w, (Ret tt, set_heap (<[l := o]> (heap w)) w).

Definition load_stats (self : loc) : M DatasetStats :=
  let* o := load self in
  match o with OStats s => ret s | _ => raise AttributeError end.

Definition load_counter (l : loc) : M (gmap hkey Z) :=
  let* o := load l in
  match o with OCounter c => ret c | _ => raise AttributeError end.

Definition load_list (l : loc) : M (list Z) :=
  let* o := load l in
  match o with OList xs => ret xs | _ => raise AttributeError end.

(** [self.<field>] *)
Definition attr {A} (field : DatasetStats → A) (self : loc) : M A :=
  let* s := load_stats self in ret (field s).

(** [lst.append(x)] *)
Definition list_append (l : loc) (x : Z) : M unit :=
  let* xs := load_list l in store l (OList (xs ++ [x])).

Definition counter_incr (k : hkey) (c : gmap hkey Z) : gmap hkey Z :=
  <[k := default 0 (c !! k) + 1]> c.

(** [counter.update(elems)]: one increment per element, in order; an
    unhashable element raises [TypeError] after the earlier increments. *)
Definition counter_update (l : loc) (elems : list pyval) : M unit :=
  let* _ := load_counter l in
  for_each elems (λ v,
    match hash_key v with
    | Some k => let* c := load_counter l in store l (OCounter (counter_incr k c))
    | None => raise TypeError
    end).

End Store.
Export Store.

(** ** Paths and directory scans ([pathlib]) *)

Module Paths.

(** The entry of a directory with a given name. *)
Fixpoint assoc (name : string) (es : list (string * node)) : option node :=
  match es with
  | [] => None
  | e :: es' => if String.eqb e.1 name then Some e.2 else assoc name es'
  end.

Fixpoint lookup_node (n : node) (p : path) : option node :=
  match p with
  | [] => Some n
  | name :: p' =>
      match n with
      | Dir es => assoc name es ≫= λ c, lookup_node c p'
      | File _ => None
      end
  end.

(** The directories below [n] (itself first, then each sub-directory in
    turn, depth first), each with its entries. *)
Fixpoint dirs_under (n : node) (here : path) : list (path * list (string * node)) :=
  match n with
  | File _ => []
  | Dir es =>
      (here, es) ::
      (fix go (l : list (string * node)) :=
         match l with
         | [] => []
         | e :: l' => dirs_under e.2 (here ++ [e.1]) ++ go l'
         end) es
  end.

(** [Path.name]: the last component. *)
Definition path_name (p : path) : string := default "" (last p).

(** [name.rfind(".")], counted from position [i] of the whole name. *)
Fixpoint rfind_dot (s : string) (i : nat) : option nat :=
  match s with
  | EmptyString => None
  | String c s' =>
      match rfind_dot s' (S i) with
      | Some j => Some j
      | None => if Ascii.eqb c "."%char then Some i else None
      end
  end.

(** [Path.stem]: the name without its last suffix; a name whose only dot
    is its first or its last character has no suffix. *)
Definition stem (name : string) : string :=
  match rfind_dot name 0 with
  | Some i =>
      if (0 <? i)%nat && (i <? String.length name - 1)%nat
      then String.substring 0 i name
      else name
  | None => name
  end.

Section Glob.
(** Matching of one path component against a pattern ([fnmatch]). *)
Variable path_match : string → string → bool.

Definition select (pat : string) (d : path * list (string * node)) : list path :=
  omap (λ e : string * node,
          if path_match pat e.1 then Some (d.1 ++ [e.1]) else None) d.2.

(** [dir.glob(pat)] for a one-component pattern. *)
Definition glob (root : node) (dir : path) (pat : string) : list path :=
  match lookup_node root dir with
  | Some (Dir es) => select pat (dir, es)
  | _ => []
  end.

(** [dir.rglob(pat)] for a one-component pattern. *)
Definition rglob (root : node) (dir : path) (pat : string) : list path :=
  match lookup_node root dir with
  | Some n => dirs_under n dir ≫= select pat
  | None => []
  end.
End Glob.

End Paths.
Export Paths.

(** Lexicographic order on identifiers, by character code. *)
Definition str_le (a b : string) : Prop := String.leb a b = true.
Definition str_lt (a b : string) : Prop := String.ltb a b = true.

#[global] Instance str_le_dec a b : Decision (str_le a b).
Proof. unfold str_le. apply _. Defined.
#[global] Instance str_lt_dec a b : Decision (str_lt a b).
Proof. unfold str_lt. apply _. Defined.

(** A value stored in a result [dict]: a number, a nested [dict] built for
    the result, or a reference to an object of the store. *)
Inductive sval :=
  | SNum (n : pynum)
  | SDict (d : gmap string sval)
  | SRef (l : loc).

(** ** The text report ([_fmt_counter]) *)

Module Report.

(** The items of a [Counter], in the order of insertion of their keys. *)
Definition items := list (hkey * Z).

(** [s.rjust(width)]: [s] after the spaces that bring it to [width]
    characters, if it is shorter. *)
Definition rjust (s : string) (width : nat) : string :=
  string_of_list_ascii (replicate (width - String.length s) " "%char) +:+ s.

(** [len(k)] on a key: only a string has a length. *)
Definition key_len (k : hkey) : outcome nat :=
  match k with
  | KStr s => Ret (String.length s)
  | _ => Raise TypeError
  end.

(** [max((len(k) for k in cnt), default=1)] *)
Fixpoint max_key_len (cnt : items) (best : option nat) : outcome nat :=
  match cnt with
  | [] => Ret (default 1%nat best)
  | kv :: cnt' =>
      match key_len kv.1 with
      | Ret n =>
          max_key_len cnt'
            (Some (match best with Some b => if (b <? n)%nat then n else b | None => n end))
      | Raise e => Raise e
      end
  end.

(** Insertion into a list sorted by decreasing count, before the first
    item that does not count more. *)
Fixpoint insert_by_count (x : hkey * Z) (l : items) : items :=
  match l with
  | [] => [x]
  | y :: l' => if x.2 <? y.2 then y :: insert_by_count x l' else x :: l
  end.

(** [sorted(cnt.items(), key=itemgetter(1), reverse=True)]: by decreasing
    count, items of equal count in their original order. *)
Definition sorted_by_count (cnt : items) : items := foldr insert_by_count [] cnt.

(** [cnt.most_common(n)]: all the items for [None], the [n] first otherwise
    (none if [n] is not positive). *)
Definition most_common (n : option Z) (cnt : items) : items :=
  match n with
  | None => sorted_by_count cnt
  | Some k => take (Z.to_nat k) (sorted_by_count cnt)
  end.

Definition newline : string := String "010"%char EmptyString.

(** One line [f"{k.rjust(pad)} : {v}"]; only a string has [rjust]. *)
Definition fmt_line (pad : nat) (kv : hkey * Z) : outcome string :=
  match kv.1 with
  | KStr s => Ret (rjust s pad +:+ " : " +:+ pretty kv.2)
  | _ => Raise AttributeError
  end.

(** The lines of the items, up to the first that raises. *)
Fixpoint fmt_lines (pad : nat) (l : items) : outcome (list string) :=
  match l with
  | [] => Ret []
  | kv :: l' =>
      match fmt_line pad kv with
      | Ret line =>
          match fmt_lines pad l' with
          | Ret lines => Ret (line :: lines)
          | Raise e => Raise e
          end
      | Raise e => Raise e
      end
  end.

(** [_fmt_counter(cnt, top=top)] *)
Definition _fmt_counter (cnt : items) (top : option Z) : outcome string :=
  match max_key_len cnt None with
  | Raise e => Raise e
  | Ret pad =>
      match fmt_lines pad (most_common top cnt) with
      | Ret lines => Ret (String.concat newline lines)
      | Raise e => Raise e
      end
  end.

End Report.
Export Report.

(** ** Data of the worked examples *)

(** In the examples [str] is applied to [None], integers and strings only,
    which it converts without [repr]; the delegate is then of no account. *)
Definition no_repr : pyval → string := λ _, "".

(** [fnmatch] on patterns made of literal characters, [?] and [*]. *)
Fixpoint wildcard_match (pat name : string) : bool :=
  match pat with
  | EmptyString => match name with EmptyString => true | _ => false end
  | String c pat' =>
      if Ascii.eqb c "*"%char then
        (fix star (s : string) : bool :=
           wildcard_match pat' s
           || match s with EmptyString => false | String _ s' => star s' end) name
      else
        match name with
        | EmptyString => false
        | String c' name' =>
            (Ascii.eqb c "?"%char || Ascii.eqb c c') && wildcard_match pat' name'
        end
  end.

(** [json.load] on the two documents of the example tree. *)
Definition example_json (content : string) : option pyval :=
  if String.eqb content "[]" then Some (PList [])
  else if String.eqb content "{}" then Some (PDict ∅)
  else None.

(** An image is kept as the bytes it was decoded from. *)
Definition example_image_open (content : string) : option string := Some content.

Definition empty_world : world := mkWorld ∅ (Dir []) [].

Definition example_tree : node :=
  Dir [("images",
        Dir [("b.png", File "B");
             ("a.jpg", File "A");
             ("sub", Dir [("a.png", File "A2"); ("notes.txt", File "")])]);
       ("annotations",
        Dir [("a.json", File "[]"); ("b.json", File "{}")])].

Definition example_world : world := mkWorld ∅ example_tree [].

(** A tree whose [images/] holds no image. *)
Definition imageless_world : world :=
  mkWorld ∅ (Dir [("images", Dir [("notes.txt", File "")])]) [].

(** The attributes of the first accumulator created in an empty store. *)
Definition first_stats : DatasetStats :=
  {| image_status := 1%positive; conditions := 2%positive;
     tooth_ids := 3%positive; n_boxes_total := 0;
     boxes_per_image := 4%positive |}.

(** A tree whose first annotation is a list, whose second is a number and
    whose third is missing. *)
Definition faulty_world : world :=
  mkWorld ∅
    (Dir [("images",
           Dir [("a.png", File "A"); ("b.png", File "B"); ("c.png", File "C")]);
          ("annotations", Dir [("a.json", File "[]"); ("b.json", File "7")])])
    [].

(** A decoder that knows that number as well. *)
Definition scalar_json (content : string) : option pyval :=
  if String.eqb content "7" then Some (PInt 7) else example_json content.

(** A tree whose only image is named by an extension alone. *)
Definition hidden_world : world :=
  mkWorld ∅
    (Dir [("images", Dir [(".png", File "H")]);
          ("annotations", Dir [(".png.json", File "[]")])])
    [].

(** The example tree without its annotations. *)
Definition unannotated_world : world :=
  mkWorld ∅
    (Dir [("images",
           Dir [("b.png", File "B");
                ("a.jpg", File "A");
                ("sub", Dir [("a.png", File "A2"); ("notes.txt", File "")])])])
    [].

(** The items of a counter, in the order of insertion. *)
Definition example_counter : items :=
  [(KStr "a", 2); (KStr "caries", 2); (KStr "b", 1)].

(** A status counter fed a number. *)
Definition mixed_counter : items := [(KStr "poor", 1); (KInt 1, 2)].

(** A counter whose items are not in the order of their counts. *)
Definition unsorted_counter : items :=
  [(KStr "x", 1); (KStr "y", 2); (KStr "z", 1); (KStr "t", 2)].



Section Model.

#[local] Set Default Proof Using "Type".

(** The run-time services the module calls: [repr] for the values [str]
    delegates to, [fnmatch] on path components, [json.load] on the bytes of a
    file, and [Image.open(...).convert("L")]. *)
Variable repr_ext : pyval → string.
Variable path_match : string → string → bool.
Variable json_load : string → option pyval.
Variable Image : Type.
Variable image_open : string → option Image.

(** *** class InReDDDataset *)

Definition IMG_EXTS : list string := [".png"; ".jpg"; ".jpeg"].

Definition hook : Type := option Image → pyval → outcome (option Image * pyval).

Record InReDDDataset := mkInReDDDataset {
  img_dir : path;
  ann_dir : path;
  ids : list string;
  load_images : bool;
  transforms : option hook;
}.

Definition read_fs : M node := λ w, (Ret (fs w), w).

(** [p for ext in exts for p in globber(ext)] *)
Fixpoint scan (dir : path) (recursive : bool) (exts : list string) : M (list path) :=
  match exts with
  | [] => ret []
  | ext :: exts' =>
      let pat := "*" +:+ ext in
      let* _ := emit (EvScan dir pat recursive) in
      let* root := read_fs in
      let found := (if recursive then rglob else glob) path_match root dir pat in
      let* more := scan dir recursive exts' in
      ret (found ++ more)
  end.

(** [InReDDDataset.__init__]; paths are relative to the resolved root. *)
Definition init (load : bool) (transforms : option hook) (recursive : bool)
    : M InReDDDataset :=
  let img_dir := ["images"] in
  let ann_dir := ["annotations"] in
  let* found := scan img_dir recursive IMG_EXTS in
  let stems : gset string := list_to_set ((λ p, stem (path_name p)) <$> found) in
  let ids := merge_sort str_le (elements stems) in
  match ids with
  | [] => raise FileNotFoundError
  | _ => ret {| img_dir := img_dir; ann_dir := ann_dir; ids := ids;
                load_images := load; transforms := transforms |}
  end.

(** [InReDDDataset.__len__] *)
Definition len (ds : InReDDDataset) : nat := length (ids ds).

(** The [for ext in IMG_EXTS: ... else: raise] loop of [__getitem__]. *)
Fixpoint find_image (ds : InReDDDataset) (img_id : string) (exts : list string)
    : M Image :=
  match exts with
  | [] => raise FileNotFoundError
  | ext :: exts' =>
      let pat := img_id +:+ ext in
      let* _ := emit (EvScan (img_dir ds) pat true) in
      let* root := read_fs in
      match head (rglob path_match root (img_dir ds) pat) with
      | Some img_file =>
          let* _ := emit (EvExists img_file) in
          match lookup_node root img_file with
          | Some (File content) =>
              let* _ := emit (EvImageOpen img_file) in
              match image_open content with
              | Some im => ret im
              | None => raise ImageError
              end
          | Some (Dir _) =>
              let* _ := emit (EvImageOpen img_file) in raise IsADirectoryError
          | None => find_image ds img_id exts'
          end
      | None => find_image ds img_id exts'
      end
  end.

(** [InReDDDataset.__getitem__] *)
Definition getitem (ds : InReDDDataset) (idx : Z) : M (option Image * pyval) :=
  let n := Z.of_nat (length (ids ds)) in
  let i := if idx <? 0 then idx + n else idx in
  match (if (i <? 0) || (n <=? i) then None else ids ds !! Z.to_nat i) with
  | None => raise IndexError
  | Some img_id =>
      let ann_path := ann_dir ds ++ [img_id +:+ ".json"] in
      let* _ := emit (EvExists ann_path) in
      let* root := read_fs in
      match lookup_node root ann_path with
      | None => raise FileNotFoundError
      | Some (Dir _) => raise IsADirectoryError
      | Some (File content) =>
          let* _ := emit (EvRead ann_path) in
          match json_load content with
          | None => raise JSONDecodeError
          | Some target =>
              let* image :=
                (if load_images ds
                 then let* im := find_image ds img_id IMG_EXTS in ret (Some im)
                 else ret None) in
              match transforms ds with
              | Some f => lift (f image target)
              | None => ret (image, target)
              end
          end
      end
  end.

(** [InReDDDataset.iter_annotations]: the generator is the range it still
    has to go through; a step takes the next index, evaluates [self[i]] and
    yields its second component ([None] when the range is exhausted). *)
Definition iter_annotations (ds : InReDDDataset) : list nat := seq 0 (len ds).

Definition gen_next (ds : InReDDDataset) (g : list nat)
    : M (option pyval * list nat) :=
  match g with
  | [] => ret (None, [])
  | i :: rest =>
      let* item := getitem ds (Z.of_nat i) in
      ret (Some item.2, rest)
  end.

(** [for ann in gen: body(ann)] *)
Fixpoint for_annotations (ds : InReDDDataset) (g : list nat) (body : pyval → M unit)
    : M unit :=
  match g with
  | [] => ret tt
  | _ :: rest =>
      let* r := gen_next ds g in
      match r.1 with
      | Some ann => let* _ := body ann in for_annotations ds rest body
      | None => ret tt
      end
  end.

(** *** class DatasetStats *)

(** [DatasetStats.__init__] *)
Definition new_stats : M loc :=
  let* s := alloc (OCounter ∅) in
  let* c := alloc (OCounter ∅) in
  let* t := alloc (OCounter ∅) in
  let* b := alloc (OList []) in
  alloc (OStats {| image_status := s; conditions := c; tooth_ids := t;
                   n_boxes_total := 0; boxes_per_image := b |}).

(** The body of [for obj in objs] in [update]. *)
Definition update_obj (self : loc) (obj : pyval) : M unit :=
  let* tid := lift (py_get obj "tooth_id" PNone) in
  let* _ :=
    (if is_none tid then ret tt
     else let* c := attr tooth_ids self in
          counter_update c [PStr (py_str repr_ext tid)]) in
  let* c := attr conditions self in
  let* conds := lift (py_get obj "conditions" (PDict ∅)) in
  let* items := lift (py_items conds) in
  let* _ := counter_update c
    (omap (λ cv : string * pyval,
             if truthy cv.2 then Some (PStr cv.1) else None) items) in
  let* status := lift (py_get obj "image_status" PNone) in
  if truthy status
  then let* c := attr image_status self in counter_update c [status]
  else ret tt.

(** [DatasetStats.update] *)
Definition update (self : loc) (ann : pyval) : M unit :=
  let objs := if isinstance_Sequence ann then seq_items ann else [ann] in
  let n := Z.of_nat (length objs) in
  let* b := attr boxes_per_image self in
  let* _ := list_append b n in
  let* s := load_stats self in
  let* _ := store self (OStats
    {| image_status := image_status s; conditions := conditions s;
       tooth_ids := tooth_ids s; n_boxes_total := n_boxes_total s + n;
       boxes_per_image := boxes_per_image s |}) in
  for_each objs (update_obj self).

(** [self.boxes_per_image], read through the two references. *)
Definition history (self : loc) : M (list Z) :=
  let* b := attr boxes_per_image self in load_list b.

(** The [dict] literal [summary] returns. *)
Definition summary_dict (images boxes : Z) (mean median : pynum) (lo hi : Z)
    : gmap string sval :=
  {[ "images" := SNum (NInt images);
     "boxes" := SNum (NInt boxes);
     "boxes_per_image" :=
       SDict {[ "mean" := SNum mean; "median" := SNum median;
                "min" := SNum (NInt lo); "max" := SNum (NInt hi) ]} ]}.

(** [DatasetStats.summary] *)
Definition summary (self : loc) : M (gmap string sval) :=
  let* l := history self in
  let images := Z.of_nat (length l) in
  let* boxes := attr n_boxes_total self in
  let* l := history self in
  let* m := lift (Statistics.mean l) in
  let* mean := lift (py_round m 2) in
  let* l := history self in
  let* median := lift (Statistics.median l) in
  let* l := history self in
  let* lo := lift (Statistics.py_min l) in
  let* l := history self in
  let* hi := lift (Statistics.py_max l) in
  ret (summary_dict images boxes mean median lo hi).

(** *** Public API *)

(** The three assignments [out[...] = acc.<counter>] of [describe]. *)
Definition attach_counters (acc : loc) (out : gmap string sval)
    : M (gmap string sval) :=
  let* s := attr image_status acc in
  let out := <["image_status" := SRef s]> out in
  let* c := attr conditions acc in
  let out := <["conditions" := SRef c]> out in
  let* t := attr tooth_ids acc in
  let out := <["tooth_ids" := SRef t]> out in
  ret out.

(** [describe]; the progress bar passes the generator through. *)
Definition describe : M (gmap string sval) :=
  let* ds := init false None true in
  let* acc := new_stats in
  let* _ := for_annotations ds (iter_annotations ds) (update acc) in
  let* out := summary acc in
  attach_counters acc out.

(** ** Specification-level definitions *)

(** The contents of an accumulator, read through its references. *)
Record view := mkView {
  v_status : gmap hkey Z;
  v_conditions : gmap hkey Z;
  v_tooth : gmap hkey Z;
  v_total : Z;
  v_history : list Z;
}.

(** [self] is a [DatasetStats] instance with attributes [s] and contents
    [v]; its three counters are distinct objects. *)
Record is_stats (h : gmap loc obj) (self : loc) (s : DatasetStats) (v : view)
    : Prop := mkIsStats {
  st_self : h !! self = Some (OStats s);
  st_status : h !! image_status s = Some (OCounter (v_status v));
  st_conditions : h !! conditions s = Some (OCounter (v_conditions v));
  st_tooth : h !! tooth_ids s = Some (OCounter (v_tooth v));
  st_boxes : h !! boxes_per_image s = Some (OList (v_history v));
  st_total : n_boxes_total s = v_total v;
  st_ne_sc : image_status s ≠ conditions s;
  st_ne_st : image_status s ≠ tooth_ids s;
  st_ne_ct : conditions s ≠ tooth_ids s;
}.

(** The executable reading of the same. *)
Definition read_stats (h : gmap loc obj) (self : loc) : option view :=
  match h !! self with
  | Some (OStats s) =>
      match h !! image_status s, h !! conditions s, h !! tooth_ids s,
            h !! boxes_per_image s with
      | Some (OCounter a), Some (OCounter b), Some (OCounter c), Some (OList l) =>
          Some {| v_status := a; v_conditions := b; v_tooth := c;
                  v_total := n_boxes_total s; v_history := l |}
      | _, _, _, _ => None
      end
  | _ => None
  end.

(** [counter[k]], zero for a missing key. *)
Definition count (c : gmap hkey Z) (k : hkey) : Z := default 0 (c !! k).

(** The counter after counting the keys [ks], in order. *)
Definition incr_all (ks : list hkey) (c : gmap hkey Z) : gmap hkey Z :=
  foldl (λ c k, counter_incr k c) c ks.

(** The objects of a record, as [update] normalises it. *)
Definition objs_of (ann : pyval) : list pyval :=
  if isinstance_Sequence ann then seq_items ann else [ann].

(** The keys one object adds to each counter and how its processing ends;
    an exception keeps the keys counted before it. *)
Record delta := mkDelta {
  d_tooth : list hkey;
  d_cond : list hkey;
  d_status : list hkey;
  d_res : outcome unit;
}.

(** The key for [self.tooth_ids] of a [dict] object, if it has one. *)
Definition tooth_of (d : gmap string pyval) : list hkey :=
  let tid := default PNone (d !! "tooth_id") in
  if is_none tid then [] else [KStr (py_str repr_ext tid)].

(** The names of the conditions of [cd] whose value is true. *)
Definition cond_of (cd : gmap string pyval) : list hkey :=
  omap (λ cv : string * pyval,
          if truthy cv.2 then Some (KStr cv.1) else None) (map_to_list cd).

(** One pass of the loop body of [update], as a [delta]. *)
Definition obj_delta (o : pyval) : delta :=
  match o with
  | PDict d =>
      match default (PDict ∅) (d !! "conditions") with
      | PDict cd =>
          let st := default PNone (d !! "image_status") in
          if truthy st then
            match hash_key st with
            | Some k => mkDelta (tooth_of d) (cond_of cd) [k] (Ret tt)
            | None => mkDelta (tooth_of d) (cond_of cd) [] (Raise TypeError)
            end
          else mkDelta (tooth_of d) (cond_of cd) [] (Ret tt)
      | _ => mkDelta (tooth_of d) [] [] (Raise AttributeError)
      end
  | _ => mkDelta [] [] [] (Raise AttributeError)
  end.

(** The loop of [update]: it stops at the first object that raises. *)
Fixpoint objs_delta (objs : list pyval) : delta :=
  match objs with
  | [] => mkDelta [] [] [] (Ret tt)
  | o :: rest =>
      let d := obj_delta o in
      match d_res d with
      | Ret _ =>
          let d' := objs_delta rest in
          mkDelta (d_tooth d ++ d_tooth d') (d_cond d ++ d_cond d')
                  (d_status d ++ d_status d') (d_res d')
      | Raise _ => d
      end
  end.

(** The contents with the keys of [d] counted. *)
Definition add_keys (d : delta) (v : view) : view :=
  {| v_status := incr_all (d_status d) (v_status v);
     v_conditions := incr_all (d_cond d) (v_conditions v);
     v_tooth := incr_all (d_tooth d) (v_tooth v);
     v_total := v_total v;
     v_history := v_history v |}.

(** The contents after [update(ann)]. *)
Definition update_view (ann : pyval) (v : view) : view :=
  let n := Z.of_nat (length (objs_of ann)) in
  add_keys (objs_delta (objs_of ann))
    {| v_status := v_status v; v_conditions := v_conditions v;
       v_tooth := v_tooth v; v_total := v_total v + n;
       v_history := v_history v ++ [n] |}.

(** One [update] call per record, in order, on the same accumulator,
    whatever each call's outcome. *)
Definition apply_updates (self : loc) (rs : list pyval) (w : world) : world :=
  foldl (λ w r, (update self r w).2) w rs.

(** A fresh accumulator fed the records [rs]. *)
Definition fed (rs : list pyval) (w : world) : outcome loc * world :=
  match new_stats w with
  | (Ret acc, w') => (Ret acc, apply_updates acc rs w')
  | r => r
  end.

(** [summary] as a function of the history and the running total. *)
Definition summary_of (hist : list Z) (total : Z) : outcome (gmap string sval) :=
  match Statistics.mean hist with
  | Raise e => Raise e
  | Ret m =>
  match py_round m 2 with
  | Raise e => Raise e
  | Ret mean =>
  match Statistics.median hist with
  | Raise e => Raise e
  | Ret median =>
  match Statistics.py_min hist with
  | Raise e => Raise e
  | Ret lo =>
  match Statistics.py_max hist with
  | Raise e => Raise e
  | Ret hi =>
      Ret (summary_dict (Z.of_nat (length hist)) total mean median lo hi)
  end end end end end.

(** Sizes that fit the signed machine word bounding every [len]. *)
Definition ssize_max : Z := 2 ^ 63 - 1.

(** Records whose number and sizes a Python list can have. *)
Definition realistic (rs : list pyval) : Prop :=
  Z.of_nat (length rs) ≤ ssize_max ∧
  Forall (λ r, Z.of_nat (length (objs_of r)) ≤ ssize_max) rs.

(** Two values of the attributes that refer to the same four objects. *)
Definition same_refs (s s' : DatasetStats) : Prop :=
  image_status s' = image_status s ∧ conditions s' = conditions s ∧
  tooth_ids s' = tooth_ids s ∧ boxes_per_image s' = boxes_per_image s.

(** The contents of a new accumulator. *)
Definition empty_view : view :=
  {| v_status := ∅; v_conditions := ∅; v_tooth := ∅; v_total := 0; v_history := [] |}.

(** The contents after one [update] per record of [rs]. *)
Definition views_after (rs : list pyval) (v : view) : view :=
  foldl (λ v r, update_view r v) v rs.

(** A finite double of moderate size: the shape [b64_of_ratio] returns
    on operands far from the overflow threshold. *)
Definition moderate (b : Z) (f : spec_float) : Prop :=
  match f with
  | S754_zero _ => True
  | S754_finite _ m e => Zpos m ≤ 2 ^ 54 ∧ e ≤ b
  | _ => False
  end.

(** A history whose length and entries are such sizes. *)
Definition sizes_ok (hist : list Z) : Prop :=
  Z.of_nat (length hist) ≤ ssize_max ∧ Forall (λ x, 0 ≤ x ≤ ssize_max) hist.

(** The number of objects of a record, as appended to the history. *)
Definition box_count (r : pyval) : Z := Z.of_nat (length (objs_of r)).

(** The keys a record adds and the outcome of its [update]. *)
Definition record_delta (r : pyval) : delta := objs_delta (objs_of r).

(** The three annotation records of the scenario. *)
Definition record_1 : pyval :=
  PList [PDict {[ "tooth_id" := PStr "11";
                  "conditions" := PDict {[ "caries" := PBool true ]} ]}].
Definition record_2 : pyval :=
  PList [PDict {[ "tooth_id" := PStr "11";
                  "conditions" := PDict {[ "caries" := PBool false ]} ]};
         PDict {[ "tooth_id" := PStr "12"; "conditions" := PDict ∅ ]}].
Definition record_3 : pyval :=
  PList [PDict {[ "image_status" := PStr "poor" ]}].

(** Two [summary] calls in a row. *)
Definition summary_twice (self : loc) : M (gmap string sval * gmap string sval) :=
  let* a := summary self in
  let* b := summary self in
  ret (a, b).

(** The key an object adds to the tooth-ID counter: the string form of its
    [tooth_id], when it has one and its value is not [None]. *)
Definition tooth_key (o : pyval) : option hkey :=
  match o with
  | PDict d =>
      match d !! "tooth_id" with
      | Some tid => if is_none tid then None else Some (KStr (py_str repr_ext tid))
      | None => None
      end
  | _ => None
  end.

(** The same for an object that merely carries the field. *)
Definition tooth_field (o : pyval) : option hkey :=
  match o with
  | PDict d => (λ tid, KStr (py_str repr_ext tid)) <$> d !! "tooth_id"
  | _ => None
  end.

(** The number of objects of a record that add the key [k]. *)
Definition occurrences (key_of : pyval → option hkey) (k : hkey) (ann : pyval) : Z :=
  Z.of_nat (length (filter (λ o, key_of o = Some k) (objs_of ann))).

(** The claim that every object carrying the field is counted. *)
Definition tooth_id_counted_when_present : Prop :=
  ∀ w self s v ann,
    is_stats (heap w) self s v →
    (update self ann w).1 = Ret tt →
    ∃ v', read_stats (heap (update self ann w).2) self = Some v' ∧
          ∀ k, count (v_tooth v') k
               = count (v_tooth v) k + occurrences tooth_field k ann.

(** The result of [describe]'s three assignments. *)
Definition with_counters (s : DatasetStats) (out : gmap string sval)
    : gmap string sval :=
  <["tooth_ids" := SRef (tooth_ids s)]>
    (<["conditions" := SRef (conditions s)]>
       (<["image_status" := SRef (image_status s)]> out)).

(** The directories a scan of [dir] goes through, with their entries. *)
Definition visited (root : node) (dir : path) (recursive : bool)
    : list (path * list (string * node)) :=
  match lookup_node root dir with
  | Some (Dir es) => if recursive then dirs_under (Dir es) dir else [(dir, es)]
  | _ => []
  end.

(** The names of the entries met by the scan. *)
Definition entry_names (root : node) (dir : path) (recursive : bool) : list string :=
  visited root dir recursive ≫= λ d, fst <$> d.2.

(** A name with one of the allowed extensions. *)
Definition has_image_ext (name : string) : bool :=
  existsb (λ ext, path_match ("*" +:+ ext) name) IMG_EXTS.

(** The names under [images/] with an allowed extension: those of the
    entries the searches return, files and directories alike, since [glob]
    and [rglob] match on the name alone. *)
Definition image_names (root : node) (recursive : bool) : list string :=
  filter (λ name, Is_true (has_image_ext name)) (entry_names root ["images"] recursive).




(** The paths all the scans of [__init__] return. *)
Definition scan_result (root : node) (dir : path) (recursive : bool)
    (exts : list string) : list path :=
  exts ≫= λ ext, (if recursive then rglob else glob) path_match root dir ("*" +:+ ext).

(** [sorted({p.stem for p in found})] *)
Definition ids_of (found : list path) : list string :=
  merge_sort str_le
    (elements (list_to_set ((λ p, stem (path_name p)) <$> found) : gset string)).

(** The events that open an image. *)
Definition is_image_open (ev : event) : bool :=
  match ev with EvImageOpen _ => true | _ => false end.

(** The images opened so far. *)
Definition images_opened (tr : list event) : list event :=
  List.filter is_image_open tr.




(** The position in [ids] that the index [idx] denotes, counting from the
    end when it is negative. *)
Definition position (ds : InReDDDataset) (idx : Z) : option nat :=
  let n := Z.of_nat (length (ids ds)) in
  let i := if idx <? 0 then idx + n else idx in
  if (i <? 0) || (n <=? i) then None else Some (Z.to_nat i).

(** [annotations/<id>.json] *)
Definition ann_path (ds : InReDDDataset) (img_id : string) : path :=
  ann_dir ds ++ [img_id +:+ ".json"].

(** The world after the events [evs]. *)
Definition logged (evs : list event) (w : world) : world :=
  {| heap := heap w; fs := fs w; trace := trace w ++ evs |}.

(** The searches of [__getitem__] for the image of [img_id], one per
    extension of [exts]. *)
Definition image_scans (ds : InReDDDataset) (img_id : string) (exts : list string)
    : list event :=
  (λ ext, EvScan (img_dir ds) (img_id +:+ ext) true) <$> exts.

(** The accesses the search for the image of [img_id] may make. *)
Definition search_event (ds : InReDDDataset) (img_id : string) (exts : list string)
    (ev : event) : Prop :=
  match ev with
  | EvScan dir pat recursive =>
      dir = img_dir ds ∧ recursive = true ∧ ∃ ext, ext ∈ exts ∧ pat = img_id +:+ ext
  | EvRead _ => False
  | EvExists _ | EvImageOpen _ => True
  end.

(** The accesses [__getitem__] may make on the index [ds]: it tests and reads
    annotations of identifiers of the index only, and its searches go through
    the whole of [images/]. *)
Definition getitem_event (ds : InReDDDataset) (ev : event) : Prop :=
  match ev with
  | EvScan dir pat recursive =>
      dir = img_dir ds ∧ recursive = true ∧
      ∃ img_id ext, img_id ∈ ids ds ∧ ext ∈ IMG_EXTS ∧ pat = img_id +:+ ext
  | EvRead p => ∃ img_id, img_id ∈ ids ds ∧ p = ann_path ds img_id
  | EvExists _ | EvImageOpen _ => True
  end.

(** The events that read a file. *)
Definition is_read (ev : event) : bool :=
  match ev with EvRead _ => true | _ => false end.

(** The searches of [__init__], one per extension. *)
Definition init_scans (recursive : bool) : list event :=
  (λ ext, EvScan ["images"] ("*" +:+ ext) recursive) <$> IMG_EXTS.

(** The annotation of [img_id] as an index without image loading and
    without hook returns it, and the accesses made for it. *)
Definition annotation_of (ds : InReDDDataset) (root : node) (img_id : string)
    : outcome pyval :=
  match lookup_node root (ann_path ds img_id) with
  | None => Raise FileNotFoundError
  | Some (Dir _) => Raise IsADirectoryError
  | Some (File content) =>
      match json_load content with
      | Some target => Ret target
      | None => Raise JSONDecodeError
      end
  end.

Definition annotation_access (ds : InReDDDataset) (root : node) (img_id : string)
    : list event :=
  match lookup_node root (ann_path ds img_id) with
  | Some (File _) => [EvExists (ann_path ds img_id); EvRead (ann_path ds img_id)]
  | _ => [EvExists (ann_path ds img_id)]
  end.

(** The loop of [describe] over the identifiers [l]: the records passed to
    [update], the accesses made and how the loop ends.  It stops at the first
    annotation that cannot be obtained and at the first [update] that
    raises. *)
Fixpoint pass (ds : InReDDDataset) (root : node) (l : list string)
    : list pyval * list event * outcome unit :=
  match l with
  | [] => ([], [], Ret tt)
  | img_id :: rest =>
      match annotation_of ds root img_id with
      | Raise e => ([], annotation_access ds root img_id, Raise e)
      | Ret r =>
          match d_res (record_delta r) with
          | Raise e => ([r], annotation_access ds root img_id, Raise e)
          | Ret _ =>
              let '(rs, evs, res) := pass ds root rest in
              (r :: rs, annotation_access ds root img_id ++ evs, res)
          end
      end
  end.

(** The index [describe] works on. *)
Definition described (l : list string) : InReDDDataset :=
  {| img_dir := ["images"]; ann_dir := ["annotations"]; ids := l;
     load_images := false; transforms := None |}.

(** The identifiers [describe] finds in a tree. *)
Definition found_ids (root : node) : list string :=
  ids_of (scan_result root ["images"] true IMG_EXTS).

(** An object [update] can count: a [dict] whose [conditions], if any, is a
    [dict] and whose [image_status], if true, is hashable. *)
Definition countable_obj (o : pyval) : bool :=
  match o with
  | PDict d =>
      match default (PDict ∅) (d !! "conditions") with
      | PDict _ =>
          let st := default PNone (d !! "image_status") in
          negb (truthy st) || bool_decide (is_Some (hash_key st))
      | _ => false
      end
  | _ => false
  end.

Definition countable_record (ann : pyval) : bool :=
  forallb countable_obj (objs_of ann).

(** The objects the loop of [update] gets to: all of them when none makes
    it raise, and otherwise those up to and including the first that does. *)
Fixpoint reached (objs : list pyval) : list pyval :=
  match objs with
  | [] => []
  | o :: rest => if countable_obj o then o :: reached rest else [o]
  end.

(** An access to the annotation of one of the identifiers [l]. *)
Definition annotation_event (ds : InReDDDataset) (l : list string) (ev : event)
    : Prop :=
  ∃ img_id, img_id ∈ l ∧
            (ev = EvExists (ann_path ds img_id) ∨ ev = EvRead (ann_path ds img_id)).

(** The key an object adds to the image-status counter: that of its
    [image_status], when it has one and its value is true. *)
Definition status_key (o : pyval) : option hkey :=
  match o with
  | PDict d =>
      let st := default PNone (d !! "image_status") in
      if truthy st then hash_key st else None
  | _ => None
  end.

(** An object among whose [conditions] the name [c] has a true value. *)
Definition has_condition (c : string) (o : pyval) : bool :=
  match o with
  | PDict d =>
      match d !! "conditions" with
      | Some (PDict cd) => from_option truthy false (cd !! c)
      | _ => false
      end
  | _ => false
  end.

(** The sizes of the records [rs], as [update] appends them. *)
Definition sizes (rs : list pyval) : list Z := box_count <$> rs.

(** The objects of an accumulator: the instance, its three counters and its
    history. *)
Definition owned (self : loc) (s : DatasetStats) : list loc :=
  [self; image_status s; conditions s; tooth_ids s; boxes_per_image s].

(** The object at [l] is [o], and [self] is an instance that refers to the
    counters and the history of [s]. *)
Definition kept (self : loc) (s : DatasetStats) (l : loc) (o : option obj)
    (w : world) : Prop :=
  (∃ s', heap w !! self = Some (OStats s') ∧ same_refs s s') ∧ heap w !! l = o.

(** A computation that maintains [Q], whatever its outcome. *)
Definition preserves {A} (Q : world → Prop) (m : M A) : Prop :=
  ∀ w, Q w → Q (m w).2.

(** Two new accumulators. *)
Definition new_pair : M (loc * loc) :=
  let* a1 := new_stats in
  let* a2 := new_stats in
  ret (a1, a2).

(** ** Lemmas on the store *)

Lemma set_heap_id w : set_heap (heap w) w = w.
Proof. by destruct w. Qed.

Lemma bind_ret {A B} (m : M A) (k : A → M B) w a w' :
  m w = (Ret a, w') → bind m k w = k a w'.
Proof. unfold bind. by intros ->. Qed.

Lemma bind_raise {A B} (m : M A) (k : A → M B) w e w' :
  m w = (Raise e, w') → bind m k w = (Raise e, w').
Proof. unfold bind. by intros ->. Qed.

Lemma load_stats_ok w self s :
  heap w !! self = Some (OStats s) → load_stats self w = (Ret s, w).
Proof. intros H. unfold load_stats, bind, load. by rewrite H. Qed.

Lemma attr_ok {A} (f : DatasetStats → A) w self s :
  heap w !! self = Some (OStats s) → attr f self w = (Ret (f s), w).
Proof. intros H. unfold attr. by rewrite (bind_ret _ _ _ _ _ (load_stats_ok _ _ _ H)). Qed.

Lemma load_counter_ok w l c :
  heap w !! l = Some (OCounter c) → load_counter l w = (Ret c, w).
Proof. intros H. unfold load_counter, bind, load. by rewrite H. Qed.

Lemma load_list_ok w l xs :
  heap w !! l = Some (OList xs) → load_list l w = (Ret xs, w).
Proof. intros H. unfold load_list, bind, load. by rewrite H. Qed.

Lemma incr_all_app ks ks' c : incr_all (ks ++ ks') c = incr_all ks' (incr_all ks c).
Proof. apply foldl_app. Qed.

(** [counter.update] on hashable elements adds one per element. *)
Lemma counter_update_ok elems ks : ∀ w l c,
  heap w !! l = Some (OCounter c) →
  Forall2 (λ v k, hash_key v = Some k) elems ks →
  counter_update l elems w
  = (Ret tt, set_heap (<[l := OCounter (incr_all ks c)]> (heap w)) w).
Proof.
  unfold counter_update.
  intros w l c Hl Hk.
  rewrite (bind_ret _ _ _ _ _ (load_counter_ok _ _ _ Hl)).
  revert w c Hl.
  induction Hk as [|v k elems ks Hv _ IH]; intros w c Hl; simpl.
  - unfold ret. by rewrite insert_id, set_heap_id.
  - rewrite Hv. unfold bind at 1. unfold bind at 1.
    rewrite (load_counter_ok _ _ _ Hl). unfold store.
    rewrite (IH _ (counter_incr k c)); [|by simpl; rewrite lookup_insert_eq].
    simpl. by rewrite insert_insert_eq.
Qed.

(** ** The accumulator through its references *)

Ltac stats_lookup :=
  match goal with
  | |- <[?l := _]> _ !! ?l = _ => by rewrite lookup_insert_eq
  | |- <[_ := _]> _ !! _ = _ => rewrite lookup_insert_ne; [done|congruence]
  | _ => done
  end.

Lemma is_stats_set_tooth h self s v c :
  is_stats h self s v →
  is_stats (<[tooth_ids s := OCounter c]> h) self s
    {| v_status := v_status v; v_conditions := v_conditions v; v_tooth := c;
       v_total := v_total v; v_history := v_history v |}.
Proof. intros []. split; simpl; stats_lookup. Qed.

Lemma is_stats_set_conditions h self s v c :
  is_stats h self s v →
  is_stats (<[conditions s := OCounter c]> h) self s
    {| v_status := v_status v; v_conditions := c; v_tooth := v_tooth v;
       v_total := v_total v; v_history := v_history v |}.
Proof. intros []. split; simpl; stats_lookup. Qed.

Lemma is_stats_set_status h self s v c :
  is_stats h self s v →
  is_stats (<[image_status s := OCounter c]> h) self s
    {| v_status := c; v_conditions := v_conditions v; v_tooth := v_tooth v;
       v_total := v_total v; v_history := v_history v |}.
Proof. intros []. split; simpl; stats_lookup. Qed.

Lemma is_stats_set_history h self s v l :
  is_stats h self s v →
  is_stats (<[boxes_per_image s := OList l]> h) self s
    {| v_status := v_status v; v_conditions := v_conditions v;
       v_tooth := v_tooth v; v_total := v_total v; v_history := l |}.
Proof. intros []. split; simpl; stats_lookup. Qed.

Lemma is_stats_set_total h self s v n :
  is_stats h self s v →
  is_stats (<[self := OStats
               {| image_status := image_status s; conditions := conditions s;
                  tooth_ids := tooth_ids s; n_boxes_total := n;
                  boxes_per_image := boxes_per_image s |}]> h) self
    {| image_status := image_status s; conditions := conditions s;
       tooth_ids := tooth_ids s; n_boxes_total := n;
       boxes_per_image := boxes_per_image s |}
    {| v_status := v_status v; v_conditions := v_conditions v;
       v_tooth := v_tooth v; v_total := n; v_history := v_history v |}.
Proof. intros []. split; simpl; stats_lookup. Qed.

Lemma is_stats_read h self s v : is_stats h self s v → read_stats h self = Some v.
Proof.
  intros []. unfold read_stats.
  rewrite st_self0, st_status0, st_conditions0, st_tooth0, st_boxes0, st_total0.
  by destruct v.
Qed.

Lemma is_stats_agree h self s v s' v' :
  is_stats h self s v → is_stats h self s' v' → s = s' ∧ v = v'.
Proof.
  intros H1 H2. pose proof (st_self _ _ _ _ H1). pose proof (st_self _ _ _ _ H2).
  assert (s = s') as <- by congruence. split; [done|].
  apply is_stats_read in H1, H2. congruence.
Qed.

Lemma add_keys_nil r v : add_keys (mkDelta [] [] [] r) v = v.
Proof. by destruct v. Qed.

Lemma cond_keys_hashable items :
  Forall2 (λ v k, hash_key v = Some k)
    (omap (λ cv : string * pyval,
             if truthy cv.2 then Some (PStr cv.1) else None) items)
    (omap (λ cv : string * pyval,
             if truthy cv.2 then Some (KStr cv.1) else None) items).
Proof.
  induction items as [|[c v] items IH]; simpl; [constructor|].
  destruct (truthy v); simpl; [constructor|]; done.
Qed.

Ltac mstep H := erewrite bind_ret by (exact H).
Ltac mpure := erewrite bind_ret by reflexivity.

(** One object: the outcome and the keys counted are those of [obj_delta],
    and nothing but the counters changes. *)
Lemma update_obj_spec w self s v o :
  is_stats (heap w) self s v →
  ∃ w', update_obj self o w = (d_res (obj_delta o), w') ∧
        is_stats (heap w') self s (add_keys (obj_delta o) v) ∧
        fs w' = fs w ∧ trace w' = trace w.
Proof.
  intros Hst. unfold update_obj, obj_delta.
  destruct o as [| | | | |?|d];
    try (exists w; rewrite add_keys_nil; split; [reflexivity|split; [assumption|done]]).
  mpure.
  (* the tooth counter *)
  assert (∃ w1,
    (if is_none (default PNone (d !! "tooth_id")) then ret tt
     else let* c := attr tooth_ids self in
          counter_update c [PStr (py_str repr_ext (default PNone (d !! "tooth_id")))]) w
    = (Ret tt, w1) ∧
    is_stats (heap w1) self s
      {| v_status := v_status v; v_conditions := v_conditions v;
         v_tooth := incr_all (tooth_of d) (v_tooth v);
         v_total := v_total v; v_history := v_history v |} ∧
    fs w1 = fs w ∧ trace w1 = trace w) as (w1 & Hrun1 & Hst1 & Hfs1 & Htr1).
  { unfold tooth_of. destruct (is_none _).
    - exists w. destruct v. split; [done|]. split; [assumption|done].
    - eexists. mstep (attr_ok tooth_ids _ _ _ (st_self _ _ _ _ Hst)).
      rewrite (counter_update_ok _ [KStr _] _ _ _ (st_tooth _ _ _ _ Hst)) by (by repeat constructor).
      split; [done|]. split; [|done]. by apply is_stats_set_tooth. }
  mstep Hrun1.
  mstep (attr_ok conditions _ _ _ (st_self _ _ _ _ Hst1)).
  mpure. simpl obj_delta.
  destruct (default (PDict ∅) (d !! "conditions")) as [| | | | |?|cd] eqn:Hc;
    try (exists w1; split; [reflexivity|split; [assumption|done]]).
  mpure.
  mstep (counter_update_ok _ _ _ _ _ (st_conditions _ _ _ _ Hst1) (cond_keys_hashable (map_to_list cd))).
  set (w2 := set_heap _ w1).
  assert (is_stats (heap w2) self s
    {| v_status := v_status v;
       v_conditions := incr_all (cond_of cd) (v_conditions v);
       v_tooth := incr_all (tooth_of d) (v_tooth v);
       v_total := v_total v; v_history := v_history v |}) as Hst2
    by apply (is_stats_set_conditions _ _ _ _ _ Hst1).
  assert (fs w2 = fs w ∧ trace w2 = trace w) as [Hfs2 Htr2] by done.
  clearbody w2.
  mpure.
  destruct (truthy _) eqn:Htruthy.
  - mstep (attr_ok image_status _ _ _ (st_self _ _ _ _ Hst2)).
    destruct (hash_key _) as [k|] eqn:Hk.
    + rewrite (counter_update_ok _ [k] _ _ _ (st_status _ _ _ _ Hst2))
        by (by repeat constructor).
      eexists. split; [done|]. split; [|done].
      apply (is_stats_set_status _ _ _ _ (incr_all [k] (v_status v))) in Hst2.
      apply Hst2.
    + exists w2. split; [|split; [assumption|done]].
      unfold counter_update.
      mstep (load_counter_ok _ _ _ (st_status _ _ _ _ Hst2)).
      simpl. rewrite Hk. done.
  - exists w2. split; [done|]. split; [assumption|done].
Qed.

Lemma add_keys_app d d' r v :
  add_keys (mkDelta (d_tooth d ++ d_tooth d') (d_cond d ++ d_cond d')
                    (d_status d ++ d_status d') r) v
  = add_keys d' (add_keys d v).
Proof. unfold add_keys. simpl. by rewrite !incr_all_app. Qed.

Lemma for_each_update_obj self s objs : ∀ w v,
  is_stats (heap w) self s v →
  ∃ w', for_each objs (update_obj self) w = (d_res (objs_delta objs), w') ∧
        is_stats (heap w') self s (add_keys (objs_delta objs) v) ∧
        fs w' = fs w ∧ trace w' = trace w.
Proof.
  induction objs as [|o objs IH]; intros w v Hst; simpl.
  - exists w. rewrite add_keys_nil. split; [done|]. split; [assumption|done].
  - destruct (update_obj_spec w self s v o Hst) as (w1 & Hrun & Hst1 & Hfs & Htr).
    destruct (d_res (obj_delta o)) as [[]|e] eqn:Hres.
    + mstep Hrun.
      destruct (IH w1 _ Hst1) as (w2 & Hrun2 & Hst2 & Hfs2 & Htr2).
      exists w2. rewrite add_keys_app. split; [done|]. split; [assumption|].
      split; congruence.
    + exists w1. rewrite (bind_raise _ _ _ _ _ Hrun). by rewrite Hres.
Qed.

(** [update]: the outcome is that of the objects processed, the contents
    are those of [update_view], and the instance keeps its references. *)
Lemma update_spec w self s v ann :
  is_stats (heap w) self s v →
  ∃ w' s', update self ann w = (d_res (objs_delta (objs_of ann)), w') ∧
           is_stats (heap w') self s' (update_view ann v) ∧
           same_refs s s' ∧ fs w' = fs w ∧ trace w' = trace w.
Proof.
  intros Hst. unfold update, update_view. fold (objs_of ann).
  set (n := Z.of_nat (length (objs_of ann))).
  mstep (attr_ok boxes_per_image _ _ _ (st_self _ _ _ _ Hst)).
  unfold list_append.
  erewrite bind_ret; cycle 1.
  { mstep (load_list_ok _ _ _ (st_boxes _ _ _ _ Hst)). reflexivity. }
  set (w1 := set_heap _ w).
  assert (is_stats (heap w1) self s
    {| v_status := v_status v; v_conditions := v_conditions v;
       v_tooth := v_tooth v; v_total := v_total v;
       v_history := v_history v ++ [n] |}) as Hst1
    by apply (is_stats_set_history _ _ _ _ _ Hst).
  assert (fs w1 = fs w ∧ trace w1 = trace w) as [Hfs1 Htr1] by done.
  clearbody w1.
  mstep (load_stats_ok _ _ _ (st_self _ _ _ _ Hst1)).
  erewrite bind_ret by reflexivity.
  set (w2 := set_heap _ w1).
  set (s' := {| image_status := image_status s; conditions := conditions s;
                tooth_ids := tooth_ids s; n_boxes_total := n_boxes_total s + n;
                boxes_per_image := boxes_per_image s |}).
  assert (is_stats (heap w2) self s'
    {| v_status := v_status v; v_conditions := v_conditions v;
       v_tooth := v_tooth v; v_total := v_total v + n;
       v_history := v_history v ++ [n] |}) as Hst2.
  { rewrite <- (st_total _ _ _ _ Hst).
    apply (is_stats_set_total _ _ _ _ (n_boxes_total s + n) Hst1). }
  assert (fs w2 = fs w ∧ trace w2 = trace w) as [Hfs2 Htr2] by done.
  clearbody w2.
  destruct (for_each_update_obj self s' (objs_of ann) w2 _ Hst2)
    as (w3 & Hrun & Hst3 & Hfs3 & Htr3).
  exists w3, s'. split; [done|]. split; [assumption|].
  split; [done|]. split; congruence.
Qed.

Lemma alloc_spec o w :
  ∃ l, alloc o w = (Ret l, set_heap (<[l := o]> (heap w)) w) ∧ heap w !! l = None.
Proof.
  exists (fresh (dom (heap w))). split; [done|].
  apply not_elem_of_dom, is_fresh.
Qed.

(** A new accumulator is empty, and the objects already in the store are
    left as they are. *)
Lemma new_stats_spec w :
  ∃ acc w' s, new_stats w = (Ret acc, w') ∧
              is_stats (heap w') acc s empty_view ∧
              fs w' = fs w ∧ trace w' = trace w ∧
              (∀ l o, heap w !! l = Some o → heap w' !! l = Some o).
Proof.
  unfold new_stats.
  destruct (alloc_spec (OCounter ∅) w) as (l1 & E1 & F1). mstep E1.
  set (w1 := set_heap _ w) in *.
  destruct (alloc_spec (OCounter ∅) w1) as (l2 & E2 & F2). mstep E2.
  set (w2 := set_heap _ w1) in *.
  destruct (alloc_spec (OCounter ∅) w2) as (l3 & E3 & F3). mstep E3.
  set (w3 := set_heap _ w2) in *.
  destruct (alloc_spec (OList []) w3) as (l4 & E4 & F4). mstep E4.
  set (w4 := set_heap _ w3) in *.
  match goal with |- context [alloc ?o w4] =>
    destruct (alloc_spec o w4) as (l5 & E5 & F5); rewrite E5 end.
  subst w4 w3 w2 w1. simpl in *.
  rewrite !lookup_insert_None in *. destruct_and!. clear E1 E2 E3 E4 E5.
  exists l5. eexists.
  exists {| image_status := l1; conditions := l2; tooth_ids := l3;
            n_boxes_total := 0; boxes_per_image := l4 |}.
  split; [done|]. simpl.
  split; [|split; [done|split; [done|]]].
  - split; cbn [image_status conditions tooth_ids boxes_per_image n_boxes_total];
      try done;
      repeat first [rewrite lookup_insert_eq | rewrite lookup_insert_ne by congruence];
      done.
  - intros l o Hl.
    repeat (rewrite lookup_insert_ne by congruence). done.
Qed.

Lemma same_refs_refl s : same_refs s s.
Proof. by repeat split. Qed.

Lemma same_refs_trans s1 s2 s3 : same_refs s1 s2 → same_refs s2 s3 → same_refs s1 s3.
Proof. unfold same_refs. intros (?&?&?&?) (?&?&?&?). repeat split; congruence. Qed.

Lemma apply_updates_spec self rs : ∀ w s v,
  is_stats (heap w) self s v →
  ∃ s', is_stats (heap (apply_updates self rs w)) self s' (views_after rs v) ∧
        same_refs s s' ∧
        fs (apply_updates self rs w) = fs w ∧
        trace (apply_updates self rs w) = trace w.
Proof.
  induction rs as [|r rs IH]; intros w s v Hst; simpl.
  - exists s. split; [assumption|]. split; [apply same_refs_refl|done].
  - destruct (update_spec w self s v r Hst) as (w1 & s1 & Hrun & Hst1 & Hrefs & Hfs & Htr).
    rewrite Hrun. simpl.
    destruct (IH w1 s1 _ Hst1) as (s2 & Hst2 & Hrefs2 & Hfs2 & Htr2).
    exists s2. split; [assumption|].
    split; [by eapply same_refs_trans|]. split; congruence.
Qed.

Lemma fed_spec rs w :
  ∃ acc s, (fed rs w).1 = Ret acc ∧
           is_stats (heap (fed rs w).2) acc s (views_after rs empty_view) ∧
           fs (fed rs w).2 = fs w ∧ trace (fed rs w).2 = trace w.
Proof.
  unfold fed.
  destruct (new_stats_spec w) as (acc & w' & s & -> & Hst & Hfs & Htr & _).
  destruct (apply_updates_spec acc rs w' s _ Hst) as (s' & Hst' & _ & Hfs' & Htr').
  exists acc, s'. simpl. split; [done|]. split; [assumption|]. split; congruence.
Qed.

(** ** [summary] *)

Lemma history_ok w self s v :
  is_stats (heap w) self s v → history self w = (Ret (v_history v), w).
Proof.
  intros Hst. unfold history.
  mstep (attr_ok boxes_per_image _ _ _ (st_self _ _ _ _ Hst)).
  apply (load_list_ok _ _ _ (st_boxes _ _ _ _ Hst)).
Qed.

Lemma lift_bind {A B} (o : outcome A) (k : A → M B) w :
  bind (lift o) k w = match o with Ret a => k a w | Raise e => (Raise e, w) end.
Proof. by destruct o. Qed.

(** [summary] computes [summary_of] on the stored history and total, and
    returns the store as it found it. *)
Lemma summary_spec w self s v :
  is_stats (heap w) self s v →
  summary self w = (summary_of (v_history v) (v_total v), w).
Proof.
  intros Hst. unfold summary, summary_of.
  mstep (history_ok _ _ _ _ Hst).
  mstep (attr_ok n_boxes_total _ _ _ (st_self _ _ _ _ Hst)).
  rewrite (st_total _ _ _ _ Hst).
  mstep (history_ok _ _ _ _ Hst). rewrite lift_bind.
  destruct (Statistics.mean _); [|done]. rewrite lift_bind.
  destruct (py_round _ _); [|done].
  mstep (history_ok _ _ _ _ Hst). rewrite lift_bind.
  destruct (Statistics.median _); [|done].
  mstep (history_ok _ _ _ _ Hst). rewrite lift_bind.
  destruct (Statistics.py_min _); [|done].
  mstep (history_ok _ _ _ _ Hst). rewrite lift_bind.
  destruct (Statistics.py_max _); [|done].
  done.
Qed.

(** Reading never changes the world, whatever the store holds. *)
Lemma load_frame l w : (load l w).2 = w.
Proof. unfold load. by destruct (heap w !! l). Qed.

Lemma bind_frame {A B} (m : M A) (k : A → M B) w :
  (m w).2 = w → (∀ a, (k a w).2 = w) → (bind m k w).2 = w.
Proof.
  unfold bind. intros Hm Hk. destruct (m w) as [[a|e] w'] eqn:E; simpl in *; subst; auto.
Qed.

Lemma load_stats_frame self w : (load_stats self w).2 = w.
Proof.
  unfold load_stats. apply bind_frame; [apply load_frame|]. by intros [].
Qed.

Lemma attr_frame {A} (f : DatasetStats → A) self w : (attr f self w).2 = w.
Proof. unfold attr. apply bind_frame; [apply load_stats_frame|done]. Qed.

Lemma load_list_frame l w : (load_list l w).2 = w.
Proof. unfold load_list. apply bind_frame; [apply load_frame|]. by intros []. Qed.

Lemma history_frame self w : (history self w).2 = w.
Proof.
  unfold history. apply bind_frame; [apply attr_frame|]. intros; apply load_list_frame.
Qed.

Lemma lift_frame {A} (o : outcome A) w : (lift o w).2 = w.
Proof. done. Qed.

Lemma summary_frame self w : (summary self w).2 = w.
Proof.
  unfold summary.
  repeat first
    [ apply bind_frame;
      [first [apply history_frame | apply attr_frame | apply lift_frame]|intros ?]
    | done ].
Qed.

(** ** Integer division and rounding stay within the doubles *)

Lemma round_half_even_bounds n d :
  0 ≤ n → 0 < d → 0 ≤ round_half_even n d ≤ n / d + 1.
Proof.
  intros Hn Hd. unfold round_half_even.
  assert (0 ≤ n / d) by (apply Z.div_pos; lia).
  destruct (2 * (n mod d) ?= d); [destruct (Z.even _)|..]; lia.
Qed.

Lemma scaled_bounds p q e :
  0 < p → 0 < q → Z.log2 p - Z.log2 q - 53 ≤ e →
  0 ≤ (scaled p q e).1 ∧ 0 < (scaled p q e).2 ∧
  (scaled p q e).1 < 2 ^ 54 * (scaled p q e).2.
Proof.
  intros Hp Hq He.
  pose proof (Z.log2_spec p Hp) as [_ Hp2].
  pose proof (Z.log2_spec q Hq) as [Hq1 _].
  pose proof (Z.log2_nonneg p). pose proof (Z.log2_nonneg q).
  unfold scaled. destruct (0 <=? e) eqn:E; simpl.
  - apply Z.leb_le in E.
    assert (0 < 2 ^ e) by (apply Z.pow_pos_nonneg; lia).
    split; [lia|]. split; [lia|].
    assert (2 ^ Z.succ (Z.log2 p) ≤ 2 ^ (54 + Z.log2 q + e))
      by (apply Z.pow_le_mono_r; lia).
    rewrite !Z.pow_add_r in * by lia. nia.
  - apply Z.leb_gt in E.
    assert (0 < 2 ^ (- e)) by (apply Z.pow_pos_nonneg; lia).
    split; [lia|]. split; [lia|].
    assert (2 ^ (Z.succ (Z.log2 p) + - e) ≤ 2 ^ (54 + Z.log2 q))
      by (apply Z.pow_le_mono_r; lia).
    rewrite !Z.pow_add_r in * by lia. nia.
Qed.

Lemma b64_of_ratio_moderate p q b :
  0 < p → 0 < q → Z.log2 p - 51 ≤ b → -1073 ≤ b ≤ 970 →
  ∃ f, b64_of_ratio p q = Some f ∧ moderate b f.
Proof.
  intros Hp Hq Hl Hb. unfold b64_of_ratio.
  pose proof (Z.log2_nonneg q).
  set (e1 := Z.log2 p - Z.log2 q - 52).
  destruct (scaled p q e1) as [n1 d1].
  set (e2 := if 2 ^ 52 * d1 <=? n1 then e1 else e1 - 1).
  assert (e1 - 1 ≤ e2 ≤ e1) by (subst e2; destruct (_ <=? _); lia).
  set (e := Z.max e2 (-1074)).
  assert (Z.log2 p - Z.log2 q - 53 ≤ e) as He by lia.
  pose proof (scaled_bounds p q e Hp Hq He) as (Hn & Hd & Hnd).
  destruct (scaled p q e) as [n d]. simpl in *.
  pose proof (round_half_even_bounds n d Hn Hd) as [Hm0 Hm1].
  assert (n / d < 2 ^ 54) by (apply Z.div_lt_upper_bound; lia).
  set (m := round_half_even n d) in *.
  assert (e + 1 ≤ b) by lia.
  destruct (m =? 2 ^ 53) eqn:Em.
  - assert ((e + 1 <=? 971) = true) as Hle by lia.
    simpl. rewrite Hle. eexists. split; [done|]. simpl. split; [done|lia].
  - destruct m as [|mp|mp]; [by eexists| |lia].
    assert ((e <=? 971) = true) as -> by lia.
    eexists. split; [done|]. simpl. lia.
Qed.

Lemma moderate_with_sign b s f : moderate b f → moderate b (with_sign s f).
Proof. by destruct f. Qed.

Lemma int_truediv_moderate a b :
  0 ≤ a → 0 < b → a < 2 ^ 900 →
  ∃ f, int_truediv a b = Ret f ∧ moderate 900 f.
Proof.
  intros Ha Hb Hlt. unfold int_truediv.
  assert ((b =? 0) = false) as -> by lia.
  destruct (a =? 0) eqn:E; [by eexists|].
  apply Z.eqb_neq in E.
  destruct (b64_of_ratio_moderate (Z.abs a) (Z.abs b) 900) as (f & -> & Hf);
    [lia|lia| |lia|].
  { assert (Z.log2 (Z.abs a) < 900); [|lia]. apply Z.log2_lt_pow2; lia. }
  eexists. split; [done|]. by apply moderate_with_sign.
Qed.

Lemma float_round_moderate f :
  moderate 900 f → ∃ r, float_round f 2 = Ret r.
Proof.
  destruct f as [| | |s m e]; simpl; try (by eexists); try done.
  intros [Hm He].
  set (k := if 0 <=? e then _ else _).
  assert (0 ≤ k < 2 ^ 1000) as Hk.
  { subst k. destruct (0 <=? e) eqn:E.
    - apply Z.leb_le in E.
      assert (0 < 2 ^ e ≤ 2 ^ 900)
        by (split; [apply Z.pow_pos_nonneg|apply Z.pow_le_mono_r]; lia).
      assert (2 ^ 54 * 10 ^ 2 * 2 ^ 900 < 2 ^ 1000) by (vm_compute; reflexivity).
      split; [lia|]. nia.
    - apply Z.leb_gt in E.
      assert (0 < 2 ^ (- e)) by (apply Z.pow_pos_nonneg; lia).
      pose proof (round_half_even_bounds (Z.pos m * 10 ^ 2) (2 ^ (- e))) as [? ?];
        [lia..|].
      assert (Z.pos m * 10 ^ 2 / 2 ^ (- e) ≤ Z.pos m * 10 ^ 2)
        by (apply Z.div_le_upper_bound; nia).
      assert (2 ^ 54 * 10 ^ 2 + 1 < 2 ^ 1000) by (vm_compute; reflexivity).
      split; [lia|]. lia. }
  destruct (k =? 0) eqn:E; [by eexists|].
  apply Z.eqb_neq in E.
  destruct (b64_of_ratio_moderate k (10 ^ 2) 970) as (f & -> & Hf);
    [lia|done| |lia|].
  { assert (Z.log2 k < 1000); [|lia]. apply Z.log2_lt_pow2; lia. }
  by eexists.
Qed.

(** ** [summary] returns on every non-empty history of realistic sizes *)

Lemma sum_bounds hist :
  Forall (λ x, 0 ≤ x ≤ ssize_max) hist →
  0 ≤ Statistics.sum hist ≤ Z.of_nat (length hist) * ssize_max.
Proof.
  unfold ssize_max. induction 1 as [|x l Hx _ IH]; simpl; [done|].
  change (foldr Z.add 0 l) with (Statistics.sum l). lia.
Qed.

Lemma mean_ret hist :
  hist ≠ [] → sizes_ok hist →
  ∃ m r, Statistics.mean hist = Ret m ∧ py_round m 2 = Ret r.
Proof.
  intros Hne [Hlen Hall]. unfold Statistics.mean.
  pose proof (sum_bounds hist Hall) as Hsum.
  set (n := Z.of_nat (length hist)) in *.
  set (total := Statistics.sum hist) in *.
  assert (1 ≤ n) by (subst n; destruct hist; simpl in *; [done|lia]).
  assert ((n <? 1) = false) as -> by lia.
  pose proof (Z.gcd_nonneg total n).
  pose proof (Z.gcd_divide_l total n) as [a Ha].
  pose proof (Z.gcd_divide_r total n) as [b Hb].
  set (g := Z.gcd total n) in *.
  assert (0 < g) by (destruct (decide (g = 0)); [|lia]; nia).
  assert (total / g = a) as -> by (rewrite Ha at 1; by apply Z.div_mul; lia).
  assert (n / g = b) as -> by (rewrite Hb at 1; by apply Z.div_mul; lia).
  assert (0 ≤ a ≤ total) by nia.
  assert (0 < b) by nia.
  destruct (b =? 1); [by do 2 eexists|].
  assert (n * ssize_max < 2 ^ 900).
  { assert (ssize_max * ssize_max < 2 ^ 900) by (vm_compute; reflexivity).
    unfold ssize_max in *. nia. }
  destruct (int_truediv_moderate a b) as (f & -> & Hf); [lia..|].
  destruct (float_round_moderate f Hf) as (r & Hr).
  do 2 eexists. split; [done|]. simpl. by rewrite Hr.
Qed.

Lemma sorted_perm hist : Statistics.sorted hist ≡ₚ hist.
Proof. apply merge_sort_Permutation. Qed.

Lemma median_ret hist :
  hist ≠ [] → sizes_ok hist → ∃ m, Statistics.median hist = Ret m.
Proof.
  intros Hne [Hlen Hall]. unfold Statistics.median.
  pose proof (sorted_perm hist) as Hperm.
  rewrite <- Hperm in Hall.
  assert (length (Statistics.sorted hist) ≠ 0%nat) as Hn.
  { rewrite Hperm. by destruct hist. }
  set (data := Statistics.sorted hist) in *.
  destruct (length data =? 0)%nat eqn:E0; [apply Nat.eqb_eq in E0; done|].
  pose proof (Nat.Div0.div_lt_upper_bound (length data) 2 (length data)).
  destruct (length data mod 2 =? 1)%nat eqn:E1.
  - destruct (lookup_lt_is_Some_2 data (length data / 2)) as [x ->]; [lia|].
    by eexists.
  - destruct (lookup_lt_is_Some_2 data (length data / 2)) as [y Hy]; [lia|].
    destruct (lookup_lt_is_Some_2 data (length data / 2 - 1)) as [x Hx]; [lia|].
    rewrite Hx, Hy.
    pose proof (Forall_lookup_1 _ _ _ _ Hall Hx) as Hbx.
    pose proof (Forall_lookup_1 _ _ _ _ Hall Hy) as Hby.
    simpl in Hbx, Hby.
    assert (ssize_max + ssize_max < 2 ^ 900) by (vm_compute; reflexivity).
    destruct (int_truediv_moderate (x + y) 2) as (f & -> & _); [lia..|].
    by eexists.
Qed.

Lemma summary_of_ret hist total :
  hist ≠ [] → sizes_ok hist → ∃ snap, summary_of hist total = Ret snap.
Proof.
  intros Hne Hok. unfold summary_of.
  destruct (mean_ret hist Hne Hok) as (m & r & -> & ->).
  destruct (median_ret hist Hne Hok) as (md & ->).
  destruct hist as [|x l]; [done|]. simpl. by eexists.
Qed.

(** ** The contents after a sequence of updates *)

Lemma views_after_cons r rs v :
  views_after (r :: rs) v = views_after rs (update_view r v).
Proof. done. Qed.

Lemma views_after_history rs : ∀ v,
  v_history (views_after rs v) = v_history v ++ (box_count <$> rs).
Proof.
  induction rs as [|r rs IH]; intros v; [by rewrite app_nil_r|].
  rewrite views_after_cons, IH. simpl. by rewrite <- app_assoc.
Qed.

Lemma views_after_total rs : ∀ v,
  v_total (views_after rs v) = v_total v + Statistics.sum (box_count <$> rs).
Proof.
  induction rs as [|r rs IH]; intros v; [simpl; lia|].
  rewrite views_after_cons, IH.
  change (v_total (update_view r v)) with (v_total v + box_count r).
  change (Statistics.sum (box_count <$> r :: rs))
    with (box_count r + Statistics.sum (box_count <$> rs)).
  lia.
Qed.

Lemma views_after_tooth rs : ∀ v,
  v_tooth (views_after rs v)
  = incr_all (rs ≫= λ r, d_tooth (record_delta r)) (v_tooth v).
Proof.
  induction rs as [|r rs IH]; intros v; [done|].
  rewrite views_after_cons, IH. simpl. by rewrite incr_all_app.
Qed.

Lemma views_after_conditions rs : ∀ v,
  v_conditions (views_after rs v)
  = incr_all (rs ≫= λ r, d_cond (record_delta r)) (v_conditions v).
Proof.
  induction rs as [|r rs IH]; intros v; [done|].
  rewrite views_after_cons, IH. simpl. by rewrite incr_all_app.
Qed.

Lemma views_after_status rs : ∀ v,
  v_status (views_after rs v)
  = incr_all (rs ≫= λ r, d_status (record_delta r)) (v_status v).
Proof.
  induction rs as [|r rs IH]; intros v; [done|].
  rewrite views_after_cons, IH. simpl. by rewrite incr_all_app.
Qed.

(** ** Order independence *)

Lemma counter_incr_comm k1 k2 c :
  counter_incr k1 (counter_incr k2 c) = counter_incr k2 (counter_incr k1 c).
Proof.
  unfold counter_incr. destruct (decide (k1 = k2)) as [->|Hne]; [done|].
  rewrite !lookup_insert_ne by done. by apply insert_insert_ne.
Qed.

Lemma incr_all_perm ks ks' : ks ≡ₚ ks' → ∀ c, incr_all ks c = incr_all ks' c.
Proof.
  induction 1 as [|k ks ks' _ IH|k1 k2 ks|ks1 ks2 ks3 _ IH1 _ IH2]; intros c; simpl.
  - done.
  - apply IH.
  - by rewrite counter_incr_comm.
  - by rewrite IH1.
Qed.

Lemma sum_perm l l' : l ≡ₚ l' → Statistics.sum l = Statistics.sum l'.
Proof.
  unfold Statistics.sum.
  induction 1; simpl; lia.
Qed.

Lemma mean_perm l l' : l ≡ₚ l' → Statistics.mean l = Statistics.mean l'.
Proof.
  intros H. unfold Statistics.mean.
  by rewrite (sum_perm _ _ H), (Permutation_length H).
Qed.

Lemma sorted_sorted l : Sorted Z.le (Statistics.sorted l).
Proof. apply (Sorted_merge_sort Z.le). Qed.

Lemma sorted_unique l l' : l ≡ₚ l' → Statistics.sorted l = Statistics.sorted l'.
Proof.
  intros H. apply (Sorted_unique Z.le); [apply sorted_sorted..|].
  by rewrite !sorted_perm.
Qed.

Lemma median_perm l l' : l ≡ₚ l' → Statistics.median l = Statistics.median l'.
Proof. intros H. unfold Statistics.median. by rewrite (sorted_unique _ _ H). Qed.

Lemma foldl_min_spec l : ∀ x,
  foldl Z.min x l ∈ x :: l ∧ Forall (Z.le (foldl Z.min x l)) (x :: l).
Proof.
  induction l as [|y l IH]; intros x; simpl.
  - split; [left|by repeat constructor].
  - destruct (IH (Z.min x y)) as [Hin Hall].
    apply Forall_cons in Hall as [Hxy Hall]. split.
    + apply elem_of_cons in Hin as [->|Hin]; [|by do 2 right].
      destruct (Z.min_spec x y) as [[_ ->]|[_ ->]]; [left|right; left].
    + repeat constructor; [lia..|done].
Qed.

Lemma foldl_max_spec l : ∀ x,
  foldl Z.max x l ∈ x :: l ∧ Forall (Z.ge (foldl Z.max x l)) (x :: l).
Proof.
  induction l as [|y l IH]; intros x; simpl.
  - split; [left|repeat constructor; lia].
  - destruct (IH (Z.max x y)) as [Hin Hall].
    apply Forall_cons in Hall as [Hxy Hall]. split.
    + apply elem_of_cons in Hin as [->|Hin]; [|by do 2 right].
      destruct (Z.max_spec x y) as [[_ ->]|[_ ->]]; [right; left|left].
    + repeat constructor; [lia..|done].
Qed.

Lemma py_min_perm l l' : l ≡ₚ l' → Statistics.py_min l = Statistics.py_min l'.
Proof.
  intros H. destruct l as [|x l], l' as [|x' l'];
    [done|by apply Permutation_nil_cons in H
    |by symmetry in H; apply Permutation_nil_cons in H|].
  simpl. f_equal.
  destruct (foldl_min_spec l x) as [Hin Hall], (foldl_min_spec l' x') as [Hin' Hall'].
  rewrite Forall_forall in Hall, Hall'.
  rewrite H in Hin. rewrite <- H in Hin'.
  apply Z.le_antisymm; auto.
Qed.

Lemma py_max_perm l l' : l ≡ₚ l' → Statistics.py_max l = Statistics.py_max l'.
Proof.
  intros H. destruct l as [|x l], l' as [|x' l'];
    [done|by apply Permutation_nil_cons in H
    |by symmetry in H; apply Permutation_nil_cons in H|].
  simpl. f_equal.
  destruct (foldl_max_spec l x) as [Hin Hall], (foldl_max_spec l' x') as [Hin' Hall'].
  rewrite Forall_forall in Hall, Hall'.
  rewrite H in Hin. rewrite <- H in Hin'.
  apply Z.le_antisymm; apply Z.ge_le; auto.
Qed.

Lemma summary_of_perm l l' total :
  l ≡ₚ l' → summary_of l total = summary_of l' total.
Proof.
  intros H. unfold summary_of.
  by rewrite (mean_perm _ _ H), (median_perm _ _ H), (py_min_perm _ _ H),
    (py_max_perm _ _ H), (Permutation_length H).
Qed.

Lemma realistic_sizes rs : realistic rs → sizes_ok (box_count <$> rs).
Proof.
  intros [Hlen Hall]. split; [by rewrite length_fmap|].
  apply Forall_fmap. eapply Forall_impl; [exact Hall|].
  intros r Hr. unfold box_count. simpl in *. lia.
Qed.

Lemma attach_counters_spec w self s v out :
  is_stats (heap w) self s v →
  attach_counters self out w = (Ret (with_counters s out), w).
Proof.
  intros Hst. unfold attach_counters.
  by rewrite !(bind_ret _ _ _ _ _ (attr_ok _ _ _ _ (st_self _ _ _ _ Hst))).
Qed.

(** ** The scenario of three records *)


(** C6.  [summary] on an accumulator that has received no [update] raises
    (the [StatisticsError] of [statistics.mean]); it returns no result and
    leaves the store as it is. *)
Theorem summary_without_update_raises (w : world) :
  ∃ acc w', new_stats w = (Ret acc, w') ∧
            summary acc w' = (Raise StatisticsError, w').
Proof.
  destruct (new_stats_spec w) as (acc & w' & s & Hnew & Hst & _).
  exists acc, w'. split; [done|].
  by rewrite (summary_spec _ _ _ _ Hst).
Qed.

(** C7.  [summary] leaves the store, hence the accumulator, exactly as it
    found it, and a second call right after it has the same outcome; after at
    least one [update] that outcome is a snapshot, so the two calls return
    equal snapshots. *)
Theorem summary_idempotent (w : world) (rs : list pyval) :
  ∃ acc,
    (fed rs w).1 = Ret acc ∧
    (summary acc (fed rs w).2).2 = (fed rs w).2 ∧
    summary acc (summary acc (fed rs w).2).2 = summary acc (fed rs w).2 ∧
    (rs ≠ [] → realistic rs →
     ∃ snap, summary acc (fed rs w).2 = (Ret snap, (fed rs w).2) ∧
             summary_twice acc (fed rs w).2 = (Ret (snap, snap), (fed rs w).2)).
Proof.
  destruct (fed_spec rs w) as (acc & s & Hacc & Hst & _).
  set (w' := (fed rs w).2) in *. clearbody w'.
  pose proof (summary_spec _ _ _ _ Hst) as Hsum.
  exists acc. split; [done|]. rewrite summary_frame.
  do 2 (split; [done|]).
  intros Hne Hreal.
  destruct (summary_of_ret (v_history (views_after rs empty_view))
              (v_total (views_after rs empty_view))) as (snap & Hsnap).
  { rewrite views_after_history. by destruct rs. }
  { rewrite views_after_history. by apply realistic_sizes. }
  rewrite Hsnap in Hsum.
  exists snap. split; [done|].
  unfold summary_twice. by rewrite !(bind_ret _ _ _ _ _ Hsum).
Qed.

(** C10.  After any sequence of [update] calls on a new accumulator the
    running total is the sum of the history and the history has one entry
    per call; so a snapshot returned by [summary] has the sum as [boxes] and
    the number of calls as [images], and one is returned whenever there was
    a call. *)
Theorem total_is_sum_of_history (w : world) (rs : list pyval) :
  ∃ acc v,
    (fed rs w).1 = Ret acc ∧
    read_stats (heap (fed rs w).2) acc = Some v ∧
    v_total v = Statistics.sum (v_history v) ∧
    length (v_history v) = length rs ∧
    (∀ snap, (summary acc (fed rs w).2).1 = Ret snap →
       snap !! "boxes" = Some (SNum (NInt (Statistics.sum (v_history v)))) ∧
       snap !! "images" = Some (SNum (NInt (Z.of_nat (length rs))))) ∧
    (rs ≠ [] → realistic rs → is_ret (summary acc (fed rs w).2).1 = true).
Proof.
  destruct (fed_spec rs w) as (acc & s & Hacc & Hst & _).
  set (w' := (fed rs w).2) in *. clearbody w'.
  exists acc, (views_after rs empty_view).
  split; [done|]. split; [by eapply is_stats_read|].
  rewrite (summary_spec _ _ _ _ Hst).
  rewrite views_after_history, views_after_total. simpl.
  split; [done|]. split; [by rewrite length_fmap|]. split.
  - intros snap. unfold summary_of.
    destruct (Statistics.mean _); [|done].
    destruct (py_round _ _); [|done].
    destruct (Statistics.median _); [|done].
    destruct (Statistics.py_min _); [|done].
    destruct (Statistics.py_max _); [|done].
    intros [= <-]. rewrite length_fmap. unfold summary_dict.
    split; by simplify_map_eq.
  - intros Hne Hreal.
    match goal with |- context [summary_of ?h ?t] =>
      destruct (summary_of_ret h t) as (snap & ->) end;
      [by destruct rs|by apply realistic_sizes|done].
Qed.

Lemma views_after_perm rs1 rs2 :
  rs1 ≡ₚ rs2 →
  let v1 := views_after rs1 empty_view in
  let v2 := views_after rs2 empty_view in
  v_status v1 = v_status v2 ∧ v_conditions v1 = v_conditions v2 ∧
  v_tooth v1 = v_tooth v2 ∧ v_total v1 = v_total v2 ∧
  v_history v1 ≡ₚ v_history v2.
Proof.
  intros H. cbv zeta.
  rewrite !views_after_status, !views_after_conditions, !views_after_tooth,
    !views_after_total, !views_after_history.
  split; [apply incr_all_perm; by rewrite H|].
  split; [apply incr_all_perm; by rewrite H|].
  split; [apply incr_all_perm; by rewrite H|].
  split; [f_equal; apply sum_perm; by rewrite H|].
  simpl. by rewrite H.
Qed.

(** C8.  Feeding the same records in two orders gives the same three
    counters and the same running total, histories that are permutations
    of each other, and the same [summary] (hence the same images, boxes,
    mean, median, minimum and maximum), which is a snapshot as soon as
    there is one record. *)
Theorem update_order_independent (w : world) (rs1 rs2 : list pyval) :
  rs1 ≡ₚ rs2 →
  ∃ acc v1 v2,
    (fed rs1 w).1 = Ret acc ∧ (fed rs2 w).1 = Ret acc ∧
    read_stats (heap (fed rs1 w).2) acc = Some v1 ∧
    read_stats (heap (fed rs2 w).2) acc = Some v2 ∧
    v_status v1 = v_status v2 ∧
    v_conditions v1 = v_conditions v2 ∧
    v_tooth v1 = v_tooth v2 ∧
    v_total v1 = v_total v2 ∧
    v_history v1 ≡ₚ v_history v2 ∧
    (summary acc (fed rs1 w).2).1 = (summary acc (fed rs2 w).2).1 ∧
    (rs1 ≠ [] → realistic rs1 → is_ret (summary acc (fed rs1 w).2).1 = true).
Proof.
  intros H.
  destruct (fed_spec rs1 w) as (acc & s1 & Hacc1 & Hst1 & _).
  destruct (fed_spec rs2 w) as (acc' & s2 & Hacc2 & Hst2 & _).
  assert (acc' = acc) as ->.
  { unfold fed in Hacc1, Hacc2.
    destruct (new_stats w) as [[a|e] w0]; simpl in *; congruence. }
  destruct (views_after_perm rs1 rs2 H) as (Hs & Hc & Ht & Htot & Hh).
  exists acc, (views_after rs1 empty_view), (views_after rs2 empty_view).
  do 2 (split; [done|]).
  split; [by eapply is_stats_read|]. split; [by eapply is_stats_read|].
  do 5 (split; [done|]).
  rewrite (summary_spec _ _ _ _ Hst1), (summary_spec _ _ _ _ Hst2). simpl.
  split.
  - rewrite Htot. by apply summary_of_perm.
  - intros Hne Hreal.
    match goal with |- context [summary_of ?h ?t] =>
      destruct (summary_of_ret h t) as (snap & ->) end; [| |done].
    + rewrite views_after_history. by destruct rs1.
    + rewrite views_after_history. by apply realistic_sizes.
Qed.

(** ** Tooth identifiers *)

Lemma count_incr k' c k :
  count (counter_incr k' c) k = count c k + (if decide (k' = k) then 1 else 0).
Proof.
  unfold count, counter_incr. rewrite lookup_insert.
  case_decide; simplify_eq/=; [done|lia].
Qed.

Lemma count_incr_all ks : ∀ c k,
  count (incr_all ks c) k = count c k + Z.of_nat (length (filter (λ k', k' = k) ks)).
Proof.
  induction ks as [|k' ks IH]; intros c k; simpl; [lia|].
  unfold incr_all in *. simpl. rewrite IH, count_incr.
  rewrite filter_cons. case_decide; simpl; lia.
Qed.

Lemma tooth_of_key o :
  d_tooth (obj_delta o) = option_list (tooth_key o).
Proof.
  destruct o as [| | | | |?|d]; try done. simpl.
  assert (tooth_of d = option_list (tooth_key (PDict d))) as Ht.
  { unfold tooth_of, tooth_key. destruct (d !! "tooth_id") as [tid|]; simpl; [|done].
    by destruct (is_none tid). }
  destruct (default (PDict ∅) (d !! "conditions")); try done.
  destruct (truthy _); [|done]. by destruct (hash_key _).
Qed.

Lemma objs_delta_tooth objs :
  d_res (objs_delta objs) = Ret tt →
  d_tooth (objs_delta objs) = omap tooth_key objs.
Proof.
  induction objs as [|o objs IH]; simpl; [done|].
  pose proof (tooth_of_key o) as Ho.
  destruct (d_res (obj_delta o)) as [[]|e] eqn:Hres; simpl.
  - intros Hrest. rewrite Ho, (IH Hrest). by destruct (tooth_key o).
  - by rewrite Hres.
Qed.

Lemma filter_omap_length {A B} `{EqDecision B} (f : A → option B) (b : B) l :
  length (filter (λ y, y = b) (omap f l)) = length (filter (λ x, f x = Some b) l).
Proof.
  induction l as [|x l IH]; simpl; [done|].
  rewrite filter_cons. destruct (f x) as [y|] eqn:E; simpl.
  - rewrite filter_cons.
    destruct (decide (y = b)), (decide (Some y = Some b)); simplify_eq/=;
      try done; by rewrite IH.
  - destruct (decide (None = Some b)); [done|apply IH].
Qed.

Lemma obj_delta_countable o :
  d_res (obj_delta o) = Ret tt ↔ countable_obj o = true.
Proof.
  destruct o as [| | | | | |d]; try done. cbn.
  destruct (default (PDict ∅) (d !! "conditions")); try done. cbn.
  destruct (truthy _); [|done]. cbn.
  destruct (hash_key _); cbn; split; try done.
Qed.

Lemma objs_delta_tooth_reached objs :
  d_tooth (objs_delta objs) = omap tooth_key (reached objs).
Proof.
  induction objs as [|o objs IH]; [done|]. cbn [objs_delta reached].
  pose proof (tooth_of_key o) as Ho.
  pose proof (obj_delta_countable o) as [Hc1 Hc2].
  destruct (d_res (obj_delta o)) as [[]|e] eqn:Hres.
  - rewrite (Hc1 eq_refl). cbn. rewrite Ho, IH. by destruct (tooth_key o).
  - destruct (countable_obj o); [by specialize (Hc2 eq_refl)|].
    cbn. rewrite Ho. by destruct (tooth_key o).
Qed.

Lemma reached_all objs :
  forallb countable_obj objs = true → reached objs = objs.
Proof.
  induction objs as [|o objs IH]; [done|]. cbn.
  destruct (countable_obj o); [|done]. cbn. intros H. by rewrite IH.
Qed.

Lemma objs_delta_returns objs :
  d_res (objs_delta objs) = Ret tt → forallb countable_obj objs = true.
Proof.
  induction objs as [|o objs IH]; [done|]. cbn.
  pose proof (obj_delta_countable o) as [Hc1 _].
  destruct (d_res (obj_delta o)) as [[]|e] eqn:Hres; cbn.
  - intros H. by rewrite (Hc1 eq_refl), (IH H).
  - by rewrite Hres.
Qed.

(** C9 (amended).  Whatever the outcome of [update], the tooth-ID counter
    of each key has grown by the number of objects the loop got to whose
    [tooth_id] is present, is not [None] and has that string form: a falsy
    value such as [0] or the empty string counts, an absent field or a [None]
    value does not.  The loop gets to every object of the record when
    [update] returns, and otherwise to those up to and including the first
    it raises on. *)
Theorem tooth_id_counted_unless_none (w : world) (self : loc) (s : DatasetStats)
    (v : view) (ann : pyval) :
  is_stats (heap w) self s v →
  ∃ v', read_stats (heap (update self ann w).2) self = Some v' ∧
        (∀ k, count (v_tooth v') k
              = count (v_tooth v) k
                + Z.of_nat (length (filter (λ o, tooth_key o = Some k)
                                      (reached (objs_of ann))))) ∧
        ((update self ann w).1 = Ret tt →
         reached (objs_of ann) = objs_of ann ∧
         ∀ k, count (v_tooth v') k
              = count (v_tooth v) k + occurrences tooth_key k ann).
Proof.
  intros Hst.
  destruct (update_spec w self s v ann Hst) as (w' & s' & Hrun & Hst' & _).
  rewrite Hrun. cbn [fst snd].
  exists (update_view ann v). split; [by eapply is_stats_read|].
  assert (Hcount : ∀ k, count (v_tooth (update_view ann v)) k
            = count (v_tooth v) k
              + Z.of_nat (length (filter (λ o, tooth_key o = Some k)
                                    (reached (objs_of ann))))).
  { intros k. unfold update_view. cbn.
    by rewrite count_incr_all, objs_delta_tooth_reached, filter_omap_length. }
  split; [exact Hcount|]. intros Hret.
  assert (Hall : reached (objs_of ann) = objs_of ann)
    by (by apply reached_all, objs_delta_returns).
  split; [exact Hall|]. intros k. rewrite Hcount, Hall. done.
Qed.

(** An object whose [tooth_id] is [None] carries the field and is not
    counted. *)
Lemma tooth_id_none_not_counted : ¬ tooth_id_counted_when_present.
Proof.
  intros Hclaim.
  destruct (new_stats_spec (mkWorld ∅ (Dir []) [])) as (acc & w & s & _ & Hst & _).
  set (ann := PDict {[ "tooth_id" := PNone ]}).
  destruct (update_spec w acc s _ ann Hst) as (w' & s' & Hrun & Hst' & _).
  destruct (Hclaim w acc s _ ann Hst) as (v' & Hv' & Hcount).
  { by rewrite Hrun. }
  rewrite Hrun in Hv'. simpl in Hv'.
  rewrite (is_stats_read _ _ _ _ Hst') in Hv'. injection Hv' as <-.
  specialize (Hcount (KStr "None")). vm_compute in Hcount. done.
Qed.

(** ** What the snapshot holds *)

Lemma summary_of_parts hist total :
  hist ≠ [] → sizes_ok hist →
  ∃ m mean median lo hi,
    Statistics.mean hist = Ret m ∧ py_round m 2 = Ret mean ∧
    Statistics.median hist = Ret median ∧
    Statistics.py_min hist = Ret lo ∧ Statistics.py_max hist = Ret hi ∧
    summary_of hist total
    = Ret (summary_dict (Z.of_nat (length hist)) total mean median lo hi).
Proof.
  intros Hne Hok. unfold summary_of.
  destruct (mean_ret hist Hne Hok) as (m & r & Hm & Hr).
  destruct (median_ret hist Hne Hok) as (md & Hmd).
  rewrite Hm, Hr, Hmd.
  destruct hist as [|x l]; [done|].
  exists m, r, md, (foldl Z.min x l), (foldl Z.max x l).
  repeat split; done.
Qed.

(** C2 (amended).  After at least one [update], the snapshot [summary]
    returns holds the image count, the box count and the rounded mean, the
    median, the minimum and the maximum of the history, and nothing else:
    it has no counter.  The counters are added by [describe], as references
    to the accumulator's own three counter objects, not as copies. *)
Theorem summary_holds_statistics_only (w : world) (rs : list pyval) :
  rs ≠ [] → realistic rs →
  ∃ acc s v snap m mean median lo hi,
    (fed rs w).1 = Ret acc ∧
    is_stats (heap (fed rs w).2) acc s v ∧
    summary acc (fed rs w).2 = (Ret snap, (fed rs w).2) ∧
    snap = summary_dict (Z.of_nat (length rs)) (v_total v) mean median lo hi ∧
    Statistics.mean (v_history v) = Ret m ∧ py_round m 2 = Ret mean ∧
    Statistics.median (v_history v) = Ret median ∧
    Statistics.py_min (v_history v) = Ret lo ∧
    Statistics.py_max (v_history v) = Ret hi ∧
    dom snap = {[ "images"; "boxes"; "boxes_per_image" ]} ∧
    attach_counters acc snap (fed rs w).2
    = (Ret (<["tooth_ids" := SRef (tooth_ids s)]>
              (<["conditions" := SRef (conditions s)]>
                 (<["image_status" := SRef (image_status s)]> snap))),
       (fed rs w).2).
Proof.
  intros Hne Hreal.
  destruct (fed_spec rs w) as (acc & s & Hacc & Hst & _).
  set (w' := (fed rs w).2) in *. clearbody w'.
  set (v := views_after rs empty_view) in *.
  destruct (summary_of_parts (v_history v) (v_total v))
    as (m & mean & median & lo & hi & Hm & Hr & Hmed & Hlo & Hhi & Hsum).
  { subst v. rewrite views_after_history. by destruct rs. }
  { subst v. rewrite views_after_history. by apply realistic_sizes. }
  assert (length (v_history v) = length rs) as Hlen
    by (subst v; rewrite views_after_history; simpl; by rewrite length_fmap).
  rewrite Hlen in Hsum.
  eexists acc, s, v, _, m, mean, median, lo, hi.
  split; [done|]. split; [assumption|].
  split; [by rewrite (summary_spec _ _ _ _ Hst), Hsum|].
  do 6 (split; [done|]).
  split.
  - unfold summary_dict. rewrite !dom_insert_L, dom_singleton_L. set_solver.
  - apply (attach_counters_spec _ _ _ _ _ Hst).
Qed.

(** ** The order on identifiers *)

Lemma string_compare_OT a : ∀ b, String.compare a b = String_as_OT.compare a b.
Proof.
  induction a as [|c a IH]; intros [|c' b]; simpl; done.
Qed.

Lemma str_lt_trans a b c : str_lt a b → str_lt b c → str_lt a c.
Proof.
  unfold str_lt, String.ltb.
  rewrite (string_compare_OT a b), (string_compare_OT b c), (string_compare_OT a c).
  pose proof (StrictOrder_Transitive (R := String_as_OT.lt)) as Htr.
  intros H1 H2. specialize (Htr a b c). unfold String_as_OT.lt in Htr.
  destruct (String_as_OT.compare a b) eqn:E1; try done.
  destruct (String_as_OT.compare b c) eqn:E2; try done.
  by rewrite Htr.
Qed.

Lemma str_le_lt_eq a b : str_le a b ↔ str_lt a b ∨ a = b.
Proof.
  unfold str_le, str_lt, String.leb, String.ltb. split.
  - destruct (String.compare a b) eqn:E; try done; [|by left].
    right. by apply String.compare_eq_iff.
  - intros [H| ->].
    + by destruct (String.compare a b).
    + assert (String.compare b b = Eq) as ->; [|done].
      pose proof (String.compare_antisym b b) as H.
      by destruct (String.compare b b).
Qed.

#[local] Instance str_le_trans : Transitive str_le.
Proof.
  intros a b c. rewrite !str_le_lt_eq.
  intros [H1| ->] [H2| ->]; eauto using str_lt_trans.
Qed.

#[local] Instance str_le_total : Total str_le.
Proof. intros a b. apply String.leb_total. Qed.

#[local] Instance str_le_antisym : AntiSymm (=) str_le.
Proof. intros a b. apply String.leb_antisym. Qed.


(** ** The identifiers of the index *)

Lemma globber_visited root dir (recursive : bool) pat :
  (if recursive then rglob else glob) path_match root dir pat
  = visited root dir recursive ≫= select path_match pat.
Proof.
  unfold rglob, glob, visited.
  destruct recursive, (lookup_node root dir) as [[|es]|]; simpl; try done.
  by rewrite app_nil_r.
Qed.

Lemma elem_of_select pat d p :
  p ∈ select path_match pat d ↔
  ∃ e, e ∈ d.2 ∧ path_match pat e.1 = true ∧ p = d.1 ++ [e.1].
Proof.
  unfold select. rewrite list_elem_of_omap. split.
  - intros (e & He & Hp). exists e.
    destruct (path_match pat e.1); [|done]. by injection Hp as <-.
  - intros (e & He & Hm & ->). exists e. by rewrite Hm.
Qed.

Lemma path_name_snoc d name : path_name (d ++ [name]) = name.
Proof. unfold path_name. by rewrite last_snoc. Qed.

Lemma scan_spec dir recursive exts : ∀ w,
  ∃ w', scan dir recursive exts w
        = (Ret (scan_result (fs w) dir recursive exts), w') ∧
        heap w' = heap w ∧ fs w' = fs w ∧
        trace w' = trace w ++ ((λ ext, EvScan dir ("*" +:+ ext) recursive) <$> exts).
Proof.
  induction exts as [|ext exts IH]; intros w; simpl.
  - exists w. by rewrite app_nil_r.
  - destruct (IH (log (EvScan dir ("*" +:+ ext) recursive) w))
      as (w' & Hrun & Hh & Hf & Ht).
    exists w'. unfold bind, emit, read_fs in *. rewrite Hrun. simpl in *.
    split; [done|]. split; [done|]. split; [done|].
    by rewrite Ht, <- app_assoc.
Qed.

(** The stems collected by the scans are those of the names with an allowed
    extension. *)
Lemma scanned_stems root recursive :
  (list_to_set ((λ p, stem (path_name p)) <$> scan_result root ["images"] recursive IMG_EXTS)
     : gset string)
  = list_to_set (stem <$> image_names root recursive).
Proof.
  apply set_eq. intros x. rewrite !elem_of_list_to_set, !list_elem_of_fmap.
  unfold scan_result, image_names, entry_names, has_image_ext. split.
  - intros (p & -> & Hp).
    apply list_elem_of_bind in Hp as (ext & Hp & Hext).
    rewrite globber_visited in Hp.
    apply list_elem_of_bind in Hp as (d & Hp & Hd).
    apply elem_of_select in Hp as (e & He & Hm & ->).
    exists e.1. rewrite path_name_snoc. split; [done|].
    apply list_elem_of_filter. split.
    + apply Is_true_true, existsb_exists. exists ext.
      split; [by apply list_elem_of_In|done].
    + apply list_elem_of_bind. exists d. split; [|done].
      apply list_elem_of_fmap. by exists e.
  - intros (name & -> & Hname).
    apply list_elem_of_filter in Hname as [Hext Hname].
    apply Is_true_true, existsb_exists in Hext as (ext & Hext & Hm).
    apply list_elem_of_bind in Hname as (d & Hname & Hd).
    apply list_elem_of_fmap in Hname as (e & -> & He).
    exists (d.1 ++ [e.1]). rewrite path_name_snoc. split; [done|].
    apply list_elem_of_bind. exists ext. split; [|by apply list_elem_of_In].
    rewrite globber_visited. apply list_elem_of_bind. exists d. split; [|done].
    apply elem_of_select. by exists e.
Qed.

Lemma ids_of_perm found :
  ids_of found
  ≡ₚ elements (list_to_set ((λ p, stem (path_name p)) <$> found) : gset string).
Proof. apply merge_sort_Permutation. Qed.






(** ** Image loading while iterating over the annotations *)

Lemma images_opened_app tr tr' :
  images_opened (tr ++ tr') = images_opened tr ++ images_opened tr'.
Proof. apply List.filter_app. Qed.







(** ** The report formatter *)

Lemma string_length_app a b :
  String.length (a +:+ b) = (String.length a + String.length b)%nat.
Proof. induction a as [|c a IH]; simpl; [done|]. by rewrite IH. Qed.

Lemma string_length_replicate n c :
  String.length (string_of_list_ascii (replicate n c)) = n.
Proof. induction n as [|n IH]; simpl; [done|]. by rewrite IH. Qed.

Lemma rjust_length s width :
  String.length (rjust s width) = (width `max` String.length s)%nat.
Proof. unfold rjust. rewrite string_length_app, string_length_replicate. lia. Qed.

Lemma insert_by_count_perm x l : insert_by_count x l ≡ₚ x :: l.
Proof.
  induction l as [|y l IH]; simpl; [done|].
  destruct (x.2 <? y.2); [|done]. by rewrite IH, Permutation_swap.
Qed.

Lemma sorted_by_count_perm cnt : sorted_by_count cnt ≡ₚ cnt.
Proof.
  induction cnt as [|x cnt IH]; simpl; [done|].
  by rewrite insert_by_count_perm, IH.
Qed.

Lemma insert_by_count_sorted x l :
  StronglySorted (λ a b : hkey * Z, b.2 ≤ a.2) l →
  StronglySorted (λ a b : hkey * Z, b.2 ≤ a.2) (insert_by_count x l).
Proof.
  induction 1 as [|y l Hs IH Hy]; simpl; [repeat constructor|].
  destruct (x.2 <? y.2) eqn:E.
  - apply Z.ltb_lt in E. constructor; [done|].
    rewrite insert_by_count_perm. constructor; [lia|done].
  - apply Z.ltb_ge in E. constructor; [by constructor|].
    constructor; [done|]. eapply Forall_impl; [exact Hy|]. simpl. lia.
Qed.

Lemma sorted_by_count_sorted cnt :
  StronglySorted (λ a b : hkey * Z, b.2 ≤ a.2) (sorted_by_count cnt).
Proof.
  induction cnt as [|x cnt IH]; simpl; [constructor|].
  by apply insert_by_count_sorted.
Qed.

Lemma sorted_by_count_stable cnt :
  Sorted (λ a b : hkey * Z, b.2 ≤ a.2) cnt → sorted_by_count cnt = cnt.
Proof.
  induction 1 as [|x l Hs IH Hx]; simpl; [done|].
  rewrite IH. destruct Hx as [|y l Hxy]; simpl; [done|].
  by assert ((x.2 <? y.2) = false) as -> by lia.
Qed.

Lemma insert_by_count_filter c x l :
  filter (λ kv : hkey * Z, kv.2 = c) (insert_by_count x l)
  = filter (λ kv : hkey * Z, kv.2 = c) (x :: l).
Proof.
  unfold items. induction l as [|y l IH]; [done|]. cbn [insert_by_count].
  destruct (x.2 <? y.2) eqn:E; [|done]. apply Z.ltb_lt in E.
  rewrite !filter_cons, IH, filter_cons.
  repeat case_decide; try done; lia.
Qed.

Lemma sorted_by_count_filter c cnt :
  filter (λ kv : hkey * Z, kv.2 = c) (sorted_by_count cnt)
  = filter (λ kv : hkey * Z, kv.2 = c) cnt.
Proof.
  unfold items. induction cnt as [|x cnt IH]; [done|].
  change (sorted_by_count (x :: cnt)) with (insert_by_count x (sorted_by_count cnt)).
  pose proof (insert_by_count_filter c x (sorted_by_count cnt)) as Hx.
  unfold items in Hx. by rewrite Hx, !filter_cons, IH.
Qed.

Lemma fmt_lines_length pad l : ∀ lines,
  fmt_lines pad l = Ret lines → length lines = length l.
Proof.
  induction l as [|kv l IH]; intros lines; cbn [fmt_lines].
  - by intros [= <-].
  - destruct (fmt_line pad kv); [|done].
    destruct (fmt_lines pad l) as [lines'|]; [|done].
    intros [= <-]. cbn. by rewrite (IH lines').
Qed.

(** X1.  The rows of [_fmt_counter] are those of [most_common(top)], one
    line each, in order.  [most_common()] lists every item once, by
    decreasing count, the items of each count in the order they have in the
    counter, which is that of their insertion (so a counter already in
    decreasing order is listed as it is); [most_common(n)] is its first [n]
    items, none for [n <= 0]. *)
Theorem most_common_sorted_stable (cnt : items) (n : Z) :
  most_common None cnt ≡ₚ cnt ∧
  StronglySorted (λ a b : hkey * Z, b.2 ≤ a.2) (most_common None cnt) ∧
  (∀ c, filter (λ kv : hkey * Z, kv.2 = c) (most_common None cnt)
        = filter (λ kv : hkey * Z, kv.2 = c) cnt) ∧
  (Sorted (λ a b : hkey * Z, b.2 ≤ a.2) cnt → most_common None cnt = cnt) ∧
  most_common (Some n) cnt = take (Z.to_nat n) (most_common None cnt) ∧
  length (most_common (Some n) cnt) = (Z.to_nat n `min` length cnt)%nat ∧
  (n ≤ 0 → most_common (Some n) cnt = []) ∧
  (∀ top text,
     _fmt_counter cnt top = Ret text →
     ∃ pad lines,
       fmt_lines pad (most_common top cnt) = Ret lines ∧
       text = String.concat newline lines ∧
       length lines = length (most_common top cnt)).
Proof.
  split; [apply sorted_by_count_perm|].
  split; [apply sorted_by_count_sorted|].
  split; [intros c; apply sorted_by_count_filter|].
  split; [apply sorted_by_count_stable|].
  split; [done|].
  split; [unfold most_common; by rewrite length_take, sorted_by_count_perm|].
  split.
  - intros Hn. unfold most_common. by assert (Z.to_nat n = 0%nat) as -> by lia.
  - intros top text. unfold _fmt_counter.
    destruct (max_key_len cnt None) as [pad|]; [|done].
    destruct (fmt_lines pad (most_common top cnt)) as [lines|] eqn:Hlines; [|done].
    intros [= <-]. exists pad, lines.
    split; [done|]. split; [done|]. exact (fmt_lines_length _ _ _ Hlines).
Qed.

Lemma max_key_len_strings cnt : ∀ best,
  Forall (λ kv : hkey * Z, ∃ s, kv.1 = KStr s) cnt →
  ∃ pad, max_key_len cnt best = Ret pad ∧
         (∀ b, best = Some b → b ≤ pad)%nat ∧
         (cnt = [] → pad = default 1%nat best) ∧
         Forall (λ kv : hkey * Z, ∀ s, kv.1 = KStr s → String.length s ≤ pad)%nat cnt.
Proof.
  induction cnt as [|[k v] cnt IH]; intros best Hall; simpl.
  - exists (default 1%nat best). split; [done|]. split; [|done].
    by intros b ->.
  - apply Forall_cons in Hall as [[s Hs] Hall]. simpl in Hs. subst k. simpl.
    set (best' := match best with
                  | Some b => if (b <? String.length s)%nat then String.length s else b
                  | None => String.length s
                  end).
    destruct (IH (Some best') Hall) as (pad & -> & Hb & _ & Hlens).
    specialize (Hb best' eq_refl).
    exists pad. split; [done|]. split; [|split; [done|]].
    + intros b ->. subst best'. destruct (Nat.ltb_spec b (String.length s)); lia.
    + constructor; [|done]. simpl. intros s' [= <-].
      subst best'. destruct best as [b|]; [|done].
      destruct (Nat.ltb_spec b (String.length s)); lia.
Qed.

Lemma max_key_len_non_string cnt : ∀ best,
  Exists (λ kv : hkey * Z, ∀ s, kv.1 ≠ KStr s) cnt →
  max_key_len cnt best = Raise TypeError.
Proof.
  induction cnt as [|[k v] cnt IH]; intros best Hex; [by apply Exists_nil in Hex|].
  apply Exists_cons in Hex as [Hk|Hex]; simpl in *.
  - destruct k; try done. by destruct (Hk s).
  - destruct (key_len k) as [n|e] eqn:E; [by apply IH|].
    by destruct k.
Qed.

(** X2.  On a counter one of whose keys is not a string, as the
    image-status counter is once a record gave a number for [image_status],
    [_fmt_counter] raises [TypeError], whatever [top]. *)
Theorem fmt_counter_non_string_key (cnt : items) (top : option Z) :
  Exists (λ kv : hkey * Z, ∀ s, kv.1 ≠ KStr s) cnt →
  _fmt_counter cnt top = Raise TypeError.
Proof.
  intros Hex. unfold _fmt_counter. by rewrite max_key_len_non_string.
Qed.

Lemma max_key_len_attained cnt : ∀ best pad,
  max_key_len cnt best = Ret pad →
  best = Some pad ∨ (best = None ∧ cnt = [] ∧ pad = 1%nat) ∨
  Exists (λ kv : hkey * Z, ∃ s, kv.1 = KStr s ∧ String.length s = pad) cnt.
Proof.
  induction cnt as [|[k v] cnt IH]; intros best pad; cbn [max_key_len].
  - intros [= <-]. destruct best as [b|]; [by left|right; by left].
  - destruct k as [|s| |]; try done. cbn [fst key_len].
    intros Hrun. destruct (IH _ _ Hrun) as [Hbest|[(? & _)|Hex]]; [|done|].
    + injection Hbest as Hbest. destruct best as [b|].
      * destruct (b <? String.length s)%nat.
        -- right; right. apply Exists_cons_hd. by exists s.
        -- left. by subst.
      * right; right. apply Exists_cons_hd. by exists s.
    + right; right. by apply Exists_cons_tl.
Qed.

Lemma fmt_lines_strings pad l :
  Forall (λ kv : hkey * Z, ∃ s, kv.1 = KStr s ∧ String.length s ≤ pad)%nat l →
  ∃ lines, fmt_lines pad l = Ret lines ∧
    Forall2 (λ (kv : hkey * Z) line,
               ∃ s, kv.1 = KStr s ∧
                    line = rjust s pad +:+ " : " +:+ pretty kv.2 ∧
                    String.length (rjust s pad) = pad) l lines.
Proof.
  induction 1 as [|[k v] l (s & Hk & Hlen) _ (lines & IH & Hlines)]; simpl.
  - by exists [].
  - simpl in Hk. subst k. unfold fmt_line. simpl. rewrite IH.
    eexists. split; [done|]. constructor; [|done].
    exists s. split; [done|]. split; [done|]. rewrite rjust_length. lia.
Qed.

(** X3.  On a counter whose keys are all strings [_fmt_counter] returns the
    lines of [most_common(top)] joined by newlines, one line
    [key : count] per item, every key right-justified to the same width, the
    length of the longest key of the whole counter (1 for an empty counter):
    no key is longer than that width and, unless the counter is empty, some
    key has exactly that length; the separators are in one column. *)
Theorem fmt_counter_aligned (cnt : items) (top : option Z) :
  Forall (λ kv : hkey * Z, ∃ s, kv.1 = KStr s) cnt →
  ∃ pad lines,
    _fmt_counter cnt top = Ret (String.concat newline lines) ∧
    (cnt = [] → pad = 1%nat) ∧
    (cnt ≠ [] →
     Exists (λ kv : hkey * Z, ∃ s, kv.1 = KStr s ∧ String.length s = pad) cnt) ∧
    Forall (λ kv : hkey * Z, ∀ s, kv.1 = KStr s → String.length s ≤ pad)%nat cnt ∧
    Forall2 (λ (kv : hkey * Z) line,
               ∃ s, kv.1 = KStr s ∧
                    line = rjust s pad +:+ " : " +:+ pretty kv.2 ∧
                    String.length (rjust s pad) = pad)
      (most_common top cnt) lines.
Proof.
  intros Hall. unfold _fmt_counter.
  destruct (max_key_len_strings cnt None Hall) as (pad & Hpad & _ & Hempty & Hlens).
  assert (Hmax : cnt ≠ [] →
            Exists (λ kv : hkey * Z, ∃ s, kv.1 = KStr s ∧ String.length s = pad) cnt).
  { intros Hne. by destruct (max_key_len_attained _ _ _ Hpad) as [?|[(_ & ? & _)|?]]. }
  rewrite Hpad.
  assert (Forall (λ kv : hkey * Z, ∃ s, kv.1 = KStr s ∧ String.length s ≤ pad)%nat
            (most_common top cnt)) as Hmc.
  { assert (∀ kv, kv ∈ most_common top cnt → kv ∈ cnt) as Hsub.
    { intros kv Hkv. rewrite <- (sorted_by_count_perm cnt).
      destruct top as [n|]; [|done]. simpl in Hkv.
      by eapply subseteq_take. }
    rewrite Forall_forall in *. intros kv Hkv.
    destruct (Hall kv (Hsub kv Hkv)) as (s & Hs).
    exists s. split; [done|]. by apply (Hlens kv (Hsub kv Hkv)). }
  destruct (fmt_lines_strings pad _ Hmc) as (lines & -> & Hlines).
  exists pad, lines. by repeat split.
Qed.

(** ** Access to one item *)

Lemma logged_log ev evs w : logged evs (log ev w) = logged (ev :: evs) w.
Proof. unfold logged, log. simpl. by rewrite <- app_assoc. Qed.

Lemma log_twice ev ev' w : log ev' (log ev w) = logged [ev; ev'] w.
Proof. unfold logged, log. simpl. by rewrite <- app_assoc. Qed.

Lemma logged_nil w : logged [] w = w.
Proof. destruct w. unfold logged. simpl. by rewrite app_nil_r. Qed.

(** X4.  An index outside [-len, len) raises [IndexError] before any file is
    looked at, and a negative index [-k] within the range denotes the item
    [len - k]. *)
Theorem getitem_index_bounds (ds : InReDDDataset) (idx : Z) (w : world) :
  (idx < - Z.of_nat (len ds) ∨ Z.of_nat (len ds) ≤ idx →
   getitem ds idx w = (Raise IndexError, w)) ∧
  (- Z.of_nat (len ds) ≤ idx < 0 →
   getitem ds idx w = getitem ds (idx + Z.of_nat (len ds)) w).
Proof.
  unfold getitem, len. set (n := Z.of_nat (length (ids ds))). split.
  - intros Hout.
    destruct (idx <? 0) eqn:E.
    + cbv beta iota zeta.
      assert ((idx + n <? 0) = true) as -> by lia. reflexivity.
    + assert ((idx <? 0) || (n <=? idx) = true) as -> by lia. reflexivity.
  - intros Hin.
    assert ((idx <? 0) = true) as H1 by lia.
    assert ((idx + n <? 0) = false) as H2 by lia.
    rewrite H1. cbv beta iota zeta. rewrite H2. cbv beta iota zeta.
    by rewrite H2.
Qed.

Lemma getitem_position ds idx w :
  getitem ds idx w
  = match position ds idx ≫= λ i, ids ds !! i with
    | None => (Raise IndexError, w)
    | Some img_id =>
        match lookup_node (fs w) (ann_path ds img_id) with
        | None => (Raise FileNotFoundError, logged [EvExists (ann_path ds img_id)] w)
        | Some (Dir _) =>
            (Raise IsADirectoryError, logged [EvExists (ann_path ds img_id)] w)
        | Some (File content) =>
            let w2 := logged [EvExists (ann_path ds img_id);
                              EvRead (ann_path ds img_id)] w in
            match json_load content with
            | None => (Raise JSONDecodeError, w2)
            | Some target =>
                (let* image :=
                   (if load_images ds
                    then let* im := find_image ds img_id IMG_EXTS in ret (Some im)
                    else ret None) in
                 match transforms ds with
                 | Some f => lift (f image target)
                 | None => ret (image, target)
                 end) w2
            end
        end
    end.
Proof.
  unfold getitem, position, ann_path. cbv zeta.
  destruct ((_ <? 0) || (_ <=? _)); [done|]. cbn [mbind option_bind].
  destruct (ids ds !! _) as [img_id|]; [|done].
  generalize (find_image ds img_id IMG_EXTS). intros fi.
  unfold bind at 1 2. unfold emit, read_fs. cbn [fs log].
  destruct (lookup_node _ _) as [[content|es]|]; try done.
  unfold bind at 1. unfold emit. rewrite log_twice.
  by destruct (json_load content).
Qed.
Lemma logged_logged evs evs' w : logged evs' (logged evs w) = logged (evs ++ evs') w.
Proof. unfold logged. simpl. by rewrite <- app_assoc. Qed.

Lemma position_of_nat ds i img_id :
  ids ds !! i = Some img_id → position ds (Z.of_nat i) = Some i.
Proof.
  intros Hi. apply lookup_lt_Some in Hi. unfold position. cbv zeta.
  assert ((Z.of_nat i <? 0) = false) as -> by lia.
  assert ((Z.of_nat i <? 0) || (Z.of_nat (length (ids ds)) <=? Z.of_nat i) = false)
    as -> by lia.
  by rewrite Nat2Z.id.
Qed.

Lemma getitem_at ds i img_id w :
  ids ds !! i = Some img_id →
  getitem ds (Z.of_nat i) w
  = match lookup_node (fs w) (ann_path ds img_id) with
    | None => (Raise FileNotFoundError, logged [EvExists (ann_path ds img_id)] w)
    | Some (Dir _) =>
        (Raise IsADirectoryError, logged [EvExists (ann_path ds img_id)] w)
    | Some (File content) =>
        let w2 := logged [EvExists (ann_path ds img_id);
                          EvRead (ann_path ds img_id)] w in
        match json_load content with
        | None => (Raise JSONDecodeError, w2)
        | Some target =>
            (let* image :=
               (if load_images ds
                then let* im := find_image ds img_id IMG_EXTS in ret (Some im)
                else ret None) in
             match transforms ds with
             | Some f => lift (f image target)
             | None => ret (image, target)
             end) w2
        end
    end.
Proof.
  intros Hi. rewrite getitem_position, (position_of_nat _ _ _ Hi).
  cbn [mbind option_bind]. by rewrite Hi.
Qed.

(** X5.  The annotation is dealt with first: when it is missing, or is not
    a JSON document, the access fails with the corresponding error after
    having touched the annotation only, whatever the image-loading flag and
    the hook. *)
Theorem getitem_annotation_first (ds : InReDDDataset) (i : nat) (img_id : string)
    (w : world) :
  ids ds !! i = Some img_id →
  (lookup_node (fs w) (ann_path ds img_id) = None →
   getitem ds (Z.of_nat i) w
   = (Raise FileNotFoundError, logged [EvExists (ann_path ds img_id)] w)) ∧
  (∀ content,
     lookup_node (fs w) (ann_path ds img_id) = Some (File content) →
     json_load content = None →
     getitem ds (Z.of_nat i) w
     = (Raise JSONDecodeError,
        logged [EvExists (ann_path ds img_id); EvRead (ann_path ds img_id)] w)).
Proof.
  intros Hi. rewrite (getitem_at _ _ _ _ Hi). split.
  - by intros ->.
  - intros content -> Hj. cbv zeta. by rewrite Hj.
Qed.

(** X6.  Without image loading the item is the pair of [None] and the
    decoded annotation, or what the hook makes of that pair, an exception of
    the hook included; the annotation is tested and read once and nothing else
    is accessed. *)
Theorem getitem_annotation_only (ds : InReDDDataset) (i : nat) (img_id : string)
    (content : string) (target : pyval) (w : world) :
  ids ds !! i = Some img_id →
  lookup_node (fs w) (ann_path ds img_id) = Some (File content) →
  json_load content = Some target →
  load_images ds = false →
  getitem ds (Z.of_nat i) w
  = (match transforms ds with
     | Some f => f None target
     | None => Ret (None, target)
     end,
     logged [EvExists (ann_path ds img_id); EvRead (ann_path ds img_id)] w).
Proof.
  intros Hi Hn Hj Hl. rewrite (getitem_at _ _ _ _ Hi), Hn. cbv zeta.
  rewrite Hj, Hl. unfold bind, ret, lift. by destruct (transforms ds).
Qed.

(** The loop over the extensions: those without a match are passed over. *)
Lemma find_image_skip ds img_id pre exts : ∀ w,
  Forall (λ ext, rglob path_match (fs w) (img_dir ds) (img_id +:+ ext) = []) pre →
  find_image ds img_id (pre ++ exts) w
  = find_image ds img_id exts (logged (image_scans ds img_id pre) w).
Proof.
  induction pre as [|ext pre IH]; intros w Hpre.
  - by rewrite logged_nil.
  - inversion Hpre as [|? ? Hext Hpre']; subst.
    cbn [app find_image]. unfold bind at 1. unfold emit.
    unfold bind at 1. unfold read_fs. cbn [fs log]. rewrite Hext. cbn [head].
    rewrite IH by exact Hpre'.
    unfold image_scans. cbn [fmap list_fmap]. by rewrite logged_log.
Qed.

Lemma find_image_none ds img_id w :
  find_image ds img_id [] w = (Raise FileNotFoundError, w).
Proof. done. Qed.

Lemma find_image_hit ds img_id ext exts img_file rest content w :
  rglob path_match (fs w) (img_dir ds) (img_id +:+ ext) = img_file :: rest →
  lookup_node (fs w) img_file = Some (File content) →
  find_image ds img_id (ext :: exts) w
  = (match image_open content with
     | Some im => Ret im
     | None => Raise ImageError
     end,
     logged [EvScan (img_dir ds) (img_id +:+ ext) true; EvExists img_file;
             EvImageOpen img_file] w).
Proof.
  intros Hg Hn. cbn [find_image]. unfold bind at 1. unfold emit.
  unfold bind at 1. unfold read_fs. cbn [fs log]. rewrite Hg. cbn [head].
  unfold bind at 1. cbn [fs log]. rewrite Hn.
  unfold bind at 1. rewrite log_twice, logged_log.
  by destruct (image_open content).
Qed.

(** X7.  With image loading, the extensions are tried in the order of
    [IMG_EXTS] and the first match of the first extension that has one is
    opened; the extensions after it are not searched for.  When no extension
    has a match the access fails with [FileNotFoundError] after the annotation
    has been read, and the hook is not called. *)
Theorem getitem_image_lookup (ds : InReDDDataset) (i : nat) (img_id : string)
    (content : string) (target : pyval) (w : world) :
  ids ds !! i = Some img_id →
  lookup_node (fs w) (ann_path ds img_id) = Some (File content) →
  json_load content = Some target →
  load_images ds = true →
  let p := ann_path ds img_id in
  (∀ pre ext post img_file rest bytes im,
     IMG_EXTS = pre ++ ext :: post →
     Forall (λ ext, rglob path_match (fs w) (img_dir ds) (img_id +:+ ext) = []) pre →
     rglob path_match (fs w) (img_dir ds) (img_id +:+ ext) = img_file :: rest →
     lookup_node (fs w) img_file = Some (File bytes) →
     image_open bytes = Some im →
     getitem ds (Z.of_nat i) w
     = (match transforms ds with
        | Some f => f (Some im) target
        | None => Ret (Some im, target)
        end,
        logged ([EvExists p; EvRead p] ++ image_scans ds img_id pre ++
                [EvScan (img_dir ds) (img_id +:+ ext) true; EvExists img_file;
                 EvImageOpen img_file]) w)) ∧
  (Forall (λ ext, rglob path_match (fs w) (img_dir ds) (img_id +:+ ext) = [])
     IMG_EXTS →
   getitem ds (Z.of_nat i) w
   = (Raise FileNotFoundError,
      logged ([EvExists p; EvRead p] ++ image_scans ds img_id IMG_EXTS) w)).
Proof.
  intros Hi Hn Hj Hl p. rewrite (getitem_at _ _ _ _ Hi), Hn. cbv zeta.
  rewrite Hj, Hl. fold p. split.
  - intros pre ext post img_file rest bytes im -> Hpre Hg Hf Ho.
    unfold bind at 1. unfold bind at 1.
    rewrite find_image_skip by exact Hpre.
    rewrite (find_image_hit _ _ _ _ img_file rest bytes) by assumption.
    rewrite Ho, !logged_logged. unfold ret, lift. by destruct (transforms ds).
  - intros Hno. unfold bind at 1. unfold bind at 1.
    rewrite <- (app_nil_r IMG_EXTS) at 1.
    rewrite find_image_skip by exact Hno.
    by rewrite find_image_none, logged_logged.
Qed.

Lemma find_image_frame ds img_id exts : ∀ w,
  ∃ evs, (find_image ds img_id exts w).2 = logged evs w ∧
         Forall (search_event ds img_id exts) evs.
Proof.
  induction exts as [|ext exts IH]; intros w.
  - exists []. by rewrite logged_nil.
  - cbn [find_image]. unfold bind at 1. unfold emit.
    unfold bind at 1. unfold read_fs. cbn [fs log].
    set (sc := EvScan (img_dir ds) (img_id +:+ ext) true).
    assert (Hsc : search_event ds img_id (ext :: exts) sc).
    { repeat split. exists ext. split; [left|done]. }
    assert (Hrec : ∀ pre, Forall (search_event ds img_id (ext :: exts)) pre →
              ∃ evs, (find_image ds img_id exts (logged pre w)).2 = logged evs w ∧
                     Forall (search_event ds img_id (ext :: exts)) evs).
    { intros pre Hpre. destruct (IH (logged pre w)) as (evs & Hw & Hall).
      exists (pre ++ evs). split; [by rewrite Hw, logged_logged|].
      apply Forall_app. split; [exact Hpre|].
      eapply Forall_impl; [exact Hall|].
      intros [d pat r| | |]; try done.
      intros (? & ? & ext' & ? & ?). repeat split; try done.
      exists ext'. split; [by right|done]. }
    destruct (head _) as [img_file|];
      [|apply (Hrec [sc]); by constructor].
    unfold bind at 1. cbn [fs log].
    destruct (lookup_node (fs w) img_file) as [[bytes|es]|];
      [| |rewrite log_twice; apply Hrec; constructor; [exact Hsc|by constructor]].
    + unfold bind at 1. exists [sc; EvExists img_file; EvImageOpen img_file].
      split; [|constructor; [exact Hsc|by repeat constructor]].
      rewrite <- logged_log, <- log_twice.
      by destruct (image_open bytes).
    + unfold bind at 1. exists [sc; EvExists img_file; EvImageOpen img_file].
      split; [|constructor; [exact Hsc|by repeat constructor]].
      by rewrite <- logged_log, <- log_twice.
Qed.

Lemma search_event_getitem ds img_id evs :
  img_id ∈ ids ds →
  Forall (search_event ds img_id IMG_EXTS) evs →
  Forall (getitem_event ds) evs ∧ List.filter is_read evs = [].
Proof.
  intros Hid. induction 1 as [|ev evs Hev _ [IH1 IH2]]; [done|].
  destruct ev as [d pat r|p|p|p]; cbn in *; try done.
  - split; [|done]. constructor; [|done].
    destruct Hev as (? & ? & ext & ? & ?). repeat split; try done.
    by exists img_id, ext.
  - split; [|done]. by constructor.
  - split; [|done]. by constructor.
Qed.

Lemma getitem_logged ds idx w :
  ∃ evs, (getitem ds idx w).2 = logged evs w ∧ Forall (getitem_event ds) evs ∧
         (length (List.filter is_read evs) ≤ 1)%nat.
Proof.
  rewrite getitem_position.
  destruct (position ds idx ≫= _) as [img_id|] eqn:Hpos;
    [|exists []; rewrite logged_nil; split; [done|split; [constructor|cbn; lia]]].
  assert (Hid : img_id ∈ ids ds).
  { destruct (position ds idx) as [i|]; [|done].
    by apply list_elem_of_lookup_2 in Hpos. }
  set (p := ann_path ds img_id).
  assert (Hread : getitem_event ds (EvRead p)) by (by exists img_id).
  destruct (lookup_node (fs w) p) as [[content|es]|].
  - cbv zeta. destruct (json_load content) as [target|].
    + unfold bind at 1. destruct (load_images ds).
      * unfold bind at 1.
        destruct (find_image_frame ds img_id IMG_EXTS (logged [EvExists p; EvRead p] w))
          as (evs & Hw & Hall).
        destruct (search_event_getitem _ _ _ Hid Hall) as [Hall' Hnone].
        exists ([EvExists p; EvRead p] ++ evs). split; [|split].
        -- rewrite <- logged_logged, <- Hw.
           destruct (find_image _ _ _ _) as [[im|e] w3]; [|done].
           unfold ret, lift. by destruct (transforms ds).
        -- apply Forall_app. split; [|done]. by repeat constructor.
        -- cbn. rewrite Hnone. cbn. lia.
      * exists [EvExists p; EvRead p]. split; [|split].
        -- unfold ret, lift. by destruct (transforms ds).
        -- by repeat constructor.
        -- cbn. lia.
    + exists [EvExists p; EvRead p]. split; [done|split].
      * by repeat constructor.
      * cbn. lia.
  - exists [EvExists p]. split; [done|split]; [by repeat constructor|cbn; lia].
  - exists [EvExists p]. split; [done|split]; [by repeat constructor|cbn; lia].
Qed.

(** X8.  An access reads and never writes: the store and the directory
    tree are left as they were, whatever the outcome; the trace is only
    extended, by tests for existence, the reading of at most one annotation,
    which is that of an identifier of the index, recursive searches of
    [images/] and the opening of an image. *)
Theorem getitem_read_only (ds : InReDDDataset) (idx : Z) (w : world) :
  let w' := (getitem ds idx w).2 in
  heap w' = heap w ∧ fs w' = fs w ∧
  ∃ evs, trace w' = trace w ++ evs ∧ Forall (getitem_event ds) evs ∧
         (length (List.filter is_read evs) ≤ 1)%nat.
Proof.
  destruct (getitem_logged ds idx w) as (evs & Hw & Hall & Hlen).
  cbv zeta. rewrite Hw. repeat split. by exists evs.
Qed.
(** ** Construction of the index *)

Lemma world_logged w w' evs :
  heap w' = heap w → fs w' = fs w → trace w' = trace w ++ evs → w' = logged evs w.
Proof. destruct w'. unfold logged. cbn. by intros -> -> ->. Qed.

Lemma init_run load hk recursive w :
  init load hk recursive w
  = (match ids_of (scan_result (fs w) ["images"] recursive IMG_EXTS) with
     | [] => Raise FileNotFoundError
     | ids => Ret {| img_dir := ["images"]; ann_dir := ["annotations"];
                     ids := ids; load_images := load; transforms := hk |}
     end, logged (init_scans recursive) w).
Proof.
  unfold init.
  destruct (scan_spec ["images"] recursive IMG_EXTS w) as (w' & Hrun & Hh & Hf & Ht).
  rewrite (bind_ret _ _ _ _ _ Hrun).
  fold (ids_of (scan_result (fs w) ["images"] recursive IMG_EXTS)).
  rewrite (world_logged _ _ _ Hh Hf Ht).
  by destruct (ids_of _).
Qed.

Lemma scan_result_subtree root root' dir recursive exts :
  lookup_node root' dir = lookup_node root dir →
  scan_result root' dir recursive exts = scan_result root dir recursive exts.
Proof.
  intros Hsame. unfold scan_result. f_equal.
  destruct recursive; unfold rglob, glob; by rewrite Hsame.
Qed.

(** X9.  Constructing the index searches [images/] once per extension, in
    the order of [IMG_EXTS], and does nothing else: the store and the tree are
    unchanged, and the outcome is the same on any tree with the same
    [images/], so that [annotations/] is not looked at, and need not exist,
    before an item is asked for. *)
Theorem init_scans_images_only (load : bool) (hk : option hook) (recursive : bool)
    (w : world) :
  (init load hk recursive w).2 = logged (init_scans recursive) w ∧
  init_scans recursive
  = [EvScan ["images"] "*.png" recursive; EvScan ["images"] "*.jpg" recursive;
     EvScan ["images"] "*.jpeg" recursive] ∧
  ∀ w2, lookup_node (fs w2) ["images"] = lookup_node (fs w) ["images"] →
        (init load hk recursive w2).1 = (init load hk recursive w).1.
Proof.
  split; [by rewrite init_run|]. split; [done|].
  intros w2 Hsame. rewrite !init_run. cbn [fst].
  by rewrite (scan_result_subtree _ _ _ _ _ Hsame).
Qed.

Lemma elem_of_ids_of found i :
  i ∈ ids_of found ↔ i ∈ (λ p, stem (path_name p)) <$> found.
Proof. by rewrite ids_of_perm, elem_of_elements, elem_of_list_to_set. Qed.

Lemma glob_rglob root dir pat :
  glob path_match root dir pat ⊆ rglob path_match root dir pat.
Proof.
  unfold glob, rglob. destruct (lookup_node root dir) as [[c|es]|]; [done| |done].
  cbn [dirs_under]. intros p Hp. rewrite bind_cons. apply elem_of_app. by left.
Qed.

Lemma scan_result_shallow root dir exts :
  scan_result root dir false exts ⊆ scan_result root dir true exts.
Proof.
  unfold scan_result. intros p Hp.
  apply list_elem_of_bind in Hp as (ext & Hp & Hext).
  apply list_elem_of_bind. exists ext. split; [|done]. by apply glob_rglob.
Qed.

(** X10.  The identifiers found without recursion are among those found
    with it: whenever the shallow construction succeeds on a tree, so does the
    recursive one, and its index has every identifier of the shallow index. *)
Theorem shallow_ids_among_recursive (load load' : bool) (hk hk' : option hook)
    (w : world) (ds : InReDDDataset) :
  (init load hk false w).1 = Ret ds →
  ∃ ds', (init load' hk' true w).1 = Ret ds' ∧ ids ds ⊆ ids ds'.
Proof.
  rewrite !init_run. cbn [fst].
  set (shallow := ids_of (scan_result (fs w) ["images"] false IMG_EXTS)).
  set (deep := ids_of (scan_result (fs w) ["images"] true IMG_EXTS)).
  assert (Hsub : shallow ⊆ deep).
  { intros i. unfold shallow, deep. rewrite !elem_of_ids_of, !list_elem_of_fmap.
    intros (p & -> & Hp). exists p. split; [done|]. by apply scan_result_shallow. }
  intros Hds.
  assert (ids ds = shallow) as ->.
  { destruct shallow; [done|]. by injection Hds as <-. }
  destruct deep as [|i deep'] eqn:Hdeep.
  - destruct shallow as [|j ?]; [done|].
    exfalso. eapply not_elem_of_nil, (Hsub j). by left.
  - eexists. split; [reflexivity|]. exact Hsub.
Qed.
(** ** The pass of [describe] over the annotations *)

Lemma getitem_plain ds i img_id w :
  ids ds !! i = Some img_id → load_images ds = false → transforms ds = None →
  getitem ds (Z.of_nat i) w
  = (match annotation_of ds (fs w) img_id with
     | Ret target => Ret (None, target)
     | Raise e => Raise e
     end, logged (annotation_access ds (fs w) img_id) w).
Proof.
  intros Hi Hl Ht. rewrite (getitem_at _ _ _ _ Hi).
  unfold annotation_of, annotation_access.
  destruct (lookup_node _ _) as [[content|es]|]; try done.
  cbv zeta. destruct (json_load content); [|done].
  by rewrite Hl, Ht.
Qed.

Lemma for_annotations_pass ds acc :
  load_images ds = false → transforms ds = None →
  ∀ l k w s v,
    drop k (ids ds) = l → is_stats (heap w) acc s v →
    ∃ w' s',
      for_annotations ds (seq k (length l)) (update acc) w = ((pass ds (fs w) l).2, w') ∧
      is_stats (heap w') acc s' (views_after (pass ds (fs w) l).1.1 v) ∧
      same_refs s s' ∧ fs w' = fs w ∧
      trace w' = trace w ++ (pass ds (fs w) l).1.2.
Proof.
  intros Hl Ht l. induction l as [|img_id l IH]; intros k w s v Hdrop Hst.
  - exists w, s. cbn. rewrite app_nil_r. split; [done|]. split; [done|].
    split; [apply same_refs_refl|done].
  - assert (Hi : ids ds !! k = Some img_id).
    { pose proof (lookup_drop (ids ds) k 0) as H.
      by rewrite Hdrop, Nat.add_0_r in H. }
    assert (Hdrop' : drop (S k) (ids ds) = l).
    { pose proof (drop_drop (ids ds) 1 k) as H.
      by rewrite Hdrop, Nat.add_1_r in H. }
    cbn [length seq for_annotations gen_next pass].
    unfold bind at 1. unfold bind at 1.
    rewrite (getitem_plain _ _ _ _ Hi Hl Ht).
    destruct (annotation_of ds (fs w) img_id) as [r|e].
    + cbn [ret fst snd]. unfold bind at 1.
      set (w1 := logged (annotation_access ds (fs w) img_id) w).
      assert (Hst1 : is_stats (heap w1) acc s v) by exact Hst.
      destruct (update_spec w1 acc s v r Hst1) as (w2 & s2 & Hup & Hst2 & Hrefs & Hf & Htr).
      rewrite Hup. fold (record_delta r).
      destruct (d_res (record_delta r)) as [[]|e].
      * destruct (IH (S k) w2 s2 _ Hdrop' Hst2) as (w3 & s3 & Hrun & Hst3 & Hrefs3 & Hf3 & Htr3).
        rewrite Hf in Hrun, Hst3, Htr3. cbn [fs w1 logged] in Hrun, Hst3, Htr3.
        exists w3, s3. rewrite Hrun.
        destruct (pass ds (fs w) l) as [[rs evs] res].
        cbn [fst snd] in *. split; [done|]. split; [done|].
        split; [by eapply same_refs_trans|].
        split; [by rewrite Hf3, Hf|].
        rewrite Htr3, Htr. cbn. by rewrite app_assoc.
      * exists w2, s2. cbn [fst snd]. split; [done|]. split; [done|].
        split; [done|]. split; [by rewrite Hf|]. by rewrite Htr.
    + exists (logged (annotation_access ds (fs w) img_id) w), s.
      cbn [fst snd]. split; [done|]. split; [done|].
      split; [apply same_refs_refl|done].
Qed.

Lemma obj_delta_error o e :
  d_res (obj_delta o) = Raise e → e = AttributeError ∨ e = TypeError.
Proof.
  destruct o as [| | | | | |d]; cbn; try (intros [= <-]; by left).
  destruct (default (PDict ∅) (d !! "conditions")); cbn;
    try (intros [= <-]; by left).
  destruct (truthy _); [|done].
  destruct (hash_key _); cbn; [done|]. intros [= <-]. by right.
Qed.

Lemma objs_delta_countable objs :
  d_res (objs_delta objs) = Ret tt ↔ forallb countable_obj objs = true.
Proof.
  induction objs as [|o objs IH]; [done|]. cbn.
  rewrite andb_true_iff, <- IH, <- obj_delta_countable.
  destruct (d_res (obj_delta o)) as [[]|e] eqn:E; cbn; [tauto|].
  rewrite E. split; [done|]. by intros [? _].
Qed.

Lemma objs_delta_error objs e :
  d_res (objs_delta objs) = Raise e → e = AttributeError ∨ e = TypeError.
Proof.
  induction objs as [|o objs IH]; [done|]. cbn.
  destruct (d_res (obj_delta o)) as [[]|e'] eqn:E; cbn; [exact IH|].
  rewrite E. intros [= <-]. by eapply obj_delta_error.
Qed.

Lemma record_delta_countable r :
  d_res (record_delta r) = Ret tt ↔ countable_record r = true.
Proof. apply objs_delta_countable. Qed.

Lemma pass_app ds root pre rs l :
  Forall2 (λ img_id r, annotation_of ds root img_id = Ret r) pre rs →
  Forall (λ r, countable_record r = true) rs →
  pass ds root (pre ++ l)
  = ((rs ++ (pass ds root l).1.1,
      (pre ≫= annotation_access ds root) ++ (pass ds root l).1.2),
     (pass ds root l).2).
Proof.
  induction 1 as [|img_id r pre rs Hr _ IH]; intros Hok.
  - cbn. by destruct (pass ds root l) as [[? ?] ?].
  - inversion Hok as [|? ? Hc Hok']; subst.
    apply record_delta_countable in Hc.
    cbn [app pass]. rewrite Hr, Hc, (IH Hok'). cbn.
    by rewrite <- app_assoc.
Qed.

Lemma annotation_access_events ds root img_id l :
  img_id ∈ l → Forall (annotation_event ds l) (annotation_access ds root img_id).
Proof.
  intros Hin. unfold annotation_access.
  assert (annotation_event ds l (EvExists (ann_path ds img_id)))
    by (exists img_id; split; [done|by left]).
  assert (annotation_event ds l (EvRead (ann_path ds img_id)))
    by (exists img_id; split; [done|by right]).
  destruct (lookup_node _ _) as [[?|?]|]; by repeat constructor.
Qed.

Lemma annotation_event_mono ds l l' ev :
  l ⊆ l' → annotation_event ds l ev → annotation_event ds l' ev.
Proof. intros Hsub (img_id & Hin & Hev). exists img_id. split; [by apply Hsub|done]. Qed.

Lemma pass_events ds root l : Forall (annotation_event ds l) (pass ds root l).1.2.
Proof.
  induction l as [|img_id l IH]; [by constructor|].
  assert (Hacc : Forall (annotation_event ds (img_id :: l))
                   (annotation_access ds root img_id))
    by (apply annotation_access_events; left).
  cbn [pass]. destruct (annotation_of ds root img_id) as [r|e]; [|done].
  destruct (d_res (record_delta r)) as [[]|e]; [|done].
  destruct (pass ds root l) as [[rs evs] res]. cbn [fst snd] in *.
  apply Forall_app. split; [done|].
  eapply Forall_impl; [exact IH|]. intros ev.
  apply annotation_event_mono. intros x Hx. by right.
Qed.

Lemma describe_empty w :
  found_ids (fs w) = [] →
  describe w = (Raise FileNotFoundError, logged (init_scans true) w).
Proof.
  unfold describe, found_ids. intros Hids. unfold bind at 1.
  by rewrite init_run, Hids.
Qed.

Lemma describe_pass w l :
  found_ids (fs w) = l → l ≠ [] →
  let ds := described l in
  let rs := (pass ds (fs w) l).1.1 in
  ∃ acc s w',
    describe w
    = (match (pass ds (fs w) l).2 with
       | Raise e => Raise e
       | Ret _ =>
           match summary_of (box_count <$> rs) (Statistics.sum (box_count <$> rs)) with
           | Ret snap => Ret (with_counters s snap)
           | Raise e => Raise e
           end
       end, w') ∧
    is_stats (heap w') acc s (views_after rs empty_view) ∧
    fs w' = fs w ∧
    trace w' = trace w ++ init_scans true ++ (pass ds (fs w) l).1.2.
Proof.
  unfold describe, found_ids. intros Hids Hne.
  destruct l as [|i l']; [done|]. clear Hne.
  unfold bind at 1. rewrite init_run, Hids.
  set (l := i :: l'). set (ds := described l).
  change (mkInReDDDataset ["images"] ["annotations"] l false None) with ds.
  set (w0 := logged (init_scans true) w).
  destruct (new_stats_spec w0) as (acc & w1 & s & Hnew & Hst & Hf & Htr & _).
  unfold bind at 1. rewrite Hnew.
  destruct (for_annotations_pass ds acc eq_refl eq_refl l 0%nat w1 s empty_view
              eq_refl Hst) as (w2 & s2 & Hrun & Hst2 & Hrefs & Hf2 & Htr2).
  rewrite Hf in Hrun, Hst2, Htr2. cbn [fs w0 logged] in Hrun, Hst2, Htr2.
  unfold iter_annotations, len. change (ids ds) with l.
  unfold bind at 1. rewrite Hrun.
  exists acc, s2, w2.
  destruct (pass ds (fs w) l) as [[rs evs] res]. cbn [fst snd] in *.
  assert (Htrace : trace w2 = trace w ++ init_scans true ++ evs)
    by (by rewrite Htr2, Htr, app_assoc).
  assert (Hfs : fs w2 = fs w) by (by rewrite Hf2, Hf).
  destruct res as [[]|e]; [|done].
  unfold bind at 1. rewrite (summary_spec _ _ _ _ Hst2).
  rewrite views_after_history, views_after_total. cbn [v_history v_total empty_view app].
  rewrite Z.add_0_l.
  destruct (summary_of _ _) as [snap|e]; [|done].
  by rewrite (attach_counters_spec _ _ _ _ snap Hst2).
Qed.

Lemma found_ids_nil root : image_names root true = [] → found_ids root = [].
Proof.
  intros Hnone. unfold found_ids.
  pose proof (ids_of_perm (scan_result root ["images"] true IMG_EXTS)) as Hp.
  rewrite scanned_stems, Hnone in Hp. cbn in Hp.
  rewrite elements_empty in Hp. by apply Permutation_nil_r in Hp.
Qed.

Lemma pass_good ds root l rs :
  Forall2 (λ img_id r, annotation_of ds root img_id = Ret r) l rs →
  Forall (λ r, countable_record r = true) rs →
  pass ds root l = ((rs, l ≫= annotation_access ds root), Ret tt).
Proof.
  intros Hann Hok. rewrite <- (app_nil_r l) at 1.
  rewrite (pass_app _ _ _ _ _ Hann Hok). cbn. by rewrite !app_nil_r.
Qed.

(** X11.  On a tree where no entry under [images/], file or directory, has
    an allowed extension, [describe] fails with [FileNotFoundError] once the
    three searches are made: no accumulator is created and no annotation is
    looked for. *)
Theorem describe_without_images (w : world) :
  image_names (fs w) true = [] →
  describe w = (Raise FileNotFoundError, logged (init_scans true) w).
Proof. intros Hnone. by apply describe_empty, found_ids_nil. Qed.

(** X12.  When every identifier has an annotation that decodes to a record
    [update] can count, [describe] feeds one accumulator each of these
    records once, in the order of the identifiers, and returns the summary of
    that accumulator with its three counters attached; each annotation was
    tested and read once.  The number of images reported is the number of
    identifiers. *)
Theorem describe_all_records (w : world) (l : list string) (rs : list pyval) :
  found_ids (fs w) = l → l ≠ [] →
  Forall2 (λ img_id r, annotation_of (described l) (fs w) img_id = Ret r) l rs →
  Forall (λ r, countable_record r = true) rs →
  ∃ acc s w',
    describe w
    = (match summary_of (box_count <$> rs) (Statistics.sum (box_count <$> rs)) with
       | Ret snap => Ret (with_counters s snap)
       | Raise e => Raise e
       end, w') ∧
    is_stats (heap w') acc s (views_after rs empty_view) ∧
    fs w' = fs w ∧
    trace w'
    = trace w ++ init_scans true ++ (l ≫= annotation_access (described l) (fs w)) ∧
    (realistic rs →
     ∃ out, (describe w).1 = Ret out ∧
            out !! "images" = Some (SNum (NInt (Z.of_nat (length l)))) ∧
            out !! "boxes" = Some (SNum (NInt (Statistics.sum (box_count <$> rs)))) ∧
            out !! "tooth_ids" = Some (SRef (tooth_ids s))).
Proof.
  intros Hids Hne Hann Hok.
  destruct (describe_pass w l Hids Hne) as (acc & s & w' & Hrun & Hst & Hf & Htr).
  rewrite (pass_good _ _ _ _ Hann Hok) in Hrun, Hst, Htr. cbn [fst snd] in *.
  exists acc, s, w'. split; [done|]. split; [done|]. split; [done|].
  split; [done|]. intros Hreal. rewrite Hrun. cbn [fst].
  assert (Hrs : rs ≠ []).
  { intros ->. apply Forall2_length in Hann. by destruct l. }
  destruct (summary_of_parts (box_count <$> rs) (Statistics.sum (box_count <$> rs)))
    as (m & mean & median & lo & hi & _ & _ & _ & _ & _ & ->);
    [by destruct rs|by apply realistic_sizes|].
  eexists. split; [reflexivity|].
  rewrite length_fmap, <- (Forall2_length _ _ _ Hann).
  unfold with_counters, summary_dict. repeat split; by simplify_map_eq.
Qed.

(** X13.  [describe] stops at the first identifier whose annotation cannot
    be obtained, with the error of that access, and at the first record its
    [update] cannot count, with [AttributeError] or [TypeError]: the
    annotations of the identifiers after it are not looked for, and the
    records before it have been counted. *)
Theorem describe_stops_at_failure (w : world) (l pre post : list string)
    (img_id : string) (rs : list pyval) :
  found_ids (fs w) = l → l = pre ++ img_id :: post →
  Forall2 (λ i r, annotation_of (described l) (fs w) i = Ret r) pre rs →
  Forall (λ r, countable_record r = true) rs →
  let ds := described l in
  let accesses := (pre ≫= annotation_access ds (fs w))
                  ++ annotation_access ds (fs w) img_id in
  (∀ e, annotation_of ds (fs w) img_id = Raise e →
     ∃ acc s w',
       describe w = (Raise e, w') ∧
       is_stats (heap w') acc s (views_after rs empty_view) ∧
       trace w' = trace w ++ init_scans true ++ accesses) ∧
  (∀ r, annotation_of ds (fs w) img_id = Ret r → countable_record r = false →
     ∃ e acc s w',
       (e = AttributeError ∨ e = TypeError) ∧
       describe w = (Raise e, w') ∧
       is_stats (heap w') acc s (views_after (rs ++ [r]) empty_view) ∧
       trace w' = trace w ++ init_scans true ++ accesses).
Proof.
  intros Hids Hl Hann Hok ds accesses.
  assert (Hne : l ≠ []) by (rewrite Hl; by destruct pre).
  destruct (describe_pass w l Hids Hne) as (acc & s & w' & Hrun & Hst & Hf & Htr).
  fold ds in Hrun, Hst, Htr, Hann.
  rewrite Hl in Hrun, Hst, Htr.
  rewrite (pass_app _ _ _ _ _ Hann Hok) in Hrun, Hst, Htr.
  cbn [fst snd pass] in Hrun, Hst, Htr. split.
  - intros e He. rewrite He in Hrun, Hst, Htr. cbn [fst snd] in *.
    rewrite app_nil_r in Hst. by exists acc, s, w'.
  - intros r Hr Hbad. rewrite Hr in Hrun, Hst, Htr.
    destruct (d_res (record_delta r)) as [[]|e] eqn:Hres.
    { apply record_delta_countable in Hres. congruence. }
    cbn [fst snd] in *. exists e, acc, s, w'.
    split; [by eapply objs_delta_error|done].
Qed.

(** X14.  Whatever the tree, [describe] leaves it as it is and, after the
    three searches of the construction, only tests and reads annotations of
    the identifiers found: no image is searched for or opened. *)
Theorem describe_accesses_annotations_only (w : world) :
  fs (describe w).2 = fs w ∧
  images_opened (trace (describe w).2) = images_opened (trace w) ∧
  ∃ evs, trace (describe w).2 = trace w ++ init_scans true ++ evs ∧
         Forall (annotation_event (described (found_ids (fs w))) (found_ids (fs w))) evs.
Proof.
  assert (Hopen : ∀ ds l evs, Forall (annotation_event ds l) evs → images_opened evs = []).
  { intros ds l evs. induction 1 as [|ev evs (i & _ & [-> | ->]) _ IH]; done. }
  destruct (found_ids (fs w)) as [|i l'] eqn:Hids.
  - rewrite (describe_empty _ Hids). cbn [snd logged fs trace].
    split; [done|]. split.
    + rewrite images_opened_app. cbn. by rewrite app_nil_r.
    + exists []. by rewrite app_nil_r.
  - destruct (describe_pass w (i :: l') Hids) as (acc & s & w' & Hrun & Hst & Hf & Htr);
      [done|].
    rewrite Hrun. cbn [snd]. split; [done|].
    pose proof (pass_events (described (i :: l')) (fs w) (i :: l')) as Hev.
    split.
    + rewrite Htr, !images_opened_app, (Hopen _ _ _ Hev). cbn. by rewrite !app_nil_r.
    + by eexists.
Qed.

(** ** What [update] counts *)

(** X15.  [update] returns exactly on the records all of whose objects are
    dicts with, if any, a dict of conditions and a false or hashable image
    status; on the others it raises [AttributeError] or [TypeError]. *)
Theorem update_returns_iff_countable (w : world) (self : loc) (s : DatasetStats)
    (v : view) (ann : pyval) :
  is_stats (heap w) self s v →
  ((update self ann w).1 = Ret tt ↔ countable_record ann = true) ∧
  (∀ e, (update self ann w).1 = Raise e → e = AttributeError ∨ e = TypeError).
Proof.
  intros Hst.
  destruct (update_spec w self s v ann Hst) as (w' & s' & Hrun & _).
  rewrite Hrun. cbn [fst]. split.
  - apply objs_delta_countable.
  - intros e. apply objs_delta_error.
Qed.

Lemma count_incr_all_le ks c k : count c k ≤ count (incr_all ks c) k.
Proof. rewrite count_incr_all. lia. Qed.

(** X16.  Whatever its outcome, [update] has appended the number of objects
    of the record to the history and added it to the total before counting
    anything, so that a record it fails on is an image of the next summary;
    no counter decreases, and the tree and the trace are unchanged. *)
Theorem update_records_size_first (w : world) (self : loc) (s : DatasetStats)
    (v : view) (ann : pyval) :
  is_stats (heap w) self s v →
  ∃ v', read_stats (heap (update self ann w).2) self = Some v' ∧
        v_history v' = v_history v ++ [box_count ann] ∧
        v_total v' = v_total v + box_count ann ∧
        (∀ k, count (v_tooth v) k ≤ count (v_tooth v') k ∧
              count (v_conditions v) k ≤ count (v_conditions v') k ∧
              count (v_status v) k ≤ count (v_status v') k) ∧
        fs (update self ann w).2 = fs w ∧
        trace (update self ann w).2 = trace w.
Proof.
  intros Hst.
  destruct (update_spec w self s v ann Hst) as (w' & s' & Hrun & Hst' & _ & Hf & Htr).
  rewrite Hrun. cbn [snd].
  exists (update_view ann v). split; [by eapply is_stats_read|].
  unfold update_view. cbn.
  split; [done|]. split; [done|]. split; [|done].
  intros k. repeat split; apply count_incr_all_le.
Qed.

Lemma status_of_key o :
  d_res (obj_delta o) = Ret tt → d_status (obj_delta o) = option_list (status_key o).
Proof.
  destruct o as [| | | | |?|d]; try done. cbn.
  destruct (default (PDict ∅) (d !! "conditions")); try done.
  destruct (truthy _); [|done]. by destruct (hash_key _).
Qed.

Lemma objs_delta_status objs :
  d_res (objs_delta objs) = Ret tt →
  d_status (objs_delta objs) = omap status_key objs.
Proof.
  induction objs as [|o objs IH]; cbn; [done|].
  pose proof (status_of_key o) as Ho.
  destruct (d_res (obj_delta o)) as [[]|e] eqn:Hres; cbn.
  - intros Hrest. rewrite (Ho eq_refl), (IH Hrest). by destruct (status_key o).
  - by rewrite Hres.
Qed.

(** X17.  When [update] returns, the image-status counter of each key has
    grown by the number of objects of the record whose [image_status] is true
    and has that key: the status is counted once per object, not once per
    record, and a false status such as the empty string is not counted. *)
Theorem image_status_counted_when_true (w : world) (self : loc) (s : DatasetStats)
    (v : view) (ann : pyval) :
  is_stats (heap w) self s v →
  (update self ann w).1 = Ret tt →
  ∃ v', read_stats (heap (update self ann w).2) self = Some v' ∧
        ∀ k, count (v_status v') k
             = count (v_status v) k + occurrences status_key k ann.
Proof.
  intros Hst Hret.
  destruct (update_spec w self s v ann Hst) as (w' & s' & Hrun & Hst' & _).
  rewrite Hrun in *. cbn [fst snd] in *.
  exists (update_view ann v). split; [by eapply is_stats_read|].
  intros k. unfold update_view, occurrences. cbn.
  rewrite count_incr_all, (objs_delta_status _ Hret).
  by rewrite filter_omap_length.
Qed.

Lemma cond_of_count cd k :
  length (filter (λ k', k' = k) (cond_of cd))
  = match k with
    | KStr c => if from_option truthy false (cd !! c) then 1%nat else 0%nat
    | _ => 0%nat
    end.
Proof.
  unfold cond_of. rewrite filter_omap_length.
  induction cd as [|i x m Hi Hfk IH] using map_first_key_ind.
  - rewrite map_to_list_empty. by destruct k.
  - rewrite (map_to_list_insert_first_key _ _ _ Hi Hfk).
    rewrite filter_cons. cbn [fst snd].
    destruct k as [|c| |]; try (destruct (truthy x); case_decide; by simplify_eq/=).
    destruct (decide (i = c)) as [->|Hne].
    + rewrite lookup_insert_eq. rewrite Hi in IH. cbn in *.
      destruct (truthy x); case_decide; simplify_eq/=; by rewrite IH.
    + rewrite lookup_insert_ne by done.
      destruct (truthy x); case_decide; simplify_eq/=; by rewrite IH.
Qed.

Lemma cond_of_obj o k :
  d_res (obj_delta o) = Ret tt →
  length (filter (λ k', k' = k) (d_cond (obj_delta o)))
  = match k with
    | KStr c => if has_condition c o then 1%nat else 0%nat
    | _ => 0%nat
    end.
Proof.
  destruct o as [| | | | |?|d]; try done. cbn.
  destruct (d !! "conditions") as [cv|] eqn:Hc; cbn.
  - destruct cv as [| | | | |?|cd]; try done.
    destruct (truthy _); [destruct (hash_key _); [|done]|]; intros _; cbn;
      apply cond_of_count.
  - destruct (truthy _); [destruct (hash_key _); [|done]|]; intros _; cbn;
      by destruct k.
Qed.

Lemma objs_delta_cond objs k :
  d_res (objs_delta objs) = Ret tt →
  length (filter (λ k', k' = k) (d_cond (objs_delta objs)))
  = match k with
    | KStr c => length (filter (λ o, has_condition c o = true) objs)
    | _ => 0%nat
    end.
Proof.
  induction objs as [|o objs IH]; cbn.
  - by destruct k.
  - pose proof (cond_of_obj o k) as Ho.
    destruct (d_res (obj_delta o)) as [[]|e] eqn:Hres; cbn.
    + intros Hrest. rewrite filter_app, length_app, (Ho eq_refl), (IH Hrest).
      destruct k as [|c| |]; try done.
      by destruct (has_condition c o).
    + by rewrite Hres.
Qed.

(** X18.  When [update] returns, the condition counter of each name has
    grown by the number of objects of the record among whose [conditions]
    that name has a true value, and nothing else is counted: a condition
    listed with a false value is not, and an object counts at most once for a
    name. *)
Theorem conditions_counted_when_true (w : world) (self : loc) (s : DatasetStats)
    (v : view) (ann : pyval) :
  is_stats (heap w) self s v →
  (update self ann w).1 = Ret tt →
  ∃ v', read_stats (heap (update self ann w).2) self = Some v' ∧
        (∀ c, count (v_conditions v') (KStr c)
              = count (v_conditions v) (KStr c)
                + Z.of_nat (length (filter (λ o, has_condition c o = true)
                                      (objs_of ann)))) ∧
        (∀ k, (∀ c, k ≠ KStr c) →
              count (v_conditions v') k = count (v_conditions v) k).
Proof.
  intros Hst Hret.
  destruct (update_spec w self s v ann Hst) as (w' & s' & Hrun & Hst' & _).
  rewrite Hrun in *. cbn [fst snd] in *.
  exists (update_view ann v). split; [by eapply is_stats_read|].
  unfold update_view. cbn. split.
  - intros c. by rewrite count_incr_all, (objs_delta_cond _ _ Hret).
  - intros k Hk. rewrite count_incr_all, (objs_delta_cond _ _ Hret).
    destruct k as [|c| |]; try lia. by destruct (Hk c).
Qed.

(** ** The figures of a summary *)

Lemma median_parity hist m :
  Statistics.median hist = Ret m →
  if Nat.odd (length hist) then ∃ x, m = NInt x ∧ x ∈ hist else ∃ f, m = NFloat f.
Proof.
  unfold Statistics.median.
  pose proof (sorted_perm hist) as Hperm.
  rewrite <- (Permutation_length Hperm).
  set (data := Statistics.sorted hist) in *.
  rewrite <- Nat.bit0_odd, Nat.bit0_eqb.
  destruct (length data =? 0)%nat; [done|].
  destruct (length data mod 2 =? 1)%nat.
  - destruct (data !! _) as [x|] eqn:Hx; [|done]. intros [= <-].
    exists x. split; [done|]. rewrite <- Hperm. by eapply list_elem_of_lookup_2.
  - destruct (data !! _) as [a|]; [|done]. destruct (data !! _) as [b|]; [|done].
    destruct (int_truediv _ _) as [f|]; [|done]. intros [= <-]. by exists f.
Qed.

Lemma sum_between l lo hi :
  Forall (λ x, lo ≤ x ≤ hi) l →
  lo * Z.of_nat (length l) ≤ Statistics.sum l ≤ hi * Z.of_nat (length l).
Proof.
  induction 1 as [|x l Hx _ IH]; [cbn; lia|].
  change (Statistics.sum (x :: l)) with (x + Statistics.sum l).
  cbn [length]. lia.
Qed.

(** X19.  The minimum and the maximum of a summary are sizes of records that
    were fed and bracket the size of every record, so that the number of
    boxes lies between the number of images times the one and times the
    other; the median is the size of one of the records when their number is
    odd, and a float when it is even. *)
Theorem summary_extremes (w : world) (rs : list pyval) :
  rs ≠ [] → realistic rs →
  ∃ acc mean median lo hi,
    (fed rs w).1 = Ret acc ∧
    (summary acc (fed rs w).2).1
    = Ret (summary_dict (Z.of_nat (length rs)) (Statistics.sum (sizes rs))
             mean median lo hi) ∧
    lo ∈ sizes rs ∧ hi ∈ sizes rs ∧
    Forall (λ r, 0 ≤ lo ≤ box_count r ∧ box_count r ≤ hi) rs ∧
    lo * Z.of_nat (length rs) ≤ Statistics.sum (sizes rs) ≤ hi * Z.of_nat (length rs) ∧
    (if Nat.odd (length rs) then ∃ x, median = NInt x ∧ x ∈ sizes rs
     else ∃ f, median = NFloat f).
Proof.
  intros Hne Hreal.
  destruct (fed_spec rs w) as (acc & s & Hacc & Hst & _).
  assert (Hsizes : sizes rs ≠ []) by (by destruct rs).
  destruct (summary_of_parts (sizes rs) (Statistics.sum (sizes rs)) Hsizes
              (realistic_sizes _ Hreal))
    as (m & mean & median & lo & hi & _ & _ & Hmed & Hlo & Hhi & Hsum).
  exists acc, mean, median, lo, hi. split; [done|].
  rewrite (summary_spec _ _ _ _ Hst), views_after_history, views_after_total.
  cbn [fst v_history v_total empty_view app]. rewrite Z.add_0_l.
  fold (sizes rs). rewrite Hsum. unfold sizes at 1. rewrite length_fmap.
  split; [done|].
  assert (Hbounds : lo ∈ sizes rs ∧ hi ∈ sizes rs ∧
                    Forall (λ x, lo ≤ x ≤ hi) (sizes rs)).
  { destruct (sizes rs) as [|x l]; [done|].
    injection Hlo as <-. injection Hhi as <-.
    destruct (foldl_min_spec l x) as [Hin1 Hall1].
    destruct (foldl_max_spec l x) as [Hin2 Hall2].
    split; [done|]. split; [done|].
    apply Forall_forall. intros y Hy.
    rewrite Forall_forall in Hall1, Hall2.
    specialize (Hall1 y Hy). specialize (Hall2 y Hy). lia. }
  destruct Hbounds as (Hin1 & Hin2 & Hall).
  split; [done|]. split; [done|]. split; [|split].
  - apply Forall_forall. intros r Hr.
    rewrite Forall_forall in Hall.
    assert (Hlo0 : 0 ≤ lo).
    { apply list_elem_of_fmap in Hin1 as (r0 & -> & _). unfold box_count. lia. }
    specialize (Hall (box_count r)).
    assert (box_count r ∈ sizes rs) as Hmem
      by (apply list_elem_of_fmap; by exists r).
    specialize (Hall Hmem). lia.
  - pose proof (sum_between _ _ _ Hall) as Hb.
    unfold sizes in Hb at 1 4. by rewrite length_fmap in Hb.
  - pose proof (median_parity _ _ Hmed) as Hpar.
    unfold sizes in Hpar at 1. by rewrite length_fmap in Hpar.
Qed.

(** ** Records that are neither lists nor dicts *)

Lemma chars_length t : length (chars t) = String.length t.
Proof. induction t as [|c t IH]; cbn; by f_equal. Qed.

Lemma objs_delta_scalars objs :
  Forall (λ o, ∀ d, o ≠ PDict d) objs →
  objs_delta objs
  = mkDelta [] [] [] (match objs with [] => Ret tt | _ => Raise AttributeError end).
Proof.
  destruct 1 as [|o objs Ho _]; [done|].
  cbn. destruct o; try done. by destruct (Ho d).
Qed.

Lemma chars_scalars t : Forall (λ o, ∀ d, o ≠ PDict d) (chars t).
Proof. induction t as [|c t IH]; by constructor. Qed.

(** X20.  A record that is a string is taken as the sequence of its
    characters, and one that is a number, a truth value or [None] as its own
    single object: unless it is the empty string [update] raises
    [AttributeError], after having recorded the length of the string, or 1,
    as the size of one more image; the counters are unchanged. *)
Theorem update_scalar_record (w : world) (self : loc) (s : DatasetStats) (v : view)
    (ann : pyval) :
  is_stats (heap w) self s v →
  (∀ l, ann ≠ PList l) → (∀ d, ann ≠ PDict d) →
  let n := match ann with PStr t => Z.of_nat (String.length t) | _ => 1 end in
  (update self ann w).1
  = (match ann with PStr EmptyString => Ret tt | _ => Raise AttributeError end) ∧
  read_stats (heap (update self ann w).2) self
  = Some {| v_status := v_status v; v_conditions := v_conditions v;
            v_tooth := v_tooth v; v_total := v_total v + n;
            v_history := v_history v ++ [n] |}.
Proof.
  intros Hst Hl Hd n.
  destruct (update_spec w self s v ann Hst) as (w' & s' & Hrun & Hst' & _).
  rewrite Hrun. cbn [fst snd]. rewrite (is_stats_read _ _ _ _ Hst').
  unfold update_view.
  assert (Hobjs : Forall (λ o, ∀ d, o ≠ PDict d) (objs_of ann)).
  { destruct ann as [| | | |t|l|d];
      first [by destruct (Hl l) | by destruct (Hd d) | apply chars_scalars
            | by repeat constructor]. }
  rewrite (objs_delta_scalars _ Hobjs), add_keys_nil. cbn [d_res].
  assert (Hn : Z.of_nat (length (objs_of ann)) = n).
  { destruct ann as [| | | |t|l|d];
      first [by destruct (Hl l) | by destruct (Hd d)
            | unfold objs_of; cbn; by rewrite chars_length | done]. }
  rewrite Hn. split; [|done].
  clear Hobjs Hn Hst' Hrun. clearbody n.
  destruct ann as [| | | |t|l|d]; try done.
  - by destruct t.
  - by destruct (Hl l).
Qed.

(** ** Identifiers and file names *)

Lemma rfind_dot_app a b : ∀ i,
  rfind_dot (a +:+ b) i
  = match rfind_dot b (i + String.length a) with
    | Some j => Some j
    | None => rfind_dot a i
    end.
Proof.
  induction a as [|c a IH]; intros i.
  - change ("" +:+ b) with b. cbn [String.length rfind_dot].
    rewrite Nat.add_0_r. by destruct (rfind_dot b i).
  - change (String c a +:+ b) with (String c (a +:+ b)).
    cbn [String.length rfind_dot]. rewrite IH, Nat.add_succ_r. cbn [Nat.add].
    by destruct (rfind_dot b _).
Qed.

Lemma substring_prefix a b : String.substring 0 (String.length a) (a +:+ b) = a.
Proof.
  induction a as [|c a IH].
  - change ("" +:+ b) with b. by destruct b.
  - change (String c a +:+ b) with (String c (a +:+ b)).
    cbn [String.length String.substring]. by rewrite IH.
Qed.

(** X21.  The identifier of a file named by a non-empty base followed by one
    of the extensions is that base, whatever dots the base has, so that the
    name [__getitem__] searches for is that of the file again; a file whose
    whole name is an extension has that name as its identifier. *)
Theorem stem_of_image_name (base ext : string) :
  ext ∈ IMG_EXTS →
  stem (base +:+ ext) = (if decide (base = "") then ext else base) ∧
  (base ≠ "" → stem (base +:+ ext) +:+ ext = base +:+ ext).
Proof.
  intros Hext.
  assert (Hstem : stem (base +:+ ext) = if decide (base = "") then ext else base).
  { unfold stem. rewrite rfind_dot_app, string_length_app. cbn [Nat.add].
    assert (rfind_dot ext (String.length base) = Some (String.length base)
            ∧ (1 < String.length ext)%nat) as [-> Hlen].
    { unfold IMG_EXTS in Hext.
      repeat (apply elem_of_cons in Hext as [->|Hext]; [cbn; split; [done|lia]|]).
      by apply elem_of_nil in Hext. }
    destruct base as [|c base]; [by case_decide|].
    case_decide; [done|].
    assert ((0 <? String.length (String c base))%nat = true) as ->
      by (apply Nat.ltb_lt; cbn; lia).
    assert ((String.length (String c base)
             <? String.length (String c base) + String.length ext - 1)%nat = true)
      as -> by (apply Nat.ltb_lt; lia).
    cbn [andb]. apply substring_prefix. }
  split; [done|]. intros Hne. rewrite Hstem. by case_decide.
Qed.

(** ** Accumulators do not share objects *)

Lemma preserves_bind {A B} Q (m : M A) (k : A → M B) :
  preserves Q m → (∀ a, preserves Q (k a)) → preserves Q (bind m k).
Proof.
  intros Hm Hk w HQ. unfold bind. specialize (Hm w HQ).
  destruct (m w) as [[a|e] w']; cbn in *; [by apply Hk|done].
Qed.

Lemma preserves_pure {A} Q (m : M A) : (∀ w, (m w).2 = w) → preserves Q m.
Proof. intros Hm w HQ. by rewrite Hm. Qed.

Lemma preserves_for_each {A} Q (xs : list A) (body : A → M unit) :
  (∀ x, preserves Q (body x)) → preserves Q (for_each xs body).
Proof.
  intros Hbody. induction xs as [|x xs IH]; [by apply preserves_pure|].
  cbn [for_each]. apply preserves_bind; [apply Hbody|]. by intros _.
Qed.

Lemma load_counter_frame c w : (load_counter c w).2 = w.
Proof.
  unfold load_counter. apply bind_frame; [apply load_frame|].
  intros x. by destruct x.
Qed.

Lemma preserves_store self s l o c x :
  l ≠ c → c ≠ self ∨ (∃ s', x = OStats s' ∧ same_refs s s') →
  preserves (kept self s l o) (store c x).
Proof.
  intros Hl Hc w [(s' & Hs & Hrefs) Hw]. unfold store, kept. cbn.
  split; [|by rewrite lookup_insert_ne].
  destruct (decide (c = self)) as [->|Hne].
  - destruct Hc as [?|(s2 & -> & Hrefs2)]; [done|].
    exists s2. by rewrite lookup_insert_eq.
  - exists s'. by rewrite lookup_insert_ne.
Qed.

Lemma preserves_counter_update self s l o c elems :
  l ≠ c → c ≠ self → preserves (kept self s l o) (counter_update c elems).
Proof.
  intros Hl Hc. unfold counter_update.
  apply preserves_bind; [apply preserves_pure, load_counter_frame|]. intros _.
  apply preserves_for_each. intros x.
  destruct (hash_key x); [|by apply preserves_pure].
  apply preserves_bind; [apply preserves_pure, load_counter_frame|]. intros c'.
  apply preserves_store; [done|by left].
Qed.

Lemma preserves_attr_bind {A B} self s l o (f : DatasetStats → A) (k : A → M B) :
  (∀ s', same_refs s s' → preserves (kept self s l o) (k (f s'))) →
  preserves (kept self s l o) (bind (attr f self) k).
Proof.
  intros Hk w HQ. destruct HQ as [(s' & Hs & Hrefs) Hl].
  rewrite (bind_ret _ _ _ _ _ (attr_ok f _ _ _ Hs)).
  apply Hk; [done|]. split; [by exists s'|done].
Qed.

Lemma preserves_load_stats_bind {B} self s l o (k : DatasetStats → M B) :
  (∀ s', same_refs s s' → preserves (kept self s l o) (k s')) →
  preserves (kept self s l o) (bind (load_stats self) k).
Proof.
  intros Hk w HQ. destruct HQ as [(s' & Hs & Hrefs) Hl].
  rewrite (bind_ret _ _ _ _ _ (load_stats_ok _ _ _ Hs)).
  apply Hk; [done|]. split; [by exists s'|done].
Qed.

Lemma update_obj_preserves self s l o obj :
  l ∉ owned self s → self ∉ [image_status s; conditions s; tooth_ids s] →
  preserves (kept self s l o) (update_obj self obj).
Proof.
  intros Hl Hself. unfold owned in Hl.
  rewrite !not_elem_of_cons in Hl. rewrite !not_elem_of_cons in Hself.
  destruct Hl as (_ & ? & ? & ? & _). destruct Hself as (? & ? & ? & _).
  unfold update_obj.
  apply preserves_bind; [apply preserves_pure, lift_frame|]. intros tid.
  apply preserves_bind.
  { destruct (is_none tid); [by apply preserves_pure|].
    apply preserves_attr_bind. intros s1 (_ & _ & -> & _).
    by apply preserves_counter_update. }
  intros _. apply preserves_attr_bind. intros s2 (_ & -> & _ & _).
  apply preserves_bind; [apply preserves_pure, lift_frame|]. intros conds.
  apply preserves_bind; [apply preserves_pure, lift_frame|]. intros items.
  apply preserves_bind; [by apply preserves_counter_update|]. intros _.
  apply preserves_bind; [apply preserves_pure, lift_frame|]. intros status.
  destruct (truthy status); [|by apply preserves_pure].
  apply preserves_attr_bind. intros s3 (-> & _ & _ & _).
  by apply preserves_counter_update.
Qed.

Lemma update_preserves self s l o ann :
  l ∉ owned self s →
  self ∉ [image_status s; conditions s; tooth_ids s; boxes_per_image s] →
  preserves (kept self s l o) (update self ann).
Proof.
  intros Hl Hself.
  assert (Hl' := Hl). unfold owned in Hl'.
  assert (Hself' := Hself).
  rewrite !not_elem_of_cons in Hl'. rewrite !not_elem_of_cons in Hself'.
  destruct Hl' as (? & _ & _ & _ & ? & _). destruct Hself' as (_ & _ & _ & ? & _).
  unfold update.
  apply preserves_attr_bind. intros s1 (_ & _ & _ & ->).
  apply preserves_bind.
  { unfold list_append.
    apply preserves_bind; [apply preserves_pure, load_list_frame|]. intros xs.
    apply preserves_store; [done|by left]. }
  intros _. apply preserves_load_stats_bind. intros s2 Hrefs.
  apply preserves_bind.
  { apply preserves_store; [done|]. right. eexists. split; [reflexivity|].
    destruct Hrefs as (? & ? & ? & ?). by repeat split. }
  intros _. apply preserves_for_each. intros obj.
  apply update_obj_preserves; [done|].
  rewrite !not_elem_of_cons in Hself. rewrite !not_elem_of_cons.
  destruct Hself as (? & ? & ? & _).
  split; [done|]. split; [done|]. split; [done|]. apply not_elem_of_nil.
Qed.

Lemma apply_updates_preserves self s l o rs :
  l ∉ owned self s →
  self ∉ [image_status s; conditions s; tooth_ids s; boxes_per_image s] →
  ∀ w, kept self s l o w → kept self s l o (apply_updates self rs w).
Proof.
  intros Hl Hself. induction rs as [|r rs IH]; intros w HQ; [done|].
  cbn. apply IH. by apply update_preserves.
Qed.

Lemma is_stats_distinct h self s v :
  is_stats h self s v →
  self ∉ [image_status s; conditions s; tooth_ids s; boxes_per_image s].
Proof.
  intros []. rewrite !not_elem_of_cons.
  split; [congruence|]. split; [congruence|]. split; [congruence|].
  split; [congruence|]. apply not_elem_of_nil.
Qed.

Lemma is_stats_owned h self s v l :
  is_stats h self s v → l ∈ owned self s → is_Some (h !! l).
Proof.
  intros [] Hl. unfold owned in Hl. rewrite !elem_of_cons in Hl.
  destruct Hl as [->|[->|[->|[->|[->|Hl]]]]]; [by eexists..|].
  by apply elem_of_nil in Hl.
Qed.

Lemma is_stats_frame h h' self s v :
  is_stats h self s v → (∀ l, l ∈ owned self s → h' !! l = h !! l) →
  is_stats h' self s v.
Proof.
  intros [] Hsame.
  split; try done; rewrite Hsame; try done; unfold owned; rewrite !elem_of_cons; tauto.
Qed.

Lemma apply_updates_frame self s v rs w l :
  is_stats (heap w) self s v → l ∉ owned self s →
  heap (apply_updates self rs w) !! l = heap w !! l.
Proof.
  intros Hst Hl.
  eapply (apply_updates_preserves self s l (heap w !! l) rs Hl);
    [by eapply is_stats_distinct|].
  split; [|done]. exists s. split; [by destruct Hst|apply same_refs_refl].
Qed.

Lemma new_stats_fresh w :
  ∃ acc w' s, new_stats w = (Ret acc, w') ∧
              is_stats (heap w') acc s empty_view ∧
              Forall (λ l, heap w !! l = None) (owned acc s) ∧
              (∀ l, l ∉ owned acc s → heap w' !! l = heap w !! l).
Proof.
  unfold new_stats.
  destruct (alloc_spec (OCounter ∅) w) as (l1 & E1 & F1). mstep E1.
  set (w1 := set_heap _ w) in *.
  destruct (alloc_spec (OCounter ∅) w1) as (l2 & E2 & F2). mstep E2.
  set (w2 := set_heap _ w1) in *.
  destruct (alloc_spec (OCounter ∅) w2) as (l3 & E3 & F3). mstep E3.
  set (w3 := set_heap _ w2) in *.
  destruct (alloc_spec (OList []) w3) as (l4 & E4 & F4). mstep E4.
  set (w4 := set_heap _ w3) in *.
  match goal with |- context [alloc ?o w4] =>
    destruct (alloc_spec o w4) as (l5 & E5 & F5); rewrite E5 end.
  subst w4 w3 w2 w1. simpl in *.
  rewrite !lookup_insert_None in *. destruct_and!. clear E1 E2 E3 E4 E5.
  exists l5. eexists.
  exists {| image_status := l1; conditions := l2; tooth_ids := l3;
            n_boxes_total := 0; boxes_per_image := l4 |}.
  split; [done|]. simpl.
  split; [|split].
  - split; cbn [image_status conditions tooth_ids boxes_per_image n_boxes_total];
      try done;
      repeat first [rewrite lookup_insert_eq | rewrite lookup_insert_ne by congruence];
      done.
  - unfold owned. cbn. by repeat constructor.
  - intros l Hl. unfold owned in Hl. cbn in Hl.
    rewrite !not_elem_of_cons in Hl. destruct_and!.
    by repeat (rewrite lookup_insert_ne by congruence).
Qed.

(** X22.  Two accumulators share no object: feeding records to the one and
    then to the other leaves each with the contents its own records give,
    and the objects that were in the store before the two were created are
    untouched. *)
Theorem accumulators_do_not_share (w : world) (rs1 rs2 : list pyval) :
  ∃ a1 a2 w2,
    new_pair w = (Ret (a1, a2), w2) ∧ a1 ≠ a2 ∧
    let w' := apply_updates a2 rs2 (apply_updates a1 rs1 w2) in
    read_stats (heap w') a1 = Some (views_after rs1 empty_view) ∧
    read_stats (heap w') a2 = Some (views_after rs2 empty_view) ∧
    (∀ l o, heap w !! l = Some o → heap w' !! l = Some o).
Proof.
  destruct (new_stats_fresh w) as (a1 & w1 & s1 & Hnew1 & Hst1 & Hfresh1 & Hframe1).
  destruct (new_stats_fresh w1) as (a2 & w2 & s2 & Hnew2 & Hst2 & Hfresh2 & Hframe2).
  exists a1, a2, w2. unfold new_pair. mstep Hnew1. mstep Hnew2.
  split; [done|].
  rewrite Forall_forall in Hfresh1, Hfresh2.
  assert (Hdisj : ∀ l, l ∈ owned a1 s1 → l ∉ owned a2 s2).
  { intros l Hl1 Hl2. destruct (is_stats_owned _ _ _ _ _ Hst1 Hl1) as [o Ho].
    specialize (Hfresh2 l Hl2). congruence. }
  split.
  { intros <-. apply (Hdisj a1); left. }
  assert (Hst1' : is_stats (heap w2) a1 s1 empty_view).
  { eapply is_stats_frame; [exact Hst1|]. intros l Hl. by apply Hframe2, Hdisj. }
  set (w3 := apply_updates a1 rs1 w2).
  destruct (apply_updates_spec a1 rs1 w2 s1 _ Hst1') as (s1' & Hst3 & Hrefs & _).
  fold w3 in Hst3.
  assert (Howned : owned a1 s1' = owned a1 s1).
  { destruct Hrefs as (E1 & E2 & E3 & E4). unfold owned. by rewrite E1, E2, E3, E4. }
  assert (Hst2' : is_stats (heap w3) a2 s2 empty_view).
  { eapply is_stats_frame; [exact Hst2|]. intros l Hl.
    apply (apply_updates_frame _ _ _ _ _ _ Hst1'). intros Hl1. by apply (Hdisj l). }
  destruct (apply_updates_spec a2 rs2 w3 s2 _ Hst2') as (s2' & Hst4 & _).
  cbv zeta. split; [|split].
  - eapply is_stats_read, is_stats_frame; [exact Hst3|]. intros l Hl.
    apply (apply_updates_frame _ _ _ _ _ _ Hst2'). rewrite Howned in Hl.
    by apply Hdisj.
  - by eapply is_stats_read.
  - intros l o Hl.
    assert (Hl1 : l ∉ owned a1 s1) by (intros Hin; specialize (Hfresh1 l Hin); congruence).
    assert (Hw1 : heap w1 !! l = Some o) by (by rewrite Hframe1).
    assert (Hl2 : l ∉ owned a2 s2) by (intros Hin; specialize (Hfresh2 l Hin); congruence).
    rewrite (apply_updates_frame _ _ _ _ _ _ Hst2' Hl2).
    unfold w3. rewrite (apply_updates_frame _ _ _ _ _ _ Hst1' Hl1).
    by rewrite Hframe2.
Qed.
End Model.

(** * Worked examples *)

(** The model's correctly rounded quotient agrees with the reference
    division of [SpecFloat] on the operands of the scenario and on rounding
    ties, subnormals and overflow. *)
Example b64_of_ratio_agrees :
  Forall (λ pq : positive * positive,
            default (S754_infinity false) (b64_of_ratio (Zpos pq.1) (Zpos pq.2))
            = SFdiv 53 1024 (S754_finite false pq.1 0) (S754_finite false pq.2 0))
    [(4, 3); (133, 100); (1, 3); (3, 2); (7, 2 ^ 1076); (3, 2 ^ 1075);
     (1, 2 ^ 1075); (2 ^ 1024, 1); (2 ^ 1024 - 2 ^ 970 - 1, 1); (2 ^ 54 - 1, 1)]%positive.
Proof. repeat constructor; vm_compute; exact eq_refl. Qed.

(** [round(4 / 3, 2)] is the double written [1.33]. *)
Example round_mean_of_scenario :
  (match Statistics.mean [1; 2; 1] with
   | Ret m => py_round m 2
   | Raise e => Raise e
   end) = Ret (NFloat (float_literal 133 2)).
Proof. vm_compute. exact eq_refl. Qed.

Example stem_examples :
  stem "a.tar.png" = "a.tar" ∧ stem ".png" = ".png" ∧ stem "a.png" = "a" ∧
  stem "a." = "a." ∧ stem "abc" = "abc".
Proof. repeat split; vm_compute; exact eq_refl. Qed.

Lemma first_stats_fresh :
  is_stats (heap (new_stats empty_world).2) 5%positive first_stats empty_view.
Proof. split; vm_compute; first [exact eq_refl | discriminate]. Defined.

Lemma realistic_two : realistic [record_1; record_2].
Proof.
  split; [vm_compute; discriminate|].
  repeat constructor; vm_compute; discriminate.
Defined.

(** The index constructed over the example tree with image loading on. *)
#[local] Abbreviation example_index :=
  ({| img_dir := ["images"]; ann_dir := ["annotations"]; ids := ["a"; "b"];
      load_images := true; transforms := None |} : InReDDDataset string).

Lemma example_index_constructed :
  (init wildcard_match string true None true example_world).1 = Ret example_index.
Proof. vm_compute. exact eq_refl. Qed.

(** C2, counterexample.  After one [update], the snapshot of [summary] has
    none of the three counters; in the result of [describe]'s assignments the
    entry [tooth_ids] is the accumulator's own counter object, and counting a
    key through it changes the accumulator's counter. *)
Lemma summary_counters_are_aliases :
  let w1 := (fed no_repr [record_1] empty_world).2 in
  let acc := 5%positive in
  let snap := summary_dict 1 1 (NInt 1) (NInt 1) 1 1 in
  let t := 3%positive in
  let w2 := (counter_update t [PStr "99"] w1).2 in
  (fed no_repr [record_1] empty_world).1 = Ret acc ∧
  summary acc w1 = (Ret snap, w1) ∧
  snap !! "image_status" = None ∧
  snap !! "conditions" = None ∧
  snap !! "tooth_ids" = None ∧
  attach_counters acc snap w1 = (Ret (with_counters first_stats snap), w1) ∧
  with_counters first_stats snap !! "tooth_ids" = Some (SRef t) ∧
  (counter_update t [PStr "99"] w1).1 = Ret tt ∧
  (v_tooth <$> read_stats (heap w1) acc) = Some {[ KStr "11" := 1 ]} ∧
  (v_tooth <$> read_stats (heap w2) acc) = Some {[ KStr "11" := 1; KStr "99" := 1 ]}.
Proof. repeat split; vm_compute; exact eq_refl. Qed.

(** [describe] over the example tree: two images, one box; no image is
    opened. *)
Example describe_example_tree :
  (describe no_repr wildcard_match example_json string example_image_open
     example_world).1
  = Ret (with_counters first_stats
           (summary_dict 2 1 (NFloat (float_literal 5 1))
              (NFloat (float_literal 5 1)) 0 1)) ∧
  trace (describe no_repr wildcard_match example_json string example_image_open
           example_world).2
  = [EvScan ["images"] "*.png" true; EvScan ["images"] "*.jpg" true;
     EvScan ["images"] "*.jpeg" true;
     EvExists ["annotations"; "a.json"]; EvRead ["annotations"; "a.json"];
     EvExists ["annotations"; "b.json"]; EvRead ["annotations"; "b.json"]].
Proof. split; vm_compute; exact eq_refl. Qed.

(** The first step over that index: the annotation of [a] is read and the
    image found for [a] under [images/] is opened. *)
Example first_step_of_example :
  (gen_next wildcard_match example_json string example_image_open
     example_index [0%nat; 1%nat] example_world).1 = Ret (Some (PList []), [1%nat]) ∧
  trace (gen_next wildcard_match example_json string example_image_open
           example_index [0%nat; 1%nat] example_world).2
  = [EvExists ["annotations"; "a.json"]; EvRead ["annotations"; "a.json"];
     EvScan ["images"] "a.png" true; EvExists ["images"; "sub"; "a.png"];
     EvImageOpen ["images"; "sub"; "a.png"]].
Proof. split; vm_compute; exact eq_refl. Qed.




(** C9, counterexample.  An object whose [tooth_id] is [None] carries the
    field, and [update] does not count it; and on a record whose first object
    has a number for [conditions], [update] raises after counting the
    [tooth_id] of that object and never counts that of the second. *)
Lemma tooth_id_null_is_not_counted :
  ¬ tooth_id_counted_when_present no_repr ∧
  let bad := PList [PDict {[ "tooth_id" := PStr "11"; "conditions" := PInt 1 ]};
                    PDict {[ "tooth_id" := PStr "12" ]}] in
  let w := (new_stats empty_world).2 in
  (update no_repr 5%positive bad w).1 = Raise AttributeError ∧
  (v_tooth <$> read_stats (heap (update no_repr 5%positive bad w).2) 5%positive)
  = Some {[ KStr "11" := 1 ]}.
Proof.
  split; [apply tooth_id_none_not_counted|].
  split; vm_compute; exact eq_refl.
Qed.

(** ** Instances of the theorems with hypotheses *)

Lemma summary_holds_statistics_only_witness :
  ∃ acc s v snap m mean median lo hi,
    (fed no_repr [record_1; record_2] empty_world).1 = Ret acc ∧
    is_stats (heap (fed no_repr [record_1; record_2] empty_world).2) acc s v ∧
    summary acc (fed no_repr [record_1; record_2] empty_world).2
    = (Ret snap, (fed no_repr [record_1; record_2] empty_world).2) ∧
    snap = summary_dict (Z.of_nat (length [record_1; record_2])) (v_total v)
             mean median lo hi ∧
    Statistics.mean (v_history v) = Ret m ∧ py_round m 2 = Ret mean ∧
    Statistics.median (v_history v) = Ret median ∧
    Statistics.py_min (v_history v) = Ret lo ∧
    Statistics.py_max (v_history v) = Ret hi ∧
    dom snap = {[ "images"; "boxes"; "boxes_per_image" ]} ∧
    attach_counters acc snap (fed no_repr [record_1; record_2] empty_world).2
    = (Ret (<["tooth_ids" := SRef (tooth_ids s)]>
              (<["conditions" := SRef (conditions s)]>
                 (<["image_status" := SRef (image_status s)]> snap))),
       (fed no_repr [record_1; record_2] empty_world).2).
Proof.
  apply (summary_holds_statistics_only no_repr empty_world [record_1; record_2]);
    [discriminate|exact realistic_two].
Defined.




Lemma summary_idempotent_witness :
  ∃ acc snap,
    (fed no_repr [record_1; record_2] empty_world).1 = Ret acc ∧
    summary acc (fed no_repr [record_1; record_2] empty_world).2
    = (Ret snap, (fed no_repr [record_1; record_2] empty_world).2) ∧
    summary_twice acc (fed no_repr [record_1; record_2] empty_world).2
    = (Ret (snap, snap), (fed no_repr [record_1; record_2] empty_world).2).
Proof.
  destruct (summary_idempotent no_repr empty_world [record_1; record_2])
    as (acc & Hacc & _ & _ & Hsnap).
  destruct Hsnap as (snap & Hone & Htwo); [discriminate|exact realistic_two|].
  exists acc, snap. split; [exact Hacc|]. split; [exact Hone|exact Htwo].
Defined.

Lemma update_order_independent_witness :
  ∃ acc v1 v2,
    (fed no_repr [record_1; record_2] empty_world).1 = Ret acc ∧
    (fed no_repr [record_2; record_1] empty_world).1 = Ret acc ∧
    read_stats (heap (fed no_repr [record_1; record_2] empty_world).2) acc = Some v1 ∧
    read_stats (heap (fed no_repr [record_2; record_1] empty_world).2) acc = Some v2 ∧
    v_status v1 = v_status v2 ∧
    v_conditions v1 = v_conditions v2 ∧
    v_tooth v1 = v_tooth v2 ∧
    v_total v1 = v_total v2 ∧
    v_history v1 ≡ₚ v_history v2 ∧
    (summary acc (fed no_repr [record_1; record_2] empty_world).2).1
    = (summary acc (fed no_repr [record_2; record_1] empty_world).2).1 ∧
    is_ret (summary acc (fed no_repr [record_1; record_2] empty_world).2).1 = true.
Proof.
  destruct (update_order_independent no_repr empty_world
              [record_1; record_2] [record_2; record_1])
    as (acc & v1 & v2 & H1 & H2 & H3 & H4 & H5 & H6 & H7 & H8 & H9 & H10 & H11);
    [apply perm_swap|].
  exists acc, v1, v2. repeat (split; [assumption|]).
  apply H11; [discriminate|exact realistic_two].
Defined.

Lemma tooth_id_counted_unless_none_witness :
  let ann := PList [PDict {[ "tooth_id" := PInt 0 ]};
                    PDict {[ "tooth_id" := PNone ]}; PDict ∅] in
  let bad := PList [PDict {[ "tooth_id" := PStr "11"; "conditions" := PInt 1 ]};
                    PDict {[ "tooth_id" := PStr "12" ]}] in
  let w := (new_stats empty_world).2 in
  (∃ v', read_stats (heap (update no_repr 5%positive ann w).2) 5%positive = Some v' ∧
         ∀ k, count (v_tooth v') k
              = count (v_tooth empty_view) k + occurrences (tooth_key no_repr) k ann) ∧
  (update no_repr 5%positive bad w).1 = Raise AttributeError ∧
  reached (objs_of bad) = [PDict {[ "tooth_id" := PStr "11"; "conditions" := PInt 1 ]}] ∧
  (∃ v', read_stats (heap (update no_repr 5%positive bad w).2) 5%positive = Some v' ∧
         count (v_tooth v') (KStr "11") = 1 ∧ count (v_tooth v') (KStr "12") = 0).
Proof.
  intros ann bad w. split; [|split; [|split]].
  - destruct (tooth_id_counted_unless_none no_repr w 5%positive first_stats
                empty_view ann first_stats_fresh) as (v' & Hread & _ & Hall).
    exists v'. split; [exact Hread|]. apply Hall. vm_compute. exact eq_refl.
  - vm_compute. exact eq_refl.
  - vm_compute. exact eq_refl.
  - destruct (tooth_id_counted_unless_none no_repr w 5%positive first_stats
                empty_view bad first_stats_fresh) as (v' & Hread & Hcount & _).
    exists v'. split; [exact Hread|].
    split; rewrite Hcount; vm_compute; exact eq_refl.
Defined.

Lemma total_is_sum_of_history_witness :
  ∃ acc v,
    (fed no_repr [record_1; record_2] empty_world).1 = Ret acc ∧
    read_stats (heap (fed no_repr [record_1; record_2] empty_world).2) acc = Some v ∧
    v_total v = Statistics.sum (v_history v) ∧
    length (v_history v) = length [record_1; record_2] ∧
    is_ret (summary acc (fed no_repr [record_1; record_2] empty_world).2).1 = true.
Proof.
  destruct (total_is_sum_of_history no_repr empty_world [record_1; record_2])
    as (acc & v & H1 & H2 & H3 & H4 & _ & H5).
  exists acc, v. repeat (split; [assumption|]).
  apply H5; [discriminate|exact realistic_two].
Defined.

(** ** Instances of the further theorems *)

Lemma most_common_sorted_stable_witness :
  most_common None example_counter = example_counter ∧
  most_common (Some 0) example_counter = [] ∧
  most_common None unsorted_counter
  = [(KStr "y", 2); (KStr "t", 2); (KStr "x", 1); (KStr "z", 1)] ∧
  filter (λ kv : hkey * Z, kv.2 = 2) (most_common None unsorted_counter)
  = [(KStr "y", 2); (KStr "t", 2)] ∧
  ∃ pad lines,
    fmt_lines pad (most_common (Some 3) unsorted_counter) = Ret lines ∧
    String.concat newline ["y : 2"; "t : 2"; "x : 1"]
    = String.concat newline lines ∧
    length lines = length (most_common (Some 3) unsorted_counter).
Proof.
  destruct (most_common_sorted_stable example_counter 0)
    as (_ & _ & _ & Hstable & _ & _ & Hnone & _).
  destruct (most_common_sorted_stable unsorted_counter 3)
    as (_ & _ & Hfilter & _ & _ & _ & _ & Hrows).
  split; [apply Hstable; repeat constructor; simpl; lia|].
  split; [apply Hnone; lia|].
  split; [vm_compute; exact eq_refl|].
  split; [rewrite Hfilter; vm_compute; exact eq_refl|].
  apply (Hrows (Some 3)). vm_compute. exact eq_refl.
Defined.

Lemma fmt_counter_non_string_key_witness :
  _fmt_counter mixed_counter (Some 10) = Raise TypeError.
Proof.
  apply (fmt_counter_non_string_key mixed_counter (Some 10)).
  apply Exists_cons_tl, Exists_cons_hd. intros s. discriminate.
Defined.

Lemma fmt_counter_aligned_witness :
  ∃ pad lines,
    _fmt_counter example_counter (Some 2) = Ret (String.concat newline lines) ∧
    (example_counter = [] → pad = 1%nat) ∧
    (example_counter ≠ [] →
     Exists (λ kv : hkey * Z, ∃ s, kv.1 = KStr s ∧ String.length s = pad)
       example_counter) ∧
    Forall (λ kv : hkey * Z, ∀ s, kv.1 = KStr s → String.length s ≤ pad)%nat
      example_counter ∧
    Forall2 (λ (kv : hkey * Z) line,
               ∃ s, kv.1 = KStr s ∧
                    line = rjust s pad +:+ " : " +:+ pretty kv.2 ∧
                    String.length (rjust s pad) = pad)
      (most_common (Some 2) example_counter) lines.
Proof.
  apply (fmt_counter_aligned example_counter (Some 2)).
  repeat constructor; by eexists.
Defined.

(** The index over the faulty tree, and that over the example tree without
    image loading. *)
#[local] Abbreviation faulty_index := (described string ["a"; "b"; "c"]).
#[local] Abbreviation plain_index := (described string ["a"; "b"]).
#[local] Abbreviation hidden_index :=
  ({| img_dir := ["images"]; ann_dir := ["annotations"]; ids := [".png"];
      load_images := true; transforms := None |} : InReDDDataset string).

Lemma hidden_index_constructed :
  (init wildcard_match string true None true hidden_world).1 = Ret hidden_index.
Proof. vm_compute. exact eq_refl. Qed.

Lemma getitem_index_bounds_witness :
  getitem wildcard_match example_json string example_image_open example_index 2
    example_world = (Raise IndexError, example_world) ∧
  getitem wildcard_match example_json string example_image_open example_index (-1)
    example_world
  = getitem wildcard_match example_json string example_image_open example_index
      (-1 + Z.of_nat (len string example_index)) example_world.
Proof.
  destruct (getitem_index_bounds wildcard_match example_json string
              example_image_open example_index 2 example_world) as [Hout _].
  destruct (getitem_index_bounds wildcard_match example_json string
              example_image_open example_index (-1) example_world) as [_ Hin].
  split; [apply Hout; right; vm_compute; discriminate|].
  apply Hin. split; [vm_compute; discriminate|vm_compute; exact eq_refl].
Defined.

Lemma getitem_annotation_first_witness :
  getitem wildcard_match example_json string example_image_open faulty_index 2
    faulty_world
  = (Raise FileNotFoundError,
     logged [EvExists ["annotations"; "c.json"]] faulty_world) ∧
  getitem wildcard_match example_json string example_image_open faulty_index 1
    faulty_world
  = (Raise JSONDecodeError,
     logged [EvExists ["annotations"; "b.json"]; EvRead ["annotations"; "b.json"]]
       faulty_world).
Proof.
  destruct (getitem_annotation_first wildcard_match example_json string
              example_image_open faulty_index 2 "c" faulty_world eq_refl)
    as [Hmissing _].
  destruct (getitem_annotation_first wildcard_match example_json string
              example_image_open faulty_index 1 "b" faulty_world eq_refl)
    as [_ Hbad].
  split.
  - apply Hmissing. vm_compute. exact eq_refl.
  - apply (Hbad "7"); vm_compute; exact eq_refl.
Defined.

Lemma getitem_annotation_only_witness :
  getitem wildcard_match example_json string example_image_open plain_index 0
    example_world
  = (Ret (None, PList []),
     logged [EvExists ["annotations"; "a.json"]; EvRead ["annotations"; "a.json"]]
       example_world).
Proof.
  apply (getitem_annotation_only wildcard_match example_json string
           example_image_open plain_index 0 "a" "[]" (PList []) example_world);
    vm_compute; exact eq_refl.
Defined.

Lemma getitem_image_lookup_witness :
  getitem wildcard_match example_json string example_image_open example_index 0
    example_world
  = (Ret (Some "A2", PList []),
     logged [EvExists ["annotations"; "a.json"]; EvRead ["annotations"; "a.json"];
             EvScan ["images"] "a.png" true; EvExists ["images"; "sub"; "a.png"];
             EvImageOpen ["images"; "sub"; "a.png"]] example_world) ∧
  getitem wildcard_match example_json string example_image_open hidden_index 0
    hidden_world
  = (Raise FileNotFoundError,
     logged [EvExists ["annotations"; ".png.json"];
             EvRead ["annotations"; ".png.json"];
             EvScan ["images"] ".png.png" true; EvScan ["images"] ".png.jpg" true;
             EvScan ["images"] ".png.jpeg" true] hidden_world).
Proof.
  destruct (getitem_image_lookup wildcard_match example_json string
              example_image_open example_index 0 "a" "[]" (PList []) example_world
              eq_refl eq_refl eq_refl eq_refl) as [Hfound _].
  destruct (getitem_image_lookup wildcard_match example_json string
              example_image_open hidden_index 0 ".png" "[]" (PList []) hidden_world
              eq_refl eq_refl eq_refl eq_refl) as [_ Hnone].
  split.
  - apply (Hfound [] ".png" [".jpg"; ".jpeg"] ["images"; "sub"; "a.png"] [] "A2" "A2");
      [exact eq_refl|constructor|vm_compute; exact eq_refl..].
  - apply Hnone. repeat constructor; vm_compute; exact eq_refl.
Defined.

Lemma init_scans_images_only_witness :
  lookup_node (fs unannotated_world) ["images"]
  = lookup_node (fs example_world) ["images"] ∧
  (init wildcard_match string false None true unannotated_world).1
  = (init wildcard_match string false None true example_world).1.
Proof.
  split; [exact eq_refl|].
  destruct (init_scans_images_only wildcard_match string false None true
              example_world) as (_ & _ & Hsame).
  apply Hsame. exact eq_refl.
Defined.

Lemma shallow_ids_among_recursive_witness :
  (init wildcard_match string false None false example_world).1 = Ret plain_index ∧
  ∃ ds', (init wildcard_match string true None true example_world).1 = Ret ds' ∧
         ids string plain_index ⊆ ids string ds'.
Proof.
  split; [vm_compute; exact eq_refl|].
  apply (shallow_ids_among_recursive wildcard_match string false true None None
           example_world plain_index).
  vm_compute. exact eq_refl.
Defined.

Lemma describe_without_images_witness :
  image_names wildcard_match (fs imageless_world) true = [] ∧
  describe no_repr wildcard_match example_json string example_image_open
    imageless_world
  = (Raise FileNotFoundError, logged (init_scans true) imageless_world).
Proof.
  split; [vm_compute; exact eq_refl|].
  apply (describe_without_images no_repr wildcard_match example_json string
           example_image_open imageless_world).
  vm_compute. exact eq_refl.
Defined.

Lemma realistic_example : realistic [PList []; PDict ∅].
Proof. split; [vm_compute; discriminate|]. repeat constructor; vm_compute; discriminate. Defined.

Lemma describe_all_records_witness :
  ∃ acc s out,
    (describe no_repr wildcard_match example_json string example_image_open
       example_world).1 = Ret out ∧
    is_stats
      (heap (describe no_repr wildcard_match example_json string example_image_open
               example_world).2)
      acc s (views_after no_repr [PList []; PDict ∅] empty_view) ∧
    out !! "images" = Some (SNum (NInt 2)) ∧
    out !! "boxes" = Some (SNum (NInt 1)) ∧
    out !! "tooth_ids" = Some (SRef (tooth_ids s)).
Proof.
  destruct (describe_all_records no_repr wildcard_match example_json string
              example_image_open example_world ["a"; "b"] [PList []; PDict ∅])
    as (acc & s & w' & Hrun & Hst & _ & _ & Hout).
  - vm_compute. exact eq_refl.
  - discriminate.
  - repeat constructor.
  - repeat constructor.
  - destruct (Hout realistic_example) as (out & Hret & Himages & Hboxes & Htooth).
    exists acc, s, out. rewrite Hrun. rewrite Hrun in Hret.
    split; [exact Hret|]. split; [exact Hst|].
    split; [exact Himages|]. split; [exact Hboxes|exact Htooth].
Defined.

Lemma describe_stops_at_failure_witness :
  (∃ w', describe no_repr wildcard_match example_json string example_image_open
           faulty_world = (Raise JSONDecodeError, w') ∧
         trace w'
         = init_scans true ++
           [EvExists ["annotations"; "a.json"]; EvRead ["annotations"; "a.json"];
            EvExists ["annotations"; "b.json"]; EvRead ["annotations"; "b.json"]]) ∧
  (∃ w', describe no_repr wildcard_match scalar_json string example_image_open
           faulty_world = (Raise AttributeError, w') ∧
         trace w'
         = init_scans true ++
           [EvExists ["annotations"; "a.json"]; EvRead ["annotations"; "a.json"];
            EvExists ["annotations"; "b.json"]; EvRead ["annotations"; "b.json"]]).
Proof.
  split.
  - destruct (describe_stops_at_failure no_repr wildcard_match example_json string
                example_image_open faulty_world ["a"; "b"; "c"] ["a"] ["c"] "b"
                [PList []]) as [Hann _].
    + vm_compute. exact eq_refl.
    + exact eq_refl.
    + repeat constructor.
    + repeat constructor.
    + destruct (Hann JSONDecodeError eq_refl) as (acc & s & w' & Hrun & _ & Htr).
      exists w'. split; [exact Hrun|exact Htr].
  - destruct (describe_stops_at_failure no_repr wildcard_match scalar_json string
                example_image_open faulty_world ["a"; "b"; "c"] ["a"] ["c"] "b"
                [PList []]) as [_ Hrec].
    + vm_compute. exact eq_refl.
    + exact eq_refl.
    + repeat constructor.
    + repeat constructor.
    + destruct (Hrec (PInt 7) eq_refl eq_refl) as (e & acc & s & w' & He & Hrun & _ & Htr).
      exists w'. split; [|exact Htr].
      rewrite Hrun. f_equal. f_equal.
      assert (Hfst : (describe no_repr wildcard_match scalar_json string
                        example_image_open faulty_world).1 = Raise AttributeError)
        by (vm_compute; exact eq_refl).
      rewrite Hrun in Hfst. by injection Hfst.
Defined.

Lemma update_returns_iff_countable_witness :
  (update no_repr 5%positive record_1 (new_stats empty_world).2).1 = Ret tt
  ↔ countable_record record_1 = true.
Proof.
  apply (update_returns_iff_countable no_repr _ 5%positive first_stats empty_view
           record_1 first_stats_fresh).
Defined.

Lemma update_records_size_first_witness :
  ∃ v', read_stats (heap (update no_repr 5%positive (PInt 7)
                            (new_stats empty_world).2).2) 5%positive = Some v' ∧
        v_history v' = [1] ∧ v_total v' = 1.
Proof.
  destruct (update_records_size_first no_repr _ 5%positive first_stats empty_view
              (PInt 7) first_stats_fresh) as (v' & Hread & Hhist & Htotal & _).
  exists v'. split; [exact Hread|]. split; [exact Hhist|exact Htotal].
Defined.

Lemma image_status_counted_when_true_witness :
  let w := (new_stats empty_world).2 in
  ∃ v', read_stats (heap (update no_repr 5%positive record_3 w).2) 5%positive
        = Some v' ∧
        ∀ k, count (v_status v') k
             = count (v_status empty_view) k + occurrences status_key k record_3.
Proof.
  apply (image_status_counted_when_true no_repr _ 5%positive first_stats empty_view);
    [exact first_stats_fresh|vm_compute; exact eq_refl].
Defined.

Lemma conditions_counted_when_true_witness :
  let w := (new_stats empty_world).2 in
  ∃ v', read_stats (heap (update no_repr 5%positive record_2 w).2) 5%positive
        = Some v' ∧
        (∀ c, count (v_conditions v') (KStr c)
              = count (v_conditions empty_view) (KStr c)
                + Z.of_nat (length (filter (λ o, has_condition c o = true)
                                      (objs_of record_2)))) ∧
        (∀ k, (∀ c, k ≠ KStr c) →
              count (v_conditions v') k = count (v_conditions empty_view) k).
Proof.
  apply (conditions_counted_when_true no_repr _ 5%positive first_stats empty_view);
    [exact first_stats_fresh|vm_compute; exact eq_refl].
Defined.

Lemma summary_extremes_witness :
  ∃ acc mean median lo hi,
    (fed no_repr [record_1; record_2] empty_world).1 = Ret acc ∧
    (summary acc (fed no_repr [record_1; record_2] empty_world).2).1
    = Ret (summary_dict 2 (Statistics.sum (sizes [record_1; record_2]))
             mean median lo hi) ∧
    lo ∈ sizes [record_1; record_2] ∧ hi ∈ sizes [record_1; record_2] ∧
    ∃ f, median = NFloat f.
Proof.
  destruct (summary_extremes no_repr empty_world [record_1; record_2])
    as (acc & mean & median & lo & hi & Hacc & Hsum & Hlo & Hhi & _ & _ & Hmed);
    [discriminate|exact realistic_two|].
  exists acc, mean, median, lo, hi.
  split; [exact Hacc|]. split; [exact Hsum|]. split; [exact Hlo|].
  split; [exact Hhi|exact Hmed].
Defined.

Lemma update_scalar_record_witness :
  (update no_repr 5%positive (PStr "ab") (new_stats empty_world).2).1
  = Raise AttributeError ∧
  read_stats (heap (update no_repr 5%positive (PStr "ab") (new_stats empty_world).2).2)
    5%positive
  = Some {| v_status := ∅; v_conditions := ∅; v_tooth := ∅; v_total := 0 + 2;
            v_history := [] ++ [2] |}.
Proof.
  apply (update_scalar_record no_repr _ 5%positive first_stats empty_view (PStr "ab")
           first_stats_fresh); intros x; discriminate.
Defined.

Lemma stem_of_image_name_witness :
  stem "a.tar.png" = "a.tar" ∧ stem ".png" = ".png" ∧
  stem "a.tar.png" +:+ ".png" = "a.tar.png".
Proof.
  destruct (stem_of_image_name "a.tar" ".png") as [Hstem Hname]; [constructor|].
  destruct (stem_of_image_name "" ".png") as [Hext _]; [constructor|].
  split; [exact Hstem|]. split; [exact Hext|].
  apply Hname. discriminate.
Defined.
